(** * dea-cli: offline queue, token store, classifier and auto-refresh

    A shallow embedding of the durability core of the dea command-line
    client (Go): the network-error classifiers, the token store, the
    durable request queue, the queue flusher, the token-response
    unwrapping of the API client and the auto-refresh loop.

    Go strings are byte strings; they are modelled by [string], whose
    characters ([ascii]) are bytes.  A Go [error] is [option error]
    ([None] is the nil error). *)

From Stdlib Require Import Ascii ZArith Lia.
From stdpp Require Import gmap strings list pretty.

Local Open Scope string_scope.
Local Set Warnings "-register-all".

(** ** Go errors *)

Inductive Errno := ENOENT | EACCES.

(** The error values the modelled code creates or receives:
    [ErrMsg] is an [errors.New]/[fmt.Errorf] value carrying its text,
    [PathError] is the [*fs.PathError] of package os, and [JSONError] an
    error of package encoding/json (syntax, type, or marshalling error). *)
Inductive error :=
  | ErrMsg (msg : string)
  | PathError (op path : string) (e : Errno)
  | JSONError (msg : string).

Definition Errno_text (e : Errno) : string :=
  match e with
  | ENOENT => "no such file or directory"
  | EACCES => "permission denied"
  end.

(** [err.Error()] *)
Definition Error (e : error) : string :=
  match e with
  | ErrMsg m => m
  | PathError op path e => op ++ " " ++ path ++ ": " ++ Errno_text e
  | JSONError m => m
  end.

(** [os.IsNotExist(err)] *)
Definition IsNotExist (err : option error) : bool :=
  match err with
  | Some (PathError _ _ ENOENT) => true
  | _ => false
  end.

(** ** Time *)

Local Open Scope Z_scope.

(** A [time.Time] is modelled by the instant it denotes, in nanoseconds
    since the Unix epoch (location and monotonic reading, which none of
    the modelled code reads, are left out).  A [time.Duration] is an
    int64 count of nanoseconds. *)
Definition Time := Z.
Definition Duration := Z.

Definition maxDuration : Duration := 2 ^ 63 - 1.
Definition minDuration : Duration := - 2 ^ 63.
Definition Minute : Duration := 60 * 1000000000.
Definition Hour : Duration := 60 * Minute.

(** The zero [time.Time]: January 1, year 1, 00:00:00 UTC. *)
Definition zeroTime : Time := -62135596800 * 1000000000.

(** [t.Add(d)] *)
Definition Time_Add (t : Time) (d : Duration) : Time := t + d.

(** [t.Before(u)] *)
Definition Time_Before (t u : Time) : bool := t <? u.

(** [t.Sub(u)]: the difference, clamped to the range of [Duration]. *)
Definition Time_Sub (t u : Time) : Duration :=
  if maxDuration <? t - u then maxDuration
  else if t - u <? minDuration then minDuration
  else t - u.

(** [t.UnixNano()]: an int64; it wraps around outside the int64 range. *)
Definition UnixNano (t : Time) : Z := (t + 2 ^ 63) mod 2 ^ 64 - 2 ^ 63.

(** [fmt.Sprintf "%d"] of an int64 *)
Definition Sprintf_d (n : Z) : string := pretty n.

(** ** JSON documents *)

Inductive json :=
  | JNull
  | JBool (b : bool)
  | JNum (literal : string)
  | JStr (s : string)
  | JArr (elems : list json)
  | JObj (members : list (string * json)).

(** The byte level of package encoding/json, package time's JSON
    representation of a [time.Time], and the home directory of package
    os are the platform the code runs on.  [json_parse] is the syntax
    check and scan of [json.Unmarshal] ([None]: not a JSON document),
    [json_render] the output of [json.MarshalIndent];
    [Time_format] is the content of the string [Time.MarshalJSON] writes
    ([None]: the year is outside 0..9999) and [Time_parse] what
    [Time.UnmarshalJSON] reads (a time that was read, and the zero
    time, have a year in 0..9999); [text b] is [string(b)].

    The laws are those of the two packages on documents whose strings
    are text: the encoder writes a string of valid UTF-8 so that the
    decoder reads the same string back (the replacement of bytes that
    are not valid UTF-8 is outside the model), and RFC 3339 with
    nanoseconds keeps the instant. *)
Class Platform := {
  bytes : Type;
  json_parse : bytes -> option json;
  json_render : json -> bytes;
  json_parse_render : forall v, json_parse (json_render v) = Some v;
  Time_format : Time -> option string;
  Time_parse : string -> option Time;
  Time_parse_format : forall t s, Time_format t = Some s -> Time_parse s = Some t;
  Time_format_parse : forall s t, Time_parse s = Some t -> is_Some (Time_format t);
  Time_format_zero : is_Some (Time_format zeroTime);
  text : bytes -> string;
  UserHomeDir : option string
}.

(** *** Decoding a document into a struct (package encoding/json)

    A member whose key matches no field is skipped; a key matches a
    field name exactly or under ASCII case folding; [null] leaves the
    target as it is; a value of the wrong kind is an error.  [Unmarshal]
    reports an error when any member failed, and the modelled callers
    discard the target in that case, so a decoder returns [None] for an
    error and the filled target otherwise. *)
Module Json.

Definition fold_byte (c : ascii) : ascii :=
  let n := nat_of_ascii c in
  if (65 <=? n)%nat && (n <=? 90)%nat then ascii_of_nat (n + 32)%nat else c.

Fixpoint fold (s : string) : string :=
  match s with
  | EmptyString => EmptyString
  | String c r => String (fold_byte c) (fold r)
  end.

Definition key_is (key name : string) : bool :=
  String.eqb key name || String.eqb (fold key) (fold name).

Definition dec_string (v : json) (old : string) : option string :=
  match v with
  | JStr s => Some s
  | JNull => Some old
  | _ => None
  end.

Definition dec_time `{Platform} (v : json) (old : Time) : option Time :=
  match v with
  | JStr s => Time_parse s
  | JNull => Some old
  | _ => None
  end.

(** The members of an object, in order; a later duplicate overwrites. *)
Fixpoint dec_members {S : Type} (set : string -> json -> S -> option S)
    (ms : list (string * json)) (target : S) : option S :=
  match ms with
  | [] => Some target
  | (k, v) :: rest =>
      match set k v target with
      | Some target' => dec_members set rest target'
      | None => None
      end
  end.

Definition dec_struct {S : Type} (set : string -> json -> S -> option S)
    (v : json) (target : S) : option S :=
  match v with
  | JNull => Some target
  | JObj ms => dec_members set ms target
  | _ => None
  end.

Fixpoint dec_elems {S : Type} (dec : json -> option S) (l : list json)
    : option (list S) :=
  match l with
  | [] => Some []
  | v :: rest =>
      match dec v, dec_elems dec rest with
      | Some x, Some xs => Some (x :: xs)
      | _, _ => None
      end
  end.

(** Into a nil slice: [null] leaves it nil, an array fills it. *)
Definition dec_slice {S : Type} (dec : json -> option S) (v : json)
    : option (list S) :=
  match v with
  | JNull => Some []
  | JArr l => dec_elems dec l
  | _ => None
  end.

End Json.

(** ** The file system (package os)

    The directory [~/.dea] and the files in it.  [mkdir_ok]: the
    directory exists or [MkdirAll] can create it; [dir_writable]:
    entries can be created in it and removed from it.  A file keeps its
    permission bits when it is overwritten. *)
Section FileSystem.
Context `{Platform}.

Record node := File { data : bytes; readable : bool; writable : bool }.

Record FS := mkFS {
  files : gmap string node;
  mkdir_ok : bool;
  dir_writable : bool
}.

Definition ReadFile (name : string) (fs : FS) : error + bytes :=
  match files fs !! name with
  | None => inl (PathError "open" name ENOENT)
  | Some f => if readable f then inr (data f)
              else inl (PathError "open" name EACCES)
  end.

(** [os.WriteFile(name, data, 0600)] *)
Definition WriteFile (name : string) (d : bytes) (fs : FS) : option error * FS :=
  match files fs !! name with
  | Some f =>
      if writable f
      then (None, mkFS (<[name := File d (readable f) true]> (files fs))
                       (mkdir_ok fs) (dir_writable fs))
      else (Some (PathError "open" name EACCES), fs)
  | None =>
      if dir_writable fs
      then (None, mkFS (<[name := File d true true]> (files fs))
                       (mkdir_ok fs) (dir_writable fs))
      else (Some (PathError "open" name EACCES), fs)
  end.

(** [os.MkdirAll(dir, 0700)] *)
Definition MkdirAll (dir : string) (fs : FS) : option error * FS :=
  if mkdir_ok fs then (None, fs)
  else (Some (PathError "mkdir" dir EACCES), fs).

(** [os.Remove(name)] *)
Definition Remove (name : string) (fs : FS) : option error * FS :=
  match files fs !! name with
  | None => (Some (PathError "remove" name ENOENT), fs)
  | Some _ =>
      if dir_writable fs
      then (None, mkFS (delete name (files fs)) (mkdir_ok fs) (dir_writable fs))
      else (Some (PathError "remove" name EACCES), fs)
  end.

End FileSystem.

Module config.
Section config.
Context `{Platform}.

(** [filepath.Join] of two clean, non-empty elements *)
Definition Join (a b : string) : string := a ++ "/" ++ b.

Definition DeaDir : string :=
  match UserHomeDir with
  | None => ".dea"
  | Some home => Join home ".dea"
  end.

Definition TokensPath : string := Join DeaDir "tokens.json".
Definition QueuePath : string := Join DeaDir "queue.json".
End config.
End config.

(** ** Package api: the classifier and the token endpoints *)

Module api.

(** [containsStr]: the loop [for i := 0; i <= len(s)-len(sub); i++]
    returning at the first [i] with [s[i:i+len(sub)] == sub]. *)
Definition containsStr (s sub : string) : bool :=
  if (String.length s <? String.length sub)%nat then false
  else existsb
         (fun i => String.eqb (String.substring i (String.length sub) s) sub)
         (seq 0 (String.length s - String.length sub + 1)%nat).

Definition keywords : list string :=
  ["network error"; "connection refused"; "no such host"; "timeout"; "dial"].

(** [IsNetworkError]: the classifier of package api, the one [Flush]
    and [apiPost] call. *)
Definition IsNetworkError (err : option error) : bool :=
  match err with
  | None => false
  | Some e =>
      let msg := Error e in
      existsb (fun keyword => containsStr msg keyword) keywords
  end.


(** [TokenResponse], returned by the token-service endpoints. *)
Record TokenResponse := mkTokenResponse {
  WorkspaceToken : string;
  TokenType : string;
  ExpiresAt : Time;
  WorkspaceID : string;
  AgentID : string
}.

Definition zeroTokenResponse : TokenResponse :=
  mkTokenResponse "" "" zeroTime "" "".

Section client.
Context `{Platform}.

(** What [httpClient.Do] and [io.ReadAll] give for one request. *)
Record Response := mkResponse {
  StatusCode : Z;
  ReadAll : error + bytes
}.

Definition set_field (key : string) (v : json) (t : TokenResponse)
    : option TokenResponse :=
  if Json.key_is key "workspace_token" then
    s ← Json.dec_string v (WorkspaceToken t);
    Some (mkTokenResponse s (TokenType t) (ExpiresAt t) (WorkspaceID t) (AgentID t))
  else if Json.key_is key "token_type" then
    s ← Json.dec_string v (TokenType t);
    Some (mkTokenResponse (WorkspaceToken t) s (ExpiresAt t) (WorkspaceID t) (AgentID t))
  else if Json.key_is key "expires_at" then
    e ← Json.dec_time v (ExpiresAt t);
    Some (mkTokenResponse (WorkspaceToken t) (TokenType t) e (WorkspaceID t) (AgentID t))
  else if Json.key_is key "workspace_id" then
    s ← Json.dec_string v (WorkspaceID t);
    Some (mkTokenResponse (WorkspaceToken t) (TokenType t) (ExpiresAt t) s (AgentID t))
  else if Json.key_is key "agent_id" then
    s ← Json.dec_string v (AgentID t);
    Some (mkTokenResponse (WorkspaceToken t) (TokenType t) (ExpiresAt t) (WorkspaceID t) s)
  else Some t.

(** [json.Unmarshal(respBody, &tokenResp)] with
    [var tokenResp TokenResponse] *)
Definition Unmarshal_flat (d : bytes) : error + TokenResponse :=
  match json_parse d with
  | None => inl (JSONError "invalid character")
  | Some v =>
      match Json.dec_struct set_field v zeroTokenResponse with
      | Some t => inr t
      | None => inl (JSONError "cannot unmarshal")
      end
  end.

(** The one field of [wrapper], tagged [data]. *)
Definition set_data (key : string) (v : json) (w : TokenResponse)
    : option TokenResponse :=
  if Json.key_is key "data" then Json.dec_struct set_field v w
  else Some w.

(** [json.Unmarshal(respBody, &wrapper)] with
    [var wrapper struct { Data TokenResponse `json:"data"` }];
    the result is [wrapper.Data]. *)
Definition Unmarshal_wrapper (d : bytes) : error + TokenResponse :=
  match json_parse d with
  | None => inl (JSONError "invalid character")
  | Some v =>
      match Json.dec_struct set_data v zeroTokenResponse with
      | Some t => inr t
      | None => inl (JSONError "cannot unmarshal")
      end
  end.

(** The end of [RefreshToken] and of [IssueToken]: the wrapped
    shape, then the flat one. *)
Definition unwrap (respBody : bytes) : error + TokenResponse :=
  match Unmarshal_wrapper respBody with
  | inl err =>
      match Unmarshal_flat respBody with
      | inl err2 => inl err
      | inr tokenResp => inr tokenResp
      end
  | inr data => inr data
  end.

(** [RefreshToken], given the outcome [resp] of the HTTP round trip. *)
Definition RefreshToken (resp : error + Response) : error + TokenResponse :=
  match resp with
  | inl err => inl err
  | inr resp =>
      if negb (StatusCode resp =? 200) then
        inl (ErrMsg ("refresh failed: HTTP " ++ Sprintf_d (StatusCode resp)))
      else
        match ReadAll resp with
        | inl err => inl err
        | inr respBody => unwrap respBody
        end
  end.

(** [IssueToken], given the outcome [resp] of the HTTP round trip. *)
Definition IssueToken (resp : error + Response) : error + TokenResponse :=
  match resp with
  | inl err => inl err
  | inr resp =>
      match ReadAll resp with
      | inl err => inl err
      | inr respBody =>
          if negb (StatusCode resp =? 200) && negb (StatusCode resp =? 201) then
            inl (ErrMsg ("login failed: HTTP " ++ Sprintf_d (StatusCode resp)
                         ++ ": " ++ text respBody))
          else unwrap respBody
      end
  end.

End client.

End api.

(** ** Package commands: the classifier of the command layer *)

Module commands.

(** One byte of [toLower]: [if c >= 'A' && c <= 'Z' { c += 'a' - 'A' }]. *)
Definition lower_byte (c : ascii) : ascii :=
  let n := nat_of_ascii c in
  if (65 <=? n)%nat && (n <=? 90)%nat then ascii_of_nat (n + 32)%nat else c.

Fixpoint toLower (s : string) : string :=
  match s with
  | EmptyString => EmptyString
  | String c r => String (lower_byte c) (toLower r)
  end.

Definition containsIgnoreCase (s sub : string) : bool :=
  if (String.length s <? String.length sub)%nat then false
  else
    let sLower := toLower s in
    let subLower := toLower sub in
    existsb
      (fun i => String.eqb (String.substring i (String.length subLower) sLower) subLower)
      (seq 0 (String.length sLower - String.length subLower + 1)%nat).

Definition keywords : list string :=
  ["network error"; "connection"; "no such host"; "timeout"; "dial"].

(** [isNetworkErr]: the classifier of the command layer. *)
Definition isNetworkErr (err : option error) : bool :=
  match err with
  | None => false
  | Some e =>
      let msg := Error e in
      existsb (fun keyword => containsIgnoreCase msg keyword) keywords
  end.

End commands.

(** *** The classification in the words of the specification *)

(** [sub] occurs in [s]. *)
Definition Contains (s sub : string) : Prop :=
  exists pre post, s = pre ++ sub ++ post.

Definition is_upper (a : ascii) : Prop :=
  (65 <= nat_of_ascii a <= 90)%nat.

(** The same byte, or the same ASCII letter in the two cases. *)
Definition same_letter (a b : ascii) : Prop :=
  a = b
  \/ (is_upper a /\ nat_of_ascii b = nat_of_ascii a + 32)%nat
  \/ (is_upper b /\ nat_of_ascii a = nat_of_ascii b + 32)%nat.

Inductive EqFold : string -> string -> Prop :=
  | EqFold_nil : EqFold EmptyString EmptyString
  | EqFold_cons a b s t :
      same_letter a b -> EqFold s t -> EqFold (String a s) (String b t).

(** [sub] occurs in [s] in any casing. *)
Definition ContainsFold (s sub : string) : Prop :=
  exists pre mid post, s = pre ++ mid ++ post /\ EqFold mid sub.

Definition spec_keywords : list string :=
  ["network error"; "connection"; "no such host"; "timeout"; "dial"].

(** Transient, as section 4.3 words it. *)
Definition spec_transient (err : option error) : Prop :=
  match err with
  | None => False
  | Some e => exists kw, In kw spec_keywords /\ ContainsFold (Error e) kw
  end.

(** ** Package auth: the token store *)

Module auth.

(** [TokenData], the structure stored in [~/.dea/tokens.json]. *)
Record TokenData := mkTokenData {
  WorkspaceToken : string;
  TokenType : string;
  ExpiresAt : Time;
  WorkspaceID : string;
  AgentID : string;
  Endpoint : string
}.

Definition zeroTokenData : TokenData :=
  mkTokenData "" "" zeroTime "" "" "".

(** [TokenStore]; the lock [mu] serialises the operations, which the
    sequential model runs one at a time. *)
Record TokenStore := mkTokenStore { path : string }.

Section auth.
Context `{Platform}.

Definition NewTokenStore : TokenStore := mkTokenStore config.TokensPath.

(** One member of a document decoded into a [TokenData], by its
    [json] tags. *)
Definition set_field (key : string) (v : json) (t : TokenData)
    : option TokenData :=
  if Json.key_is key "workspace_token" then
    s ← Json.dec_string v (WorkspaceToken t);
    Some (mkTokenData s (TokenType t) (ExpiresAt t) (WorkspaceID t) (AgentID t) (Endpoint t))
  else if Json.key_is key "token_type" then
    s ← Json.dec_string v (TokenType t);
    Some (mkTokenData (WorkspaceToken t) s (ExpiresAt t) (WorkspaceID t) (AgentID t) (Endpoint t))
  else if Json.key_is key "expires_at" then
    e ← Json.dec_time v (ExpiresAt t);
    Some (mkTokenData (WorkspaceToken t) (TokenType t) e (WorkspaceID t) (AgentID t) (Endpoint t))
  else if Json.key_is key "workspace_id" then
    s ← Json.dec_string v (WorkspaceID t);
    Some (mkTokenData (WorkspaceToken t) (TokenType t) (ExpiresAt t) s (AgentID t) (Endpoint t))
  else if Json.key_is key "agent_id" then
    s ← Json.dec_string v (AgentID t);
    Some (mkTokenData (WorkspaceToken t) (TokenType t) (ExpiresAt t) (WorkspaceID t) s (Endpoint t))
  else if Json.key_is key "endpoint" then
    s ← Json.dec_string v (Endpoint t);
    Some (mkTokenData (WorkspaceToken t) (TokenType t) (ExpiresAt t) (WorkspaceID t) (AgentID t) s)
  else Some t.

(** [json.Unmarshal(data, &token)] with [var token TokenData] *)
Definition Unmarshal (d : bytes) : error + TokenData :=
  match json_parse d with
  | None => inl (JSONError "invalid character")
  | Some v =>
      match Json.dec_struct set_field v zeroTokenData with
      | Some t => inr t
      | None => inl (JSONError "cannot unmarshal")
      end
  end.

(** The document of a [*TokenData]; nil is [null]. *)
Definition document (token : option TokenData) : option json :=
  match token with
  | None => Some JNull
  | Some t =>
      e ← Time_format (ExpiresAt t);
      Some (JObj [("workspace_token", JStr (WorkspaceToken t));
                  ("token_type", JStr (TokenType t));
                  ("expires_at", JStr e);
                  ("workspace_id", JStr (WorkspaceID t));
                  ("agent_id", JStr (AgentID t));
                  ("endpoint", JStr (Endpoint t))])
  end.

(** [json.MarshalIndent(token, "", "  ")] *)
Definition MarshalIndent (token : option TokenData) : error + bytes :=
  match document token with
  | Some v => inr (json_render v)
  | None => inl (JSONError "Time.MarshalJSON: year outside of range [0,9999]")
  end.

(** [Load]: the token on disk, [None] (nil) if there is none. *)
Definition Load (s : TokenStore) (fs : FS) : option TokenData :=
  match ReadFile (path s) fs with
  | inl _ => None
  | inr d =>
      match Unmarshal d with
      | inl _ => None
      | inr token => Some token
      end
  end.

(** [GetToken] *)
Definition GetToken (s : TokenStore) (fs : FS) : string :=
  match Load s fs with
  | None => ""
  | Some token => WorkspaceToken token
  end.

(** [Save] *)
Definition Save (s : TokenStore) (token : option TokenData) (fs : FS)
    : option error * FS :=
  match MkdirAll config.DeaDir fs with
  | (Some err, fs') => (Some err, fs')
  | (None, fs') =>
      match MarshalIndent token with
      | inl err => (Some err, fs')
      | inr d => WriteFile (path s) d fs'
      end
  end.

(** [Clear] *)
Definition Clear (s : TokenStore) (fs : FS) : option error * FS :=
  Remove (path s) fs.

End auth.

(** *** The auto-refresh loop (refresh.go)

    The goroutine of [StartAutoRefresh] runs against a world: the file
    system, the wall clock, and the count of operations done so far.
    Operation number [i] takes the time [elapsed i] besides what it
    sleeps; [refresh i tok] is what the [RefreshFunc] returns when it
    is called as operation [i] (a token pointer, possibly nil, and an
    error).  An [Event] is something the loop does that can be
    observed. *)
Inductive Event :=
  | Evaluated (now : Time) (token : TokenData)
  | Slept (d : Duration)
  | Refreshed (at_time : Time) (token : TokenData)
  | Stderr (msg : string).

Section StartAutoRefresh.
Context `{Platform}.

Record World := mkWorld {
  w_fs : FS;
  w_now : Time;
  w_step : nat
}.

Variable refresh : nat -> string -> option TokenData * option error.
Variable elapsed : nat -> Duration.

(** One operation that takes [extra] on top of its own time. *)
Definition tick (extra : Duration) (w : World) : World :=
  mkWorld (w_fs w) (w_now w + elapsed (w_step w) + extra) (S (w_step w)).

(** [time.Sleep(d)]: pauses for at least [d]; returns at once when
    [d] is negative or zero. *)
Definition Sleep (d : Duration) (w : World) : World := tick (Z.max 0 d) w.

Definition nl : string := String (ascii_of_nat 10) EmptyString.

(** The body of the [for] loop. *)
Definition iteration (store : TokenStore) (w : World) : list Event * World :=
  let token := Load store (w_fs w) in
  let w := tick 0 w in
  match token with
  | None => ([Slept (5 * Minute)], Sleep (5 * Minute) w)
  | Some token =>
      let expiresAt := ExpiresAt token in
      let refreshAt := Time_Add expiresAt (-4 * Hour) in
      let now := w_now w in
      let w := tick 0 w in
      let '(slept, w) :=
        if Time_Before now refreshAt
        then ([Slept (Time_Sub refreshAt now)], Sleep (Time_Sub refreshAt now) w)
        else ([], w) in
      let called := w_now w in
      let '(newToken, err) := refresh (w_step w) (WorkspaceToken token) in
      let w := tick 0 w in
      let before :=
        (Evaluated now token :: slept ++ [Refreshed called token])%list in
      match err with
      | Some e =>
          ((before ++ [Stderr ("token refresh failed: " ++ Error e ++ nl);
                       Slept (5 * Minute)])%list,
           Sleep (5 * Minute) w)
      | None =>
          let '(err, fs') := Save store newToken (w_fs w) in
          let w := tick 0 (mkWorld fs' (w_now w) (w_step w)) in
          match err with
          | Some e =>
              ((before ++ [Stderr ("failed to save refreshed token: "
                                   ++ Error e ++ nl)])%list, w)
          | None => (before, w)
          end
      end
  end.

(** The first [n] rounds of [for { ... }]. *)
Fixpoint run (n : nat) (store : TokenStore) (w : World) : list Event * World :=
  match n with
  | O => ([], w)
  | S n' =>
      let '(evs, w') := iteration store w in
      let '(evs', w'') := run n' store w' in
      ((evs ++ evs')%list, w'')
  end.

End StartAutoRefresh.
End auth.

(** ** Package queue: the durable queue and its flusher *)

(** An [interface{}] handed to [json.Marshal]: nil, a value with a
    document, or a value [Marshal] rejects (a channel, a NaN, ...). *)
Inductive GoValue :=
  | Nil
  | Encodable (v : json)
  | Unencodable.

(** [json.Marshal(body)] *)
Definition Marshal (body : GoValue) : error + json :=
  match body with
  | Nil => inr JNull
  | Encodable v => inr v
  | Unencodable => inl (JSONError "json: unsupported type")
  end.

Module queue.

(** [QueuedRequest].  [Body] is a [json.RawMessage]: the encoder writes
    a nil one as [null] and the decoder reads [null] back as the bytes
    of [null], which every use in the program marshals again; both
    are [JNull] here. *)
Record QueuedRequest := mkQueuedRequest {
  ID : string;
  Method : string;
  Path : string;
  Body : json;
  QueuedAt : Time
}.

Definition zeroQueuedRequest : QueuedRequest :=
  mkQueuedRequest "" "" "" JNull zeroTime.

(** [Queue]; the mutex [mu] serialises the operations, which the
    sequential model runs one at a time. *)
Record Queue := mkQueue { path : string }.

Section queue.
Context `{Platform}.

Definition New : Queue := mkQueue config.QueuePath.

Definition set_field (key : string) (v : json) (r : QueuedRequest)
    : option QueuedRequest :=
  if Json.key_is key "id" then
    s ← Json.dec_string v (ID r);
    Some (mkQueuedRequest s (Method r) (Path r) (Body r) (QueuedAt r))
  else if Json.key_is key "method" then
    s ← Json.dec_string v (Method r);
    Some (mkQueuedRequest (ID r) s (Path r) (Body r) (QueuedAt r))
  else if Json.key_is key "path" then
    s ← Json.dec_string v (Path r);
    Some (mkQueuedRequest (ID r) (Method r) s (Body r) (QueuedAt r))
  else if Json.key_is key "body" then
    Some (mkQueuedRequest (ID r) (Method r) (Path r) v (QueuedAt r))
  else if Json.key_is key "queued_at" then
    t ← Json.dec_time v (QueuedAt r);
    Some (mkQueuedRequest (ID r) (Method r) (Path r) (Body r) t)
  else Some r.

(** [json.Unmarshal(data, &items)] with [var items []QueuedRequest] *)
Definition Unmarshal (d : bytes) : error + list QueuedRequest :=
  match json_parse d with
  | None => inl (JSONError "invalid character")
  | Some v =>
      match Json.dec_slice
              (fun e => Json.dec_struct set_field e zeroQueuedRequest) v with
      | Some items => inr items
      | None => inl (JSONError "cannot unmarshal")
      end
  end.

Definition document1 (r : QueuedRequest) : option json :=
  t ← Time_format (QueuedAt r);
  Some (JObj [("id", JStr (ID r));
              ("method", JStr (Method r));
              ("path", JStr (Path r));
              ("body", Body r);
              ("queued_at", JStr t)]).

Fixpoint documents (items : list QueuedRequest) : option (list json) :=
  match items with
  | [] => Some []
  | r :: rest =>
      match document1 r, documents rest with
      | Some v, Some vs => Some (v :: vs)
      | _, _ => None
      end
  end.

(** [json.MarshalIndent(items, "", "  ")] of a non-nil slice *)
Definition MarshalIndent (items : list QueuedRequest) : error + bytes :=
  match documents items with
  | Some vs => inr (json_render (JArr vs))
  | None => inl (JSONError "Time.MarshalJSON: year outside of range [0,9999]")
  end.

(** [load] *)
Definition load (q : Queue) (fs : FS) : error + list QueuedRequest :=
  match ReadFile (path q) fs with
  | inl err =>
      if IsNotExist (Some err) then inr []
      else inl err
  | inr d =>
      match Unmarshal d with
      | inl err => inl err
      | inr items => inr items
      end
  end.

(** [save] *)
Definition save (q : Queue) (items : list QueuedRequest) (fs : FS)
    : option error * FS :=
  match MkdirAll config.DeaDir fs with
  | (Some err, fs') => (Some err, fs')
  | (None, fs') =>
      match MarshalIndent items with
      | inl err => (Some err, fs')
      | inr d => WriteFile (path q) d fs'
      end
  end.

(** [Add].  [now1] and [now2] are the readings of the two calls of
    [time.Now()], the first for the identifier and the second for
    [QueuedAt]. *)
Definition Add (q : Queue) (now1 now2 : Time)
    (method path : string) (body : GoValue) (fs : FS) : option error * FS :=
  let items :=
    match load q fs with
    | inl _ => []
    | inr items => items
    end in
  match (match body with
         | Nil => inr JNull
         | _ => Marshal body
         end) with
  | inl err =>
      (Some (ErrMsg ("failed to marshal queue body: " ++ Error err)), fs)
  | inr rawBody =>
      save q (items ++ [mkQueuedRequest (Sprintf_d (UnixNano now1))
                                        method path rawBody now2]) fs
  end.

(** [List] *)
Definition List (q : Queue) (fs : FS) : error + list QueuedRequest :=
  load q fs.

(** [Clear] *)
Definition Clear (q : Queue) (fs : FS) : option error * FS :=
  save q [] fs.

(** [Remove] *)
Definition Remove (q : Queue) (id : string) (fs : FS) : option error * FS :=
  match load q fs with
  | inl err => (Some err, fs)
  | inr items =>
      let filtered :=
        List.filter (fun item => negb (String.eqb (ID item) id)) items in
      save q filtered fs
  end.

(** [Len] *)
Definition Len (q : Queue) (fs : FS) : nat :=
  match load q fs with
  | inl _ => 0%nat
  | inr items => length items
  end.

End queue.

(** *** The flusher

    The API client and the service behind it are a state machine:
    [Post] and [Get] return the error of the call (the response body
    is not used by [Flush]) and the next state.  The lines [Flush]
    prints are left out. *)
Section Flush.
Context `{Platform}.
Variable Client : Type.
Variable Post : Client -> string -> json -> option error * Client.
Variable Get : Client -> string -> option error * Client.

(** [switch item.Method]: the call a stored method stands for, or
    [None] for the [default] case. *)
Definition dispatch (c : Client) (item : QueuedRequest)
    : option (option error * Client) :=
  if String.eqb (Method item) "POST"
  then Some (Post c (Path item) (Body item))
  else if String.eqb (Method item) "GET"
  then Some (Get c (Path item))
  else None.

(** The loop [for _, item := range items], from [items] on, with the
    counter [flushed] (a Go [int]; it never exceeds [len(items)]);
    [break] returns.  The error of [q.Remove] is dropped in the first
    two arms and only printed in the third. *)
Fixpoint flush_loop (q : Queue) (items : list QueuedRequest)
    (flushed : nat) (fs : FS) (c : Client) : nat * FS * Client :=
  match items with
  | [] => (flushed, fs, c)
  | item :: rest =>
      match dispatch c item with
      | None =>
          let '(_, fs') := Remove q (ID item) fs in
          flush_loop q rest flushed fs' c
      | Some (Some respErr, c') =>
          if api.IsNetworkError (Some respErr) then (flushed, fs, c')
          else
            let '(_, fs') := Remove q (ID item) fs in
            flush_loop q rest flushed fs' c'
      | Some (None, c') =>
          let '(_, fs') := Remove q (ID item) fs in
          flush_loop q rest (S flushed) fs' c'
      end
  end.

(** [Flush] *)
Definition Flush (q : Queue) (fs : FS) (c : Client)
    : (nat * option error) * FS * Client :=
  match List q fs with
  | inl err =>
      ((0%nat, Some (ErrMsg ("failed to load queue: " ++ Error err))), fs, c)
  | inr items =>
      if (length items =? 0)%nat then ((0%nat, None), fs, c)
      else
        let '(flushed, fs', c') := flush_loop q items 0 fs c in
        ((flushed, None), fs', c')
  end.

End Flush.
End queue.

(** ** The claims' vocabulary *)

Section Vocabulary.
Context `{Platform}.

(** The directory and the file of a queue can be read and written. *)
Definition Healthy (name : string) (fs : FS) : Prop :=
  mkdir_ok fs = true /\
  match files fs !! name with
  | None => dir_writable fs = true
  | Some f => readable f = true /\ writable f = true
  end.

(** [q.Remove] for each identifier in turn, errors dropped, as the
    flusher calls it. *)
Definition removes (q : queue.Queue) (ids : list string) (fs : FS) : FS :=
  fold_left (fun fs id => snd (queue.Remove q id fs)) ids fs.

(** The entries whose identifier is none of [ids]. *)
Definition without (ids : list string) (items : list queue.QueuedRequest)
    : list queue.QueuedRequest :=
  List.filter
    (fun r => negb (existsb (fun id => String.eqb (queue.ID r) id) ids))
    items.

Section Transport.
Variable Client : Type.
Variable Post : Client -> string -> json -> option error * Client.
Variable Get : Client -> string -> option error * Client.

(** What replaying the entries one after the other gives: for each
    entry [None] when its method is not replayed, else the error of
    its call; and the transport afterwards. *)
Fixpoint replay_all (c : Client) (items : list queue.QueuedRequest)
    : list (option (option error)) * Client :=
  match items with
  | [] => ([], c)
  | item :: rest =>
      match queue.dispatch Client Post Get c item with
      | None =>
          let '(outs, c') := replay_all c rest in (None :: outs, c')
      | Some (r, c1) =>
          let '(outs, c') := replay_all c1 rest in (Some r :: outs, c')
      end
  end.

Definition transient (out : option (option error)) : bool :=
  match out with
  | Some (Some e) => api.IsNetworkError (Some e)
  | _ => false
  end.

Definition delivered (out : option (option error)) : bool :=
  match out with
  | Some None => true
  | _ => false
  end.

Definition count_delivered (outs : list (option (option error))) : nat :=
  length (List.filter delivered outs).

(** No replay of the list failed transiently. *)
Definition none_transient (outs : list (option (option error))) : bool :=
  forallb (fun out => negb (transient out)) outs.

End Transport.

(** One call of [Add] and the entry it appends. *)
Record AddCall := mkAddCall {
  now1 : Time;
  now2 : Time;
  method : string;
  target : string;
  body : GoValue
}.

Definition entry_of (a : AddCall) : queue.QueuedRequest :=
  queue.mkQueuedRequest (Sprintf_d (UnixNano (now1 a))) (method a) (target a)
    (match Marshal (body a) with inr v => v | inl _ => JNull end)
    (now2 a).

(** A sequence of [Add] calls: the errors they return and the file
    system afterwards. *)
Fixpoint add_all (q : queue.Queue) (calls : list AddCall) (fs : FS)
    : list (option error) * FS :=
  match calls with
  | [] => ([], fs)
  | a :: rest =>
      let '(err, fs1) :=
        queue.Add q (now1 a) (now2 a) (method a) (target a) (body a) fs in
      let '(errs, fs2) := add_all q rest fs1 in
      (err :: errs, fs2)
  end.

Definition acceptable (a : AddCall) : Prop :=
  body a <> Unencodable /\ is_Some (Time_format (now2 a)).

(** The flat JSON object a server sends for the credential [t]. *)
Definition sent (t : api.TokenResponse) : option json :=
  e ← Time_format (api.ExpiresAt t);
  Some (JObj [("workspace_token", JStr (api.WorkspaceToken t));
              ("token_type", JStr (api.TokenType t));
              ("expires_at", JStr e);
              ("workspace_id", JStr (api.WorkspaceID t));
              ("agent_id", JStr (api.AgentID t))]).

(** The scheduler waits no longer than a [Duration] can hold. *)
Definition fits (ev : auth.Event) : Prop :=
  match ev with
  | auth.Evaluated now token =>
      auth.ExpiresAt token - 4 * Hour - now <= maxDuration
  | _ => True
  end.

(** A refresh is not invoked before four hours ahead of the expiry. *)
Definition on_time (ev : auth.Event) : Prop :=
  match ev with
  | auth.Refreshed called token => auth.ExpiresAt token - 4 * Hour <= called
  | _ => True
  end.

(** An entry whose timestamp [Time.MarshalJSON] accepts. *)
Definition formattable (r : queue.QueuedRequest) : Prop :=
  is_Some (Time_format (queue.QueuedAt r)).

End Vocabulary.

(** ** A platform to run the model on

    Documents are kept unrendered ([None] is a file that is not JSON),
    and a time is written as its sign and binary digits.  The transport
    is scripted: each call answers with the next error of the script,
    and with success once the script is used up. *)
Module Sim.

Fixpoint bits (p : positive) : string :=
  match p with
  | xH => EmptyString
  | xO p' => String "0" (bits p')
  | xI p' => String "1" (bits p')
  end.

Fixpoint unbits (s : string) : option positive :=
  match s with
  | EmptyString => Some xH
  | String c r =>
      match unbits r with
      | None => None
      | Some p =>
          if Ascii.eqb c "0" then Some (xO p)
          else if Ascii.eqb c "1" then Some (xI p)
          else None
      end
  end.

Definition format (t : Time) : option string :=
  Some match t with
       | Z0 => "="
       | Zpos p => String "+" (bits p)
       | Zneg p => String "-" (bits p)
       end.

Definition parse (s : string) : option Time :=
  match s with
  | EmptyString => None
  | String c r =>
      if Ascii.eqb c "=" then
        match r with EmptyString => Some Z0 | _ => None end
      else if Ascii.eqb c "+" then Zpos <$> unbits r
      else if Ascii.eqb c "-" then Zneg <$> unbits r
      else None
  end.

Definition Script := list (option error).

Definition answer (c : Script) : option error * Script :=
  match c with
  | [] => (None, [])
  | r :: c' => (r, c')
  end.

Definition Post (c : Script) (path : string) (body : json) := answer c.
Definition Get (c : Script) (path : string) := answer c.

End Sim.

(** *** The simulated platform is a platform *)

Lemma Sim_unbits_bits (p : positive) : Sim.unbits (Sim.bits p) = Some p.
Proof. induction p as [p IH|p IH|]; simpl; rewrite ?IH; reflexivity. Qed.

Lemma Sim_parse_format (t : Time) (s : string) :
  Sim.format t = Some s -> Sim.parse s = Some t.
Proof.
  intros [= <-]. destruct t as [|p|p]; simpl; [reflexivity | |];
    now rewrite Sim_unbits_bits.
Qed.

Lemma Sim_format_total (t : Time) : is_Some (Sim.format t).
Proof. unfold Sim.format. eauto. Qed.

Definition Sim_platform : Platform := {|
  bytes := option json;
  json_parse := fun d => d;
  json_render := Some;
  json_parse_render := fun v => eq_refl;
  Time_format := Sim.format;
  Time_parse := Sim.parse;
  Time_parse_format := Sim_parse_format;
  Time_format_parse := fun _ t _ => Sim_format_total t;
  Time_format_zero := Sim_format_total zeroTime;
  text := fun _ => "";
  UserHomeDir := Some "/home/agent"
|}.

(** *** A scenario *)

Definition Sim_queue : queue.Queue := @queue.New Sim_platform.
Definition Sim_store : auth.TokenStore := @auth.NewTokenStore Sim_platform.

(** The directory [~/.dea] with nothing in it. *)
Definition Sim_empty : @FS Sim_platform := @mkFS Sim_platform ∅ true true.

Definition Sim_r1 : queue.QueuedRequest :=
  queue.mkQueuedRequest "1" "POST" "/cards/7/claim"
    (JObj [("agent_id", JStr "a1")]) 100.
Definition Sim_r2 : queue.QueuedRequest :=
  queue.mkQueuedRequest "2" "POST" "/signals" JNull 200.
Definition Sim_r3 : queue.QueuedRequest :=
  queue.mkQueuedRequest "3" "GET" "/cards" JNull 300.

(** A healthy file system whose queue holds [items]. *)
Definition Sim_queued (items : list queue.QueuedRequest) : @FS Sim_platform :=
  snd (@queue.save Sim_platform Sim_queue items Sim_empty).

(** The same with the queue file read-only. *)
Definition Sim_readonly (items : list queue.QueuedRequest) : @FS Sim_platform :=
  @mkFS Sim_platform
    ((fun f => @File Sim_platform (data f) (readable f) false)
       <$> files (Sim_queued items))
    true true.

(** A queue file whose second element is not an entry. *)
Definition Sim_damaged : @FS Sim_platform :=
  @mkFS Sim_platform
    {[ queue.path Sim_queue :=
         @File Sim_platform
           (Some (JArr [JObj [("id", JStr "1"); ("method", JStr "POST");
                             ("path", JStr "/cards/7/claim"); ("body", JNull);
                             ("queued_at", JStr "+001001")];
                        JNum "5"]))
           true true ]}
    true true.

Definition Sim_404 : error := ErrMsg "API error 404: card not found".
Definition Sim_offline : error :=
  ErrMsg "network error: dial tcp 10.0.0.1:443: connect: connection refused".
Definition Sim_reset : error :=
  ErrMsg "failed to read response: read tcp 10.0.0.1:443: Connection reset by peer".

Definition Sim_a1 : AddCall :=
  mkAddCall 1000 1001 "POST" "/signals" (Encodable (JObj [("signal_type", JStr "friction")])).
Definition Sim_a2 : AddCall :=
  mkAddCall 1000 1002 "POST" "/cards/7/transition" Nil.
Definition Sim_a3 : AddCall :=
  mkAddCall 2000 2001 "POST" "/cards/7/transition" Nil.

Definition Sim_token : auth.TokenData :=
  auth.mkTokenData "jwt-1" "bearer" (24 * Hour) "ws-1" "agent-1"
    "https://example.test/functions/v1".

(** A refresh function that always answers with a credential good for
    another 24 hours, and operations that take one nanosecond each. *)
Definition Sim_refresh (i : nat) (tok : string)
    : option auth.TokenData * option error :=
  (Some (auth.mkTokenData (tok ++ "+") "bearer" (48 * Hour) "ws-1" "agent-1"
           "https://example.test/functions/v1"),
   None).
Definition Sim_elapsed (i : nat) : Duration := 1.

Definition Sim_world : @auth.World Sim_platform :=
  @auth.mkWorld Sim_platform
    (snd (@auth.Save Sim_platform Sim_store (Some Sim_token) Sim_empty)) 0 0.

(** A response in the flat shape. *)
Definition Sim_flat : list (string * json) :=
  [("workspace_token", JStr "jwt-1"); ("token_type", JStr "bearer");
   ("expires_at", JStr "+001001"); ("workspace_id", JStr "ws-1");
   ("agent_id", JStr "agent-1")].

(** ** Package api, client.go: the authenticated calls

    The network is a state machine: [Do] is [httpClient.Do] followed by
    [io.ReadAll] of the response body (the [ReadAll] field of the
    response), [NewRequest] the error of [http.NewRequest] for a method
    and a URL.  The body of a request is kept as the document that
    [json.Marshal] wrote.  [TokenProvider], the interface with the one
    method [GetToken], is that method. *)
Module client.

Record Request := mkRequest {
  Method : string;
  URL : string;
  Authorization : option string;
  ContentType : option string;
  Body : option json
}.

(** [ErrUnauthorized] and [ErrRateLimited] *)
Definition ErrUnauthorized : error := ErrMsg "token expired. Run `dea auth refresh`".
Definition ErrRateLimited : error := ErrMsg "rate limited. Wait and retry".

(** An int64 product or sum, wrapped around. *)
Definition wrap64 (z : Z) : Z := (z + 2 ^ 63) mod 2 ^ 64 - 2 ^ 63.

Definition Second : Duration := 1000000000.

Section client.
Context `{Platform}.
Variable Net : Type.
Variable NewRequest : string -> string -> option error.
Variable Do : Net -> Request -> (error + api.Response) * Net.

Record Client := mkClient {
  baseURL : string;
  Timeout : Duration;
  tokens : FS -> string
}.

(** [NewClient] *)
Definition NewClient (baseURL : string) (timeoutSeconds : Z)
    (tokens : FS -> string) : Client :=
  mkClient baseURL (wrap64 (timeoutSeconds * Second)) tokens.

(** [do] *)
Definition do (c : Client) (method path : string) (body : option json)
    (fs : FS) (net : Net) : (error + bytes) * Net :=
  let token := tokens c fs in
  if String.eqb token "" then
    (inl (ErrMsg "not authenticated. Run `dea auth login`"), net)
  else
    let url := baseURL c ++ path in
    match NewRequest method url with
    | Some err => (inl (ErrMsg ("failed to create request: " ++ Error err)), net)
    | None =>
        let req :=
          mkRequest method url (Some ("Bearer " ++ token))
            (match body with Some _ => Some "application/json" | None => None end)
            body in
        match Do net req with
        | (inl err, net') =>
            (inl (ErrMsg ("network error: " ++ Error err)), net')
        | (inr resp, net') =>
            match api.ReadAll resp with
            | inl err =>
                (inl (ErrMsg ("failed to read response: " ++ Error err)), net')
            | inr respBody =>
                let code := api.StatusCode resp in
                if code =? 401 then (inl ErrUnauthorized, net')
                else if code =? 429 then (inl ErrRateLimited, net')
                else if (code =? 200) || (code =? 201) || (code =? 202) || (code =? 204)
                then (inr respBody, net')
                else (inl (ErrMsg ("API error " ++ Sprintf_d code ++ ": "
                                   ++ text respBody)), net')
            end
        end
    end.

(** [Get] *)
Definition Get (c : Client) (path : string) (fs : FS) (net : Net)
    : (error + bytes) * Net :=
  do c "GET" path None fs net.

(** [Post] *)
Definition Post (c : Client) (path : string) (body : GoValue) (fs : FS) (net : Net)
    : (error + bytes) * Net :=
  match Marshal body with
  | inl err =>
      (inl (ErrMsg ("failed to marshal request body: " ++ Error err)), net)
  | inr d => do c "POST" path (Some d) fs net
  end.

(** [RefreshToken], with its round trip: the request it sends and
    [api.RefreshToken] on what comes back. *)
Definition RefreshToken (c : Client) (currentToken : string) (net : Net)
    : (error + api.TokenResponse) * Net :=
  let url := baseURL c ++ "/token-service/refresh" in
  match NewRequest "POST" url with
  | Some err => (inl err, net)
  | None =>
      let req :=
        mkRequest "POST" url (Some ("Bearer " ++ currentToken))
          (Some "application/json")
          (Some (JObj [("token", JStr currentToken)])) in
      let '(resp, net') := Do net req in
      (api.RefreshToken resp, net')
  end.

(** The calls of [Flush] on this client, for a queue entry: [Post] of
    the stored raw body, [Get], and the error alone.  [Flush] writes the
    queue file only; the file system the token is read from is [fs]. *)
Definition flush_Post (c : Client) (fs : FS) (net : Net) (path : string)
    (body : json) : option error * Net :=
  match Post c path (Encodable body) fs net with
  | (inl err, net') => (Some err, net')
  | (inr _, net') => (None, net')
  end.

Definition flush_Get (c : Client) (fs : FS) (net : Net) (path : string)
    : option error * Net :=
  match Get c path fs net with
  | (inl err, net') => (Some err, net')
  | (inr _, net') => (None, net')
  end.

(** [queue.Flush] on this client.  The loop is that of
    [queue.flush_loop]; each replay reads the credential from the file
    system as the removals before it have left it. *)
Fixpoint flush_loop (c : Client) (q : queue.Queue)
    (items : list queue.QueuedRequest) (flushed : nat) (fs : FS) (net : Net)
    : nat * FS * Net :=
  match items with
  | [] => (flushed, fs, net)
  | item :: rest =>
      match queue.dispatch Net (flush_Post c fs) (flush_Get c fs) net item with
      | None =>
          let '(_, fs') := queue.Remove q (queue.ID item) fs in
          flush_loop c q rest flushed fs' net
      | Some (Some respErr, net') =>
          if api.IsNetworkError (Some respErr) then (flushed, fs, net')
          else
            let '(_, fs') := queue.Remove q (queue.ID item) fs in
            flush_loop c q rest flushed fs' net'
      | Some (None, net') =>
          let '(_, fs') := queue.Remove q (queue.ID item) fs in
          flush_loop c q rest (S flushed) fs' net'
      end
  end.

Definition Flush (c : Client) (q : queue.Queue) (fs : FS) (net : Net)
    : (nat * option error) * FS * Net :=
  match queue.List q fs with
  | inl err =>
      ((0%nat, Some (ErrMsg ("failed to load queue: " ++ Error err))), fs, net)
  | inr items =>
      if (length items =? 0)%nat then ((0%nat, None), fs, net)
      else
        let '(flushed, fs', net') := flush_loop c q items 0 fs net in
        ((flushed, None), fs', net')
  end.

End client.
End client.

(** ** Package commands: callers of the client and the queue *)

(** How a command ends: [os.Exit], or the error [RunE] returns. *)
Inductive Outcome :=
  | Exit (code : Z)
  | Return (err : option error).

(** What a command writes, without the newline that ends it. *)
Inductive Line :=
  | Stdout (s : string)
  | Stderr (s : string).

Module root.

(** [PathSignals] and [CardTransitionPath] of endpoints.go *)
Definition PathCards : string := "/workspace-api/api/cards".
Definition PathSignals : string := "/workspace-api/api/signals".
Definition CardTransitionPath (cardID : string) : string :=
  PathCards ++ "/" ++ cardID ++ "/transition".

Definition validSignalTypes : list string :=
  ["discovery"; "correction"; "friction"; "pattern"].

(** [isValidSignalType] *)
Definition isValidSignalType (t : string) : bool :=
  existsb (fun valid => String.eqb t valid) validSignalTypes.

(** [strings.Join(elems, sep)] *)
Fixpoint Join (elems : list string) (sep : string) : string :=
  match elems with
  | [] => ""
  | [e] => e
  | e :: rest => e ++ sep ++ Join rest sep
  end.

(** [isGovernanceRejection] of transition.go *)
Definition isGovernanceRejection (errMsg : string) : bool :=
  existsb (fun keyword => commands.containsIgnoreCase errMsg keyword)
    ["governance"; "rejected"; "forbidden"; "not allowed"; "policy"].

(** The value of a key in a [map[string]interface{}] decoded from the
    members of an object: the last member with the key. *)
Fixpoint lookup_last (key : string) (ms : list (string * json)) : option json :=
  match ms with
  | [] => None
  | (k, v) :: rest =>
      match lookup_last key rest with
      | Some v' => Some v'
      | None => if String.eqb k key then Some v else None
      end
  end.

(** [resp["message"].(string)] after [json.Unmarshal(data, &resp)]
    returned no error, for the document [v] of [data]: an object and
    [null] decode, anything else is an error. *)
Definition message (v : json) : option string :=
  match v with
  | JObj ms =>
      match lookup_last "message" ms with
      | Some (JStr s) => Some s
      | _ => None
      end
  | _ => None
  end.

Section root.
Context `{Platform}.
Variable Net : Type.
Variable NewRequest : string -> string -> option error.
Variable Do : Net -> client.Request -> (error + api.Response) * Net.
(** [strconv.Quote], the [%q] of [fmt]; [len] of a byte slice; and
    [t.UTC().Format("2006-01-02 15:04:05 UTC")] *)
Variable Quote : string -> string.
Variable len : bytes -> nat.
Variable FormatUTC : Time -> string.

(** The shared instances of [initGlobals]. *)
Record Globals := mkGlobals {
  tokenStore : auth.TokenStore;
  apiClient : client.Client;
  offQueue : queue.Queue
}.

(** [initGlobals], for the endpoint and the timeout of the loaded
    configuration: the instances it builds.  The goroutine it starts
    is [auth.run]. *)
Definition initGlobals (endpoint : string) (timeoutSeconds : Z) : Globals :=
  mkGlobals auth.NewTokenStore
    (client.NewClient endpoint timeoutSeconds (auth.GetToken auth.NewTokenStore))
    queue.New.

Definition queued_offline : string :=
  "Queued offline. Will flush on next connection.".

(** [mustLoadToken]: what it writes before [os.Exit(1)]. *)
Definition not_logged_in : list Line :=
  [Stderr "Not authenticated. Run `dea auth login`."].

(** [apiPost].  [now1] and [now2] are the clock readings of the [Add]
    it may call. *)
Definition apiPost (g : Globals) (now1 now2 : Time) (path : string)
    (body : GoValue) (fs : FS) (net : Net)
    : (error + bytes) * list Line * FS * Net :=
  match client.Post Net NewRequest Do (apiClient g) path body fs net with
  | (inl err, net') =>
      if api.IsNetworkError (Some err) then
        match queue.Add (offQueue g) now1 now2 "POST" path body fs with
        | (Some qErr, fs') =>
            (inl err,
             [Stderr ("failed to queue request: " ++ Error qErr)], fs', net')
        | (None, fs') => (inl err, [Stdout queued_offline], fs', net')
        end
      else (inl err, [], fs, net')
  | (inr resp, net') => (inr resp, [], fs, net')
  end.

(** The body of the [signal] command: [map[string]interface{}] with the
    one key [signals]; the keys of a map are marshalled in order. *)
Definition signal_body (cardID signalType content : string) : json :=
  JObj [("signals",
         JArr [JObj [("card_id", JStr cardID);
                     ("content", JStr content);
                     ("signal_type", JStr signalType)]])].

(** [RunE] of the [signal] command. *)
Definition signal (g : Globals) (now1 now2 : Time)
    (cardID signalType content : string) (fs : FS) (net : Net)
    : Outcome * list Line * FS * Net :=
  match auth.Load (tokenStore g) fs with
  | None => (Exit 1, not_logged_in, fs, net)
  | Some _ =>
      if String.eqb cardID "" then
        (Return (Some (ErrMsg "--card is required")), [], fs, net)
      else if String.eqb signalType "" then
        (Return (Some (ErrMsg "--type is required")), [], fs, net)
      else if String.eqb content "" then
        (Return (Some (ErrMsg "--content is required")), [], fs, net)
      else if negb (isValidSignalType signalType) then
        (Return (Some (ErrMsg ("invalid signal type " ++ Quote signalType
                               ++ ". Valid types: "
                               ++ Join validSignalTypes ", "))), [], fs, net)
      else
        let body := Encodable (signal_body cardID signalType content) in
        match client.Post Net NewRequest Do (apiClient g) PathSignals body fs net with
        | (inl err, net') =>
            if commands.isNetworkErr (Some err) then
              match queue.Add (offQueue g) now1 now2 "POST" PathSignals body fs with
              | (None, fs') => (Return None, [Stdout queued_offline], fs', net')
              | (Some _, fs') => (Return None, [], fs', net')
              end
            else
              (Return (Some (ErrMsg ("failed to emit signal: " ++ Error err))),
               [], fs, net')
        | (inr _, net') =>
            (Return None,
             [Stdout ("Signal emitted: [" ++ signalType ++ "] on card " ++ cardID)],
             fs, net')
        end
  end.

(** The body of the [transition] command: the stage under the name
    the service has for it. *)
Definition transition_body (stage : string) : json :=
  let lane := if String.eqb stage "in-progress" then "in_progress" else stage in
  JObj [("target_lane", JStr lane)].

(** [RunE] of the [transition] command; it writes no file. *)
Definition transition (g : Globals) (cardID stage : string) (fs : FS) (net : Net)
    : Outcome * list Line * Net :=
  match auth.Load (tokenStore g) fs with
  | None => (Exit 1, not_logged_in, net)
  | Some _ =>
      let body := Encodable (transition_body stage) in
      match client.Post Net NewRequest Do (apiClient g)
              (CardTransitionPath cardID) body fs net with
      | (inl err, net') =>
          if commands.isNetworkErr (Some err) then (Return (Some err), [], net')
          else if isGovernanceRejection (Error err) then
            (Return None,
             [Stdout ("Governance rejection: transition to " ++ Quote stage
                      ++ " denied for card " ++ cardID ++ ".");
              Stdout ("Reason: " ++ Error err)],
             net')
          else
            (Return (Some (ErrMsg ("failed to transition card " ++ cardID
                                   ++ ": " ++ Error err))), [], net')
      | (inr data, net') =>
          let msg :=
            if (0 <? len data)%nat then
              match json_parse data with
              | Some v => message v
              | None => None
              end
            else None in
          match msg with
          | Some msg => (Return None, [Stdout msg], net')
          | None =>
              (Return None,
               [Stdout ("Card " ++ cardID ++ " transitioned to " ++ stage ++ ".")],
               net')
          end
      end
  end.

(** [RunE] of [auth refresh] *)
Definition auth_refresh (g : Globals) (fs : FS) (net : Net)
    : option error * list Line * FS * Net :=
  match auth.Load (tokenStore g) fs with
  | None =>
      (Some (ErrMsg "not authenticated. Run `dea auth login`"), [], fs, net)
  | Some token =>
      match client.RefreshToken Net NewRequest Do (apiClient g)
              (auth.WorkspaceToken token) net with
      | (inl err, net') =>
          (Some (ErrMsg ("refresh failed: " ++ Error err)), [], fs, net')
      | (inr tokenResp, net') =>
          let newToken :=
            auth.mkTokenData (api.WorkspaceToken tokenResp)
              (api.TokenType tokenResp) (api.ExpiresAt tokenResp)
              (api.WorkspaceID tokenResp) (api.AgentID tokenResp)
              (auth.Endpoint token) in
          match auth.Save (tokenStore g) (Some newToken) fs with
          | (Some err, fs') =>
              (Some (ErrMsg ("failed to save refreshed token: " ++ Error err)),
               [], fs', net')
          | (None, fs') =>
              (None,
               [Stdout ("Token refreshed. New expiry: "
                        ++ FormatUTC (auth.ExpiresAt newToken))],
               fs', net')
          end
      end
  end.

End root.
End root.

(** ** More vocabulary *)

(** What [do] returns when the token store has no credential. *)
Definition not_authenticated : error :=
  ErrMsg "not authenticated. Run `dea auth login`".

(** The request [do] hands to the transport for a call. *)
Definition request_of `{Platform} (c : client.Client) (method path : string)
    (body : option json) (fs : FS) : client.Request :=
  client.mkRequest method (client.baseURL c ++ path)
    (Some ("Bearer " ++ client.tokens c fs))
    (match body with Some _ => Some "application/json" | None => None end)
    body.

(** The keywords of [isGovernanceRejection]. *)
Definition governance_keywords : list string :=
  ["governance"; "rejected"; "forbidden"; "not allowed"; "policy"].

(** The credential [auth refresh] and the refresh bridge build from a
    response [t], keeping the endpoint of the stored credential. *)
Definition refreshed (old : auth.TokenData) (t : api.TokenResponse)
    : auth.TokenData :=
  auth.mkTokenData (api.WorkspaceToken t) (api.TokenType t) (api.ExpiresAt t)
    (api.WorkspaceID t) (api.AgentID t) (auth.Endpoint old).

(** ** A network to run the commands on

    The network is scripted: each request is answered with the next
    entry of the script, and refused once the script is used up. *)
Definition Sim_Net : Type := list (error + @api.Response Sim_platform).

Definition Sim_NewRequest (method url : string) : option error := None.

Definition Sim_refused : error :=
  ErrMsg "dial tcp 10.0.0.1:443: connect: connection refused".

Definition Sim_Do (net : Sim_Net) (req : client.Request)
    : (error + @api.Response Sim_platform) * Sim_Net :=
  match net with
  | [] => (inl Sim_refused, [])
  | r :: rest => (r, rest)
  end.

(** A service that answers every request with 429. *)
Definition Sim_Do_limited (net : Sim_Net) (req : client.Request)
    : (error + @api.Response Sim_platform) * Sim_Net :=
  (inr (@api.mkResponse Sim_platform 429 (inr (Some JNull))), net).

Definition Sim_answer (code : Z) (v : json) : error + @api.Response Sim_platform :=
  inr (@api.mkResponse Sim_platform code (inr (Some v))).

Definition Sim_Quote (s : string) : string :=
  String (ascii_of_nat 34) (s ++ String (ascii_of_nat 34) "").
Definition Sim_len (d : option json) : nat := 1.
Definition Sim_FormatUTC (t : Time) : string := Sprintf_d t.

Definition Sim_endpoint : string := "https://example.test/functions/v1".

Definition Sim_client : @client.Client Sim_platform :=
  @client.NewClient Sim_platform Sim_endpoint 30
    (@auth.GetToken Sim_platform Sim_store).

Definition Sim_globals : @root.Globals Sim_platform :=
  @root.initGlobals Sim_platform Sim_endpoint 30.

(** The directory [~/.dea] with the credential [Sim_token] in it, and
    the same with a queue of [items]. *)
Definition Sim_logged_in : @FS Sim_platform :=
  snd (@auth.Save Sim_platform Sim_store (Some Sim_token) Sim_empty).

Definition Sim_logged_in_queued (items : list queue.QueuedRequest)
    : @FS Sim_platform :=
  snd (@queue.save Sim_platform Sim_queue items Sim_logged_in).


(** A credential the service issues, and its document. *)
Definition Sim_fresh : api.TokenResponse :=
  api.mkTokenResponse "jwt-2" "bearer" (48 * Hour) "ws-1" "agent-1".

Definition Sim_fresh_doc : json :=
  match @sent Sim_platform Sim_fresh with
  | Some v => v
  | None => JNull
  end.

(** A refresh function that finds the service offline. *)
Definition Sim_refresh_down (i : nat) (tok : string)
    : option auth.TokenData * option error :=
  (None, Some Sim_offline).

(** The simulated platform with responses that are text: the text of
    a document that is a string is the string. *)
Definition Sim_text (d : option json) : string :=
  match d with
  | Some (JStr s) => s
  | _ => ""
  end.

Definition Sim_text_platform : Platform := {|
  bytes := option json;
  json_parse := fun d => d;
  json_render := Some;
  json_parse_render := fun v => eq_refl;
  Time_format := Sim.format;
  Time_parse := Sim.parse;
  Time_parse_format := Sim_parse_format;
  Time_format_parse := fun _ t _ => Sim_format_total t;
  Time_format_zero := Sim_format_total zeroTime;
  text := Sim_text;
  UserHomeDir := Some "/home/agent"
|}.

Definition Sim_text_Net : Type := list (error + @api.Response Sim_text_platform).

Definition Sim_text_Do (net : Sim_text_Net) (req : client.Request)
    : (error + @api.Response Sim_text_platform) * Sim_text_Net :=
  match net with
  | [] => (inl Sim_refused, [])
  | r :: rest => (r, rest)
  end.

Definition Sim_text_logged_in : @FS Sim_text_platform :=
  snd (@auth.Save Sim_text_platform (@auth.NewTokenStore Sim_text_platform)
         (Some Sim_token) (@mkFS Sim_text_platform ∅ true true)).

(** * Facts *)

(** ** Byte strings *)

Local Arguments String.append !_ _ / : simpl nomatch.

Lemma length_append (s t : string) :
  String.length (s ++ t) = (String.length s + String.length t)%nat.
Proof. induction s as [|a s IH]; simpl; [reflexivity | now rewrite IH]. Qed.

Lemma append_assoc (s t u : string) : (s ++ t) ++ u = s ++ t ++ u.
Proof. induction s as [|a s IH]; simpl; [reflexivity | now rewrite IH]. Qed.

Lemma append_nil_r (s : string) : s ++ "" = s.
Proof. induction s as [|a s IH]; simpl; [reflexivity | now rewrite IH]. Qed.

Lemma substring_0_app (sub post : string) :
  String.substring 0 (String.length sub) (sub ++ post) = sub.
Proof.
  induction sub as [|a sub IH]; simpl.
  - destruct post; reflexivity.
  - now rewrite IH.
Qed.

(** The slice [s[len(pre) : len(pre)+len(sub)]] of [pre ++ sub ++ post]. *)
Lemma substring_middle (pre sub post : string) :
  String.substring (String.length pre) (String.length sub) (pre ++ sub ++ post) = sub.
Proof.
  induction pre as [|a pre IH]; simpl.
  - apply substring_0_app.
  - exact IH.
Qed.

Lemma substring_0_split (n : nat) (s : string) :
  (n <= String.length s)%nat ->
  exists post, s = String.substring 0 n s ++ post.
Proof.
  revert s; induction n as [|n IH]; intros s Hn.
  - exists s. destruct s; reflexivity.
  - destruct s as [|a s]; simpl in Hn; [lia |].
    destruct (IH s ltac:(lia)) as [post Hpost].
    exists post. simpl. now rewrite <- Hpost.
Qed.

(** A slice that lies inside [s] cuts [s] in three. *)
Lemma substring_split (i n : nat) (s : string) :
  (i + n <= String.length s)%nat ->
  exists pre post,
    s = pre ++ String.substring i n s ++ post /\ String.length pre = i.
Proof.
  revert s; induction i as [|i IH]; intros s Hn.
  - destruct (substring_0_split n s ltac:(lia)) as [post Hpost].
    exists "", post. split; [exact Hpost | reflexivity].
  - destruct s as [|a s]; simpl in Hn; [lia |].
    destruct (IH s ltac:(lia)) as (pre & post & Hs & Hlen).
    exists (String a pre), post. simpl. split; [now rewrite <- Hs | now rewrite Hlen].
Qed.

Lemma length_substring (i n : nat) (s : string) :
  (i + n <= String.length s)%nat -> String.length (String.substring i n s) = n.
Proof.
  revert i n; induction s as [|a s IH]; intros i n Hn; simpl in Hn.
  - assert (i = 0 /\ n = 0)%nat as [-> ->] by lia. reflexivity.
  - destruct i as [|i]; simpl.
    + destruct n as [|n]; simpl; [reflexivity |].
      now rewrite (IH 0%nat n) by lia.
    + apply IH. lia.
Qed.

(** The search loop shared by the two classifiers finds exactly the
    occurrences. *)
Lemma search_loop_spec (s sub : string) :
  ((if (String.length s <? String.length sub)%nat then false
    else existsb
           (fun i => String.eqb (String.substring i (String.length sub) s) sub)
           (seq 0 (String.length s - String.length sub + 1)%nat)) = true)
  <-> Contains s sub.
Proof.
  split.
  - destruct (Nat.ltb_spec (String.length s) (String.length sub)) as [Hlt|Hge];
      [discriminate |].
    intros Hex. apply existsb_exists in Hex as (i & Hi & Heq).
    apply in_seq in Hi. apply String.eqb_eq in Heq.
    destruct (substring_split i (String.length sub) s ltac:(lia))
      as (pre & post & Hs & _).
    exists pre, post. now rewrite Heq in Hs.
  - intros (pre & post & ->).
    rewrite !length_append.
    destruct (Nat.ltb_spec (String.length pre + (String.length sub + String.length post))
                (String.length sub)) as [Hlt|Hge]; [lia |].
    apply existsb_exists. exists (String.length pre). split.
    + apply in_seq. lia.
    + rewrite substring_middle. apply String.eqb_refl.
Qed.

Lemma containsStr_spec (s sub : string) :
  api.containsStr s sub = true <-> Contains s sub.
Proof. apply search_loop_spec. Qed.

(** *** Case folding *)

Lemma length_toLower (s : string) :
  String.length (commands.toLower s) = String.length s.
Proof. induction s as [|a s IH]; simpl; [reflexivity | now rewrite IH]. Qed.

Lemma toLower_append (s t : string) :
  commands.toLower (s ++ t) = commands.toLower s ++ commands.toLower t.
Proof. induction s as [|a s IH]; simpl; [reflexivity | now rewrite IH]. Qed.

Lemma toLower_split (s a b : string) :
  commands.toLower s = a ++ b ->
  exists x y, s = x ++ y /\ commands.toLower x = a /\ commands.toLower y = b.
Proof.
  revert s; induction a as [|c a IH]; intros s Hs.
  - exists "", s. repeat split; assumption.
  - destruct s as [|d s]; simpl in Hs; [discriminate |].
    injection Hs as Hc Hs.
    destruct (IH s Hs) as (x & y & -> & Hx & Hy).
    exists (String d x), y. simpl. now rewrite Hc, Hx.
Qed.

Lemma lower_byte_same_letter (a b : ascii) :
  commands.lower_byte a = commands.lower_byte b <-> same_letter a b.
Proof.
  unfold commands.lower_byte, same_letter, is_upper.
  pose proof (nat_ascii_bounded a) as Ha.
  pose proof (nat_ascii_bounded b) as Hb.
  assert (Hinj : forall x y : ascii, nat_of_ascii x = nat_of_ascii y -> x = y).
  { intros x y Hxy. rewrite <- (ascii_nat_embedding x), <- (ascii_nat_embedding y).
    now rewrite Hxy. }
  destruct (Nat.leb_spec 65 (nat_of_ascii a)), (Nat.leb_spec (nat_of_ascii a) 90),
    (Nat.leb_spec 65 (nat_of_ascii b)), (Nat.leb_spec (nat_of_ascii b) 90);
    simpl; split; intros Hyp;
    try (apply (f_equal nat_of_ascii) in Hyp;
         rewrite ?nat_ascii_embedding in Hyp by lia);
    try (destruct Hyp as [Hyp | [[? Hyp] | [? Hyp]]];
         try (apply (f_equal nat_of_ascii) in Hyp));
    try lia;
    try (left; apply Hinj; lia);
    try (right; left; lia);
    try (right; right; lia);
    try (apply Hinj; rewrite ?nat_ascii_embedding by lia; lia).
Qed.

Lemma toLower_EqFold (s t : string) :
  commands.toLower s = commands.toLower t <-> EqFold s t.
Proof.
  split.
  - revert t; induction s as [|a s IH]; intros [|b t] Hst; simpl in Hst;
      try discriminate.
    + constructor.
    + injection Hst as Hab Hst. constructor.
      * now apply lower_byte_same_letter.
      * now apply IH.
  - induction 1 as [|a b s t Hab _ IH]; simpl; [reflexivity |].
    apply lower_byte_same_letter in Hab. now rewrite Hab, IH.
Qed.

Lemma EqFold_length (s t : string) :
  EqFold s t -> String.length s = String.length t.
Proof. induction 1; simpl; [reflexivity | now f_equal]. Qed.

Lemma containsIgnoreCase_spec (s sub : string) :
  commands.containsIgnoreCase s sub = true <-> ContainsFold s sub.
Proof.
  unfold commands.containsIgnoreCase.
  rewrite <- (length_toLower s) at 1. rewrite <- (length_toLower sub) at 1.
  rewrite search_loop_spec. split.
  - intros (pre' & post' & Hs).
    apply toLower_split in Hs as (pre & rest & -> & _ & Hrest).
    apply toLower_split in Hrest as (mid & post & -> & Hmid & _).
    exists pre, mid, post. split; [reflexivity | now apply toLower_EqFold].
  - intros (pre & mid & post & -> & Hfold).
    apply toLower_EqFold in Hfold.
    exists (commands.toLower pre), (commands.toLower post).
    now rewrite !toLower_append, Hfold.
Qed.

(** The classifier of the command layer is the classification of
    section 4.3. *)
Lemma isNetworkErr_spec (err : option error) :
  commands.isNetworkErr err = true <-> spec_transient err.
Proof.
  destruct err as [e|]; [| simpl; split; [discriminate | tauto]].
  unfold commands.isNetworkErr, spec_transient. rewrite existsb_exists. split.
  - intros (kw & Hin & Hc). exists kw. split; [exact Hin |].
    now apply containsIgnoreCase_spec.
  - intros (kw & Hin & Hc). exists kw. split; [exact Hin |].
    now apply containsIgnoreCase_spec.
Qed.

(** The classifier of package api looks for its own keywords, in the
    casing they are written in. *)
Lemma IsNetworkError_spec (err : option error) :
  api.IsNetworkError err = true
  <-> exists e kw, err = Some e /\ In kw api.keywords /\ Contains (Error e) kw.
Proof.
  destruct err as [e|]; unfold api.IsNetworkError.
  - rewrite existsb_exists. split.
    + intros (kw & Hin & Hc). exists e, kw.
      repeat split; [exact Hin | now apply containsStr_spec].
    + intros (e' & kw & [= <-] & Hin & Hc). exists kw.
      split; [exact Hin | now apply containsStr_spec].
  - split; [discriminate | intros (e & kw & [=] & _)].
Qed.

Local Open Scope list_scope.

(** ** Documents and structs *)

(** Decides the comparisons of constant keys with the [json] tags. *)
Ltac eval_keys :=
  repeat match goal with
         | |- context [Json.key_is ?k ?n] =>
             let b := eval vm_compute in (Json.key_is k n) in
             change (Json.key_is k n) with b
         end.

Section Documents.
Context `{Platform}.

(** The queue's document of a list of entries reads back as the list. *)
Lemma queue_dec_document1 (r : queue.QueuedRequest) (v : json) :
  queue.document1 r = Some v ->
  Json.dec_struct queue.set_field v queue.zeroQueuedRequest = Some r.
Proof.
  destruct r as [id m p b t]. unfold queue.document1. simpl.
  destruct (Time_format t) as [s|] eqn:Ht; simpl; [| discriminate].
  intros [= <-]. apply Time_parse_format in Ht.
  simpl. unfold queue.set_field. eval_keys. simpl. now rewrite Ht.
Qed.

Lemma queue_dec_documents (items : list queue.QueuedRequest) (vs : list json) :
  queue.documents items = Some vs ->
  Json.dec_elems
    (fun e => Json.dec_struct queue.set_field e queue.zeroQueuedRequest) vs
  = Some items.
Proof.
  revert vs; induction items as [|r items IH]; intros vs; simpl.
  - now intros [= <-].
  - destruct (queue.document1 r) as [v|] eqn:Hv; [| discriminate].
    destruct (queue.documents items) as [vs'|]; [| discriminate].
    intros [= <-]. simpl.
    now rewrite (queue_dec_document1 r v Hv), (IH vs' eq_refl).
Qed.

Lemma queue_Unmarshal_MarshalIndent (items : list queue.QueuedRequest) (d : bytes) :
  queue.MarshalIndent items = inr d -> queue.Unmarshal d = inr items.
Proof.
  unfold queue.MarshalIndent, queue.Unmarshal.
  destruct (queue.documents items) as [vs|] eqn:Hvs; [| discriminate].
  intros [= <-]. rewrite json_parse_render. simpl.
  now rewrite (queue_dec_documents items vs Hvs).
Qed.

Lemma queue_documents_total (items : list queue.QueuedRequest) :
  Forall formattable items -> is_Some (queue.documents items).
Proof.
  induction 1 as [|r items [s Hr] _ [vs IH]]; simpl; [eauto |].
  unfold queue.document1. rewrite Hr, IH. simpl. eauto.
Qed.

Lemma queue_set_field_formattable k v r r' :
  formattable r -> queue.set_field k v r = Some r' -> formattable r'.
Proof.
  unfold queue.set_field, formattable. intros Hr Hset.
  repeat match type of Hset with
         | (if ?c then _ else _) = _ => destruct c
         | (_ ≫= _) = _ => apply bind_Some in Hset as (x & Hx & Hset)
         end;
    try (injection Hset as <-; simpl; try exact Hr).
  destruct v; simpl in Hx; try discriminate.
  - now injection Hx as <-.
  - eapply Time_format_parse; eassumption.
Qed.

Lemma queue_dec_members_formattable ms r r' :
  formattable r -> Json.dec_members queue.set_field ms r = Some r' ->
  formattable r'.
Proof.
  revert r; induction ms as [|[k v] ms IH]; intros r Hr; simpl.
  - now intros [= <-].
  - destruct (queue.set_field k v r) as [r1|] eqn:Hset; [| discriminate].
    apply IH. eapply queue_set_field_formattable; eassumption.
Qed.

(** Every entry read from the file can be written again. *)
Lemma queue_Unmarshal_formattable (d : bytes) (items : list queue.QueuedRequest) :
  queue.Unmarshal d = inr items -> Forall formattable items.
Proof.
  unfold queue.Unmarshal. destruct (json_parse d) as [v|]; [| discriminate].
  destruct (Json.dec_slice _ v) as [items'|] eqn:Hdec; [| discriminate].
  intros [= <-]. destruct v; simpl in Hdec; try discriminate.
  - injection Hdec as <-. constructor.
  - revert items' Hdec. induction elems as [|e elems IH]; intros items'; simpl.
    + intros [= <-]. constructor.
    + destruct (Json.dec_struct _ e _) as [r|] eqn:Hr; [| discriminate].
      destruct (Json.dec_elems _ elems) as [rs|]; [| discriminate].
      intros [= <-]. constructor; [| now apply IH].
      destruct e; simpl in Hr; try discriminate.
      * injection Hr as <-. exact Time_format_zero.
      * eapply queue_dec_members_formattable; [| exact Hr]. exact Time_format_zero.
Qed.

End Documents.

(** ** The queue file *)

Section QueueFile.
Context `{Platform}.
Implicit Types (q : queue.Queue) (fs : FS) (items cur : list queue.QueuedRequest).

Lemma load_formattable q fs items :
  queue.load q fs = inr items -> Forall formattable items.
Proof.
  unfold queue.load. destruct (ReadFile _ fs) as [err|d].
  - destruct (IsNotExist _); [| discriminate]. intros [= <-]. constructor.
  - destruct (queue.Unmarshal d) as [err|items'] eqn:Hd; [discriminate |].
    intros [= <-]. now apply queue_Unmarshal_formattable in Hd.
Qed.

Lemma filter_formattable (f : queue.QueuedRequest -> bool) items :
  Forall formattable items -> Forall formattable (List.filter f items).
Proof.
  induction 1 as [|r items Hr _ IH]; simpl; [constructor |].
  destruct (f r); [constructor |]; assumption.
Qed.

(** A failed write leaves the file system as it was. *)
Lemma WriteFile_error name d fs e fs' :
  WriteFile name d fs = (Some e, fs') -> fs' = fs.
Proof.
  unfold WriteFile. destruct (files fs !! name) as [f|].
  - destruct (writable f); now intros [=].
  - destruct (dir_writable fs); now intros [=].
Qed.

Lemma save_error q items fs e fs' :
  queue.save q items fs = (Some e, fs') -> fs' = fs.
Proof.
  unfold queue.save, MkdirAll. destruct (mkdir_ok fs); [| now intros [=]].
  destruct (queue.MarshalIndent items) as [err|d]; [now intros [=] |].
  apply WriteFile_error.
Qed.

(** A failed [Remove] leaves the queue as it was. *)
Lemma Remove_error q id fs e fs' :
  queue.Remove q id fs = (Some e, fs') -> fs' = fs.
Proof.
  unfold queue.Remove. destruct (queue.load q fs) as [err|items].
  - now intros [=].
  - apply save_error.
Qed.

(** On a healthy file system [save] succeeds, and [load] reads back
    what was saved. *)
Lemma save_healthy q items fs :
  Healthy (queue.path q) fs -> Forall formattable items ->
  exists fs', queue.save q items fs = (None, fs')
              /\ queue.load q fs' = inr items
              /\ Healthy (queue.path q) fs'.
Proof.
  intros [Hdir Hfile] Hfmt.
  destruct (queue_documents_total items Hfmt) as [vs Hvs].
  unfold queue.save, MkdirAll, queue.MarshalIndent. rewrite Hdir, Hvs.
  assert (Hback : queue.Unmarshal (json_render (JArr vs)) = inr items).
  { apply queue_Unmarshal_MarshalIndent. unfold queue.MarshalIndent.
    now rewrite Hvs. }
  unfold WriteFile.
  destruct (files fs !! queue.path q) as [f|] eqn:Hf.
  - destruct Hfile as [Hr Hw]. rewrite Hw. eexists. split; [reflexivity |].
    unfold queue.load, ReadFile, Healthy. simpl.
    rewrite lookup_insert_eq. simpl. rewrite Hr, Hback. auto.
  - rewrite Hfile. eexists. split; [reflexivity |].
    unfold queue.load, ReadFile, Healthy. simpl.
    rewrite lookup_insert_eq. simpl. rewrite Hback. auto.
Qed.

Lemma without_cons id ids cur :
  without (id :: ids) cur
  = without ids
      (List.filter (fun item => negb (String.eqb (queue.ID item) id)) cur).
Proof.
  unfold without. induction cur as [|r cur IH]; simpl in *; [reflexivity |].
  destruct (String.eqb (queue.ID r) id); simpl; [exact IH |].
  destruct (existsb _ ids); simpl; [exact IH | now rewrite IH].
Qed.

Lemma without_nil cur : without [] cur = cur.
Proof.
  unfold without. induction cur as [|r cur IH]; simpl; [reflexivity |].
  f_equal. exact IH.
Qed.

Lemma Remove_healthy q id fs cur :
  Healthy (queue.path q) fs -> queue.load q fs = inr cur ->
  exists fs', queue.Remove q id fs = (None, fs')
              /\ queue.load q fs' = inr (without [id] cur)
              /\ Healthy (queue.path q) fs'.
Proof.
  intros Hh Hload. unfold queue.Remove. rewrite Hload.
  destruct (save_healthy q
              (List.filter (fun item => negb (String.eqb (queue.ID item) id)) cur)
              fs Hh) as (fs' & Hsave & Hload' & Hh').
  { apply filter_formattable. eapply load_formattable; eassumption. }
  exists fs'. rewrite without_cons, without_nil. auto.
Qed.

(** The removals of a flush on a healthy file system take out exactly
    the entries with the removed identifiers. *)
Lemma removes_healthy q ids fs cur :
  Healthy (queue.path q) fs -> queue.load q fs = inr cur ->
  queue.load q (removes q ids fs) = inr (without ids cur)
  /\ Healthy (queue.path q) (removes q ids fs).
Proof.
  revert fs cur; induction ids as [|id ids IH]; intros fs cur Hh Hload.
  - simpl. now rewrite without_nil.
  - destruct (Remove_healthy q id fs cur Hh Hload) as (fs1 & Hrm & Hload1 & Hh1).
    unfold removes. simpl. rewrite Hrm. simpl.
    rewrite without_cons, without_nil in Hload1.
    rewrite without_cons. now apply IH.
Qed.

(** When one removal of a loaded queue fails, so does every other. *)
Lemma Remove_fails_all q id fs e fs1 items :
  queue.load q fs = inr items ->
  queue.Remove q id fs = (Some e, fs1) ->
  forall id', exists e', queue.Remove q id' fs = (Some e', fs).
Proof.
  intros Hload Hrm id'. unfold queue.Remove in *. rewrite Hload in *.
  pose proof (load_formattable _ _ _ Hload) as Hfmt.
  unfold queue.save, MkdirAll in *. destruct (mkdir_ok fs); [| eauto].
  destruct (queue_documents_total _
              (filter_formattable (fun item => negb (String.eqb (queue.ID item) id))
                 _ Hfmt)) as [vs Hvs].
  destruct (queue_documents_total _
              (filter_formattable (fun item => negb (String.eqb (queue.ID item) id'))
                 _ Hfmt)) as [vs' Hvs'].
  unfold queue.MarshalIndent in *. rewrite Hvs in Hrm. rewrite Hvs'.
  unfold WriteFile in *. destruct (files fs !! queue.path q) as [f|].
  - destruct (writable f); [discriminate | eauto].
  - destruct (dir_writable fs); [discriminate | eauto].
Qed.

Lemma removes_fail q ids fs e fs1 id items :
  queue.load q fs = inr items ->
  queue.Remove q id fs = (Some e, fs1) ->
  removes q ids fs = fs.
Proof.
  intros Hload Hrm. induction ids as [|id' ids IH]; [reflexivity |].
  unfold removes. simpl.
  destruct (Remove_fails_all q id fs e fs1 items Hload Hrm id') as [e' ->].
  exact IH.
Qed.

End QueueFile.

(** ** The flush loop *)

Local Arguments api.IsNetworkError : simpl never.
Local Arguments queue.Remove : simpl never.

Section FlushLoop.
Context `{Platform}.
Variable Client : Type.
Variable Post : Client -> string -> json -> option error * Client.
Variable Get : Client -> string -> option error * Client.
Implicit Types (q : queue.Queue) (fs : FS) (c : Client)
  (items cur pre post : list queue.QueuedRequest).

Local Abbreviation floop := (queue.flush_loop Client Post Get).
Local Abbreviation disp := (queue.dispatch Client Post Get).
Local Abbreviation replays := (replay_all Client Post Get).

Lemma removes_cons q id ids fs :
  removes q (id :: ids) fs = removes q ids (snd (queue.Remove q id fs)).
Proof. reflexivity. Qed.

(** Entries that do not fail transiently are passed one by one: each
    is removed, the delivered ones are counted, and the loop goes on
    with the rest. *)
Lemma flush_loop_app q pre rest n fs c outs c1 :
  replays c pre = (outs, c1) ->
  none_transient outs = true ->
  floop q (pre ++ rest) n fs c
  = floop q rest (n + count_delivered outs)
      (removes q (map queue.ID pre) fs) c1.
Proof.
  revert n fs c outs; induction pre as [|item pre IH]; intros n fs c outs.
  - simpl. intros [= <- <-] _. unfold count_delivered. simpl.
    now rewrite Nat.add_0_r.
  - simpl. destruct (disp c item) as [[[e|] c']|] eqn:Hd.
    + destruct (replays c' pre) as [outs' c''] eqn:Hr.
      intros [= <- <-]. simpl. intros [Hnt Hrest]%andb_true_iff.
      apply negb_true_iff in Hnt. rewrite Hnt.
      destruct (queue.Remove q (queue.ID item) fs) as [err fs'] eqn:Hrm.
      rewrite (IH n fs' c' outs' Hr Hrest).
      reflexivity.
    + destruct (replays c' pre) as [outs' c''] eqn:Hr.
      intros [= <- <-]. simpl. intros Hrest.
      destruct (queue.Remove q (queue.ID item) fs) as [err fs'] eqn:Hrm.
      rewrite (IH (S n) fs' c' outs' Hr Hrest).
      replace (n + count_delivered (Some None :: outs'))%nat
        with (S n + count_delivered outs')%nat
        by (unfold count_delivered; simpl; lia).
      reflexivity.
    + destruct (replays c pre) as [outs' c''] eqn:Hr.
      intros [= <- <-]. simpl. intros Hrest.
      destruct (queue.Remove q (queue.ID item) fs) as [err fs'] eqn:Hrm.
      rewrite (IH n fs' c outs' Hr Hrest).
      reflexivity.
Qed.

(** A transient failure ends the loop where it stands. *)
Lemma flush_loop_stop q k post n fs c e c2 :
  disp c k = Some (Some e, c2) ->
  api.IsNetworkError (Some e) = true ->
  floop q (k :: post) n fs c = (n, fs, c2).
Proof. intros Hd Hnet. simpl. now rewrite Hd, Hnet. Qed.

(** The loop decides between stopping and dropping by the classifier
    of package api. *)
Lemma flush_loop_consults q item rest n fs c e c' :
  disp c item = Some (Some e, c') ->
  floop q (item :: rest) n fs c
  = if api.IsNetworkError (Some e) then (n, fs, c')
    else floop q rest n (snd (queue.Remove q (queue.ID item) fs)) c'.
Proof.
  intros Hd. simpl. rewrite Hd.
  destruct (api.IsNetworkError (Some e)); [reflexivity |].
  now destruct (queue.Remove q (queue.ID item) fs).
Qed.

Lemma without_without ids ids' cur :
  without ids' (without ids cur) = without (ids ++ ids') cur.
Proof.
  revert cur; induction ids as [|id ids IH]; intros cur.
  - now rewrite without_nil.
  - simpl. now rewrite !without_cons, IH.
Qed.

(** On a healthy file system the loop only ever takes entries out. *)
Lemma flush_loop_healthy q items n fs c cur :
  Healthy (queue.path q) fs -> queue.load q fs = inr cur ->
  exists ids,
    queue.load q (snd (fst (floop q items n fs c))) = inr (without ids cur)
    /\ Healthy (queue.path q) (snd (fst (floop q items n fs c))).
Proof.
  revert n fs c cur; induction items as [|item items IH]; intros n fs c cur Hh Hload.
  - exists []. simpl. now rewrite without_nil.
  - destruct (Remove_healthy q (queue.ID item) fs cur Hh Hload)
      as (fs1 & Hrm & Hload1 & Hh1).
    simpl. destruct (disp c item) as [[[e|] c']|].
    + destruct (api.IsNetworkError (Some e)).
      * exists []. simpl. now rewrite without_nil.
      * rewrite Hrm. destruct (IH n fs1 c' _ Hh1 Hload1) as (ids & Hl & Hh').
        exists ([queue.ID item] ++ ids)%list. now rewrite <- without_without.
    + rewrite Hrm. destruct (IH (S n) fs1 c' _ Hh1 Hload1) as (ids & Hl & Hh').
      exists ([queue.ID item] ++ ids)%list. now rewrite <- without_without.
    + rewrite Hrm. destruct (IH n fs1 c _ Hh1 Hload1) as (ids & Hl & Hh').
      exists ([queue.ID item] ++ ids)%list. now rewrite <- without_without.
Qed.

Lemma in_without r ids cur :
  In r (without ids cur) <-> In r cur /\ ~ In (queue.ID r) ids.
Proof.
  unfold without. rewrite filter_In, negb_true_iff.
  split; intros [Hin Hex]; split; try exact Hin.
  - intros Hid. assert (existsb (fun id => String.eqb (queue.ID r) id) ids = true) as Ht.
    { apply existsb_exists. exists (queue.ID r). split; [exact Hid | apply String.eqb_refl]. }
    congruence.
  - destruct (existsb _ ids) eqn:Hb; [| reflexivity].
    apply existsb_exists in Hb as (id & Hid & Heq%String.eqb_eq). congruence.
Qed.

Lemma without_all ids items :
  (forall r, In r items -> In (queue.ID r) ids) -> without ids items = [].
Proof.
  intros Hall. destruct (without ids items) as [|r rest] eqn:Hw; [reflexivity |].
  assert (In r (without ids items)) as Hr by (rewrite Hw; now left).
  apply in_without in Hr as [Hin Hnot]. destruct Hnot. now apply Hall.
Qed.

Lemma without_none ids items :
  (forall r, In r items -> ~ In (queue.ID r) ids) -> without ids items = items.
Proof.
  unfold without. induction items as [|r items IH]; intros Hnone; [reflexivity |].
  simpl. destruct (existsb _ ids) eqn:Hb.
  - apply existsb_exists in Hb as (id & Hid & Heq%String.eqb_eq).
    destruct (Hnone r (or_introl eq_refl)). congruence.
  - simpl. f_equal. apply IH. intros r' Hr'. apply Hnone. now right.
Qed.

(** With distinct identifiers, removing a prefix leaves the rest. *)
Lemma without_prefix pre rest :
  NoDup (map queue.ID (pre ++ rest)) ->
  without (map queue.ID pre) (pre ++ rest) = rest.
Proof.
  intros Hnd. unfold without. rewrite List.filter_app.
  fold (without (map queue.ID pre) pre). fold (without (map queue.ID pre) rest).
  rewrite without_all, without_none; [reflexivity | |].
  - intros r Hr Hid. rewrite map_app in Hnd.
    apply NoDup_app in Hnd as (_ & Hdisj & _).
    apply (Hdisj (queue.ID r)).
    + now apply list_elem_of_In.
    + apply list_elem_of_In. now apply in_map.
  - intros r Hr. now apply in_map.
Qed.

(** [Flush] on a loaded, non-empty queue is the loop. *)
Lemma Flush_loaded q fs c items :
  queue.List q fs = inr items -> items <> [] ->
  queue.Flush Client Post Get q fs c
  = let '(flushed, fs', c') := floop q items 0 fs c in
    ((flushed, None), fs', c').
Proof.
  intros Hl Hne. unfold queue.Flush. rewrite Hl.
  destruct items; [congruence | reflexivity].
Qed.

Lemma replay_all_length c items outs c' :
  replays c items = (outs, c') -> length outs = length items.
Proof.
  revert c outs; induction items as [|item items IH]; intros c outs; simpl.
  - now intros [= <- _].
  - destruct (disp c item) as [[r c1]|].
    + destruct (replays c1 items) as [outs' c''] eqn:Hr.
      intros [= <- <-]. simpl. f_equal. eapply IH; eassumption.
    + destruct (replays c items) as [outs' c''] eqn:Hr.
      intros [= <- <-]. simpl. f_equal. eapply IH; eassumption.
Qed.

Lemma replay_all_snoc c pre x outs c1 r c2 :
  replays c pre = (outs, c1) -> disp c1 x = Some (r, c2) ->
  replays c (pre ++ [x]) = ((outs ++ [Some r])%list, c2).
Proof.
  revert c outs; induction pre as [|item pre IH]; intros c outs; simpl.
  - intros [= <- <-] ->. reflexivity.
  - destruct (disp c item) as [[r' c']|].
    + destruct (replays c' pre) as [outs' c''] eqn:Hr.
      intros [= <- <-] Hx. now rewrite (IH c' outs' Hr Hx).
    + destruct (replays c pre) as [outs' c''] eqn:Hr.
      intros [= <- <-] Hx. now rewrite (IH c outs' Hr Hx).
Qed.

Lemma count_delivered_snoc outs out :
  count_delivered (outs ++ [out])
  = (count_delivered outs + if delivered out then 1 else 0)%nat.
Proof.
  unfold count_delivered. rewrite List.filter_app, length_app. simpl.
  now destruct (delivered out).
Qed.

Lemma none_transient_snoc outs out :
  none_transient outs = true -> transient out = false ->
  none_transient (outs ++ [out]) = true.
Proof.
  unfold none_transient. intros Houts Hout.
  rewrite forallb_app, Houts. simpl. now rewrite Hout.
Qed.

Lemma count_all_delivered outs :
  forallb delivered outs = true -> count_delivered outs = length outs.
Proof.
  unfold count_delivered. induction outs as [|out outs IH]; simpl; [reflexivity |].
  intros [Hout Houts]%andb_true_iff. rewrite Hout. simpl. now rewrite IH.
Qed.

(** A loaded, non-empty queue is healthy, or none of its entries can
    be removed. *)
Lemma healthy_or_stuck q fs items :
  queue.load q fs = inr items -> items <> [] ->
  Healthy (queue.path q) fs
  \/ (forall id, exists e, queue.Remove q id fs = (Some e, fs)).
Proof.
  intros Hload Hne. pose proof (load_formattable q fs items Hload) as Hfmt.
  unfold Healthy, queue.Remove. rewrite Hload.
  unfold queue.load, ReadFile in Hload. unfold queue.save, MkdirAll.
  destruct (mkdir_ok fs); [| right; eauto].
  assert (Hdocs : forall id, exists vs,
             queue.MarshalIndent
               (List.filter (fun item => negb (String.eqb (queue.ID item) id)) items)
             = inr (json_render (JArr vs))).
  { intros id.
    destruct (queue_documents_total _
                (filter_formattable
                   (fun item => negb (String.eqb (queue.ID item) id)) _ Hfmt))
      as [vs Hvs].
    exists vs. unfold queue.MarshalIndent. now rewrite Hvs. }
  unfold WriteFile.
  destruct (files fs !! queue.path q) as [f|].
  - destruct (readable f); [| discriminate].
    destruct (writable f); [left; auto |]. right. intros id.
    destruct (Hdocs id) as [vs ->]. eauto.
  - simpl in Hload. congruence.
Qed.

Lemma removes_stuck q ids fs :
  (forall id, exists e, queue.Remove q id fs = (Some e, fs)) ->
  removes q ids fs = fs.
Proof.
  intros Hstuck. induction ids as [|id ids IH]; [reflexivity |].
  rewrite removes_cons. destruct (Hstuck id) as [e ->]. exact IH.
Qed.

Lemma flush_loop_stuck q items n fs c :
  (forall id, exists e, queue.Remove q id fs = (Some e, fs)) ->
  snd (fst (floop q items n fs c)) = fs.
Proof.
  intros Hstuck. revert n c; induction items as [|item items IH]; intros n c;
    [reflexivity |].
  simpl. destruct (Hstuck (queue.ID item)) as [e' Hrm].
  destruct (disp c item) as [[[e|] c']|]; rewrite ?Hrm; auto.
  destruct (api.IsNetworkError (Some e)); [reflexivity | auto].
Qed.

Lemma flush_loop_count q items n fs c :
  (n <= fst (fst (floop q items n fs c)))%nat.
Proof.
  revert n fs c; induction items as [|item items IH]; intros n fs c; simpl;
    [lia |].
  destruct (disp c item) as [[[e|] c']|].
  - destruct (api.IsNetworkError (Some e)); [simpl; lia |].
    destruct (queue.Remove q (queue.ID item) fs). apply IH.
  - destruct (queue.Remove q (queue.ID item) fs).
    etransitivity; [| apply IH]. lia.
  - destruct (queue.Remove q (queue.ID item) fs). apply IH.
Qed.


(** C1, as amended.  When entry [k] is the first whose replay fails
    with a transient classification, the queue file can be read and
    written and the identifiers are pairwise distinct, [Flush] removes
    the entries before [k], leaves [k] and the entries after it in
    the queue in their order, and returns the number of entries
    before [k] whose replay succeeded; that number is [k-1] when all
    of them succeeded. *)
Theorem Flush_stops_at_first_transient q fs c pre k post outs c1 e c2 :
  Healthy (queue.path q) fs ->
  queue.List q fs = inr (pre ++ k :: post) ->
  NoDup (map queue.ID (pre ++ k :: post)) ->
  replays c pre = (outs, c1) ->
  none_transient outs = true ->
  disp c1 k = Some (Some e, c2) ->
  api.IsNetworkError (Some e) = true ->
  exists fs',
    queue.Flush Client Post Get q fs c = ((count_delivered outs, None), fs', c2)
    /\ queue.List q fs' = inr (k :: post)
    /\ (forallb delivered outs = true -> count_delivered outs = length pre).
Proof.
  intros Hh Hlist Hnd Hpre Hnt Hk Hnet.
  exists (removes q (map queue.ID pre) fs).
  rewrite (Flush_loaded q fs c _ Hlist) by (now destruct pre).
  rewrite (flush_loop_app q pre (k :: post) 0 fs c outs c1 Hpre Hnt).
  rewrite (flush_loop_stop q k post _ _ c1 e c2 Hk Hnet).
  split; [reflexivity |]. split.
  - unfold queue.List.
    destruct (removes_healthy q (map queue.ID pre) fs _ Hh Hlist) as [-> _].
    now rewrite without_prefix.
  - intros Hall. rewrite (count_all_delivered outs Hall).
    eapply replay_all_length; eassumption.
Qed.

(** C7.  On a queue file that can be read and written, an entry the
    flusher reaches and whose replay fails with a non-network
    classification is removed at once, the loop goes on with the next
    entry, and the entry is in no list the queue returns after the
    flush. *)
Theorem Flush_drops_rejected q fs c pre x post outs c1 e c2 :
  Healthy (queue.path q) fs ->
  queue.List q fs = inr (pre ++ x :: post) ->
  replays c pre = (outs, c1) ->
  none_transient outs = true ->
  disp c1 x = Some (Some e, c2) ->
  api.IsNetworkError (Some e) = false ->
  exists fs1 remaining1 remaining,
    queue.List q fs1 = inr remaining1
    /\ ~ In (queue.ID x) (map queue.ID remaining1)
    /\ queue.Flush Client Post Get q fs c
       = (let '(n, fs', c') := floop q post (count_delivered outs) fs1 c2 in
          ((n, None), fs', c'))
    /\ queue.List q (snd (fst (queue.Flush Client Post Get q fs c))) = inr remaining
    /\ ~ In (queue.ID x) (map queue.ID remaining).
Proof.
  intros Hh Hlist Hpre Hnt Hx Hnet.
  pose proof (replay_all_snoc c pre x outs c1 (Some e) c2 Hpre Hx) as Hpre'.
  assert (none_transient (outs ++ [Some (Some e)]) = true) as Hnt'
    by (apply none_transient_snoc; [exact Hnt | exact Hnet]).
  destruct (removes_healthy q (map queue.ID (pre ++ [x])) fs _ Hh Hlist)
    as [Hl1 Hh1].
  assert (Hgone : forall ids r,
             In r (without ids (without (map queue.ID (pre ++ [x])) (pre ++ x :: post))) ->
             queue.ID r <> queue.ID x).
  { intros ids r [Hr _]%in_without. apply in_without in Hr as [_ Hr].
    intros Heq. apply Hr. rewrite Heq, map_app, in_app_iff. right. now left. }
  assert (Hflush : queue.Flush Client Post Get q fs c
                   = (let '(n, fs', c') :=
                        floop q post (count_delivered outs)
                          (removes q (map queue.ID (pre ++ [x])) fs) c2 in
                      ((n, None), fs', c'))).
  { rewrite (Flush_loaded q fs c _ Hlist) by (now destruct pre).
    replace (pre ++ x :: post)%list with ((pre ++ [x]) ++ post)%list
      by (now rewrite <- app_assoc).
    rewrite (flush_loop_app q (pre ++ [x]) post 0 fs c _ c2 Hpre' Hnt').
    rewrite count_delivered_snoc. simpl. now rewrite Nat.add_0_r. }
  destruct (flush_loop_healthy q post (count_delivered outs) _ c2 _ Hh1 Hl1)
    as (ids & Hl & _).
  eexists (removes q (map queue.ID (pre ++ [x])) fs), _, _.
  split; [exact Hl1 |]. split; [| split; [exact Hflush | split]].
  - intros (r & Hid & Hr)%in_map_iff.
    apply (Hgone [] r); [now rewrite without_nil | exact Hid].
  - rewrite Hflush.
    destruct (floop q post _ _ c2) as [[n fs'] c']. exact Hl.
  - intros (r & Hid & Hr)%in_map_iff. now apply (Hgone ids r).
Qed.

(** C10.  When an entry's replay succeeds and its removal from the
    queue fails, [Flush] counts the entry and goes on with the next
    one, and the queue is left as it was, the entry in it: the
    returned count is larger than the number of entries taken out. *)
Theorem Flush_counts_what_it_cannot_remove
    q fs c pre x post outs c1 c2 err fs1 :
  queue.List q fs = inr (pre ++ x :: post) ->
  replays c pre = (outs, c1) ->
  none_transient outs = true ->
  disp c1 x = Some (None, c2) ->
  queue.Remove q (queue.ID x) (removes q (map queue.ID pre) fs) = (Some err, fs1) ->
  queue.Flush Client Post Get q fs c
  = (let '(n, fs', c') := floop q post (S (count_delivered outs)) fs1 c2 in
     ((n, None), fs', c'))
  /\ queue.List q fs1 = inr (pre ++ x :: post)
  /\ exists n c',
       queue.Flush Client Post Get q fs c = ((n, None), fs, c')
       /\ (S (count_delivered outs) <= n)%nat.
Proof.
  intros Hlist Hpre Hnt Hx Hrm.
  pose proof (replay_all_snoc c pre x outs c1 None c2 Hpre Hx) as Hpre'.
  assert (none_transient (outs ++ [Some None]) = true) as Hnt'
    by (now apply none_transient_snoc).
  destruct (healthy_or_stuck q fs _ Hlist) as [Hh | Hstuck]; [now destruct pre | |].
  { destruct (removes_healthy q (map queue.ID pre) fs _ Hh Hlist) as [Hl1 Hh1].
    destruct (Remove_healthy q (queue.ID x) _ _ Hh1 Hl1) as (fs' & Hok & _).
    congruence. }
  rewrite (removes_stuck q _ fs Hstuck) in Hrm.
  apply Remove_error in Hrm as Hfs1. subst fs1.
  assert (Hflush : queue.Flush Client Post Get q fs c
                   = (let '(n, fs', c') :=
                        floop q post (S (count_delivered outs)) fs c2 in
                      ((n, None), fs', c'))).
  { rewrite (Flush_loaded q fs c _ Hlist) by (now destruct pre).
    replace (pre ++ x :: post)%list with ((pre ++ [x]) ++ post)%list
      by (now rewrite <- app_assoc).
    rewrite (flush_loop_app q (pre ++ [x]) post 0 fs c _ c2 Hpre' Hnt').
    rewrite (removes_stuck q _ fs Hstuck), count_delivered_snoc. simpl.
    now rewrite Nat.add_1_r. }
  split; [exact Hflush |]. split; [exact Hlist |].
  rewrite Hflush.
  pose proof (flush_loop_stuck q post (S (count_delivered outs)) fs c2 Hstuck) as Hfs.
  pose proof (flush_loop_count q post (S (count_delivered outs)) fs c2) as Hn.
  destruct (floop q post _ fs c2) as [[n fs'] c']. simpl in Hfs, Hn. subst fs'.
  exists n, c'. split; [reflexivity | exact Hn].
Qed.


End FlushLoop.

(** ** Adding to the queue *)

Lemma NoDup_map_inj {A B : Type} (f : A -> B) (l : list A) :
  (forall x y, f x = f y -> x = y) -> NoDup l -> NoDup (map f l).
Proof.
  intros Hinj. induction 1 as [|x l Hx _ IH]; simpl; constructor; [| exact IH].
  rewrite list_elem_of_In, in_map_iff. intros (y & Hy & Hin).
  apply Hinj in Hy as ->. now apply Hx, list_elem_of_In.
Qed.

Lemma Sprintf_d_inj (n m : Z) : Sprintf_d n = Sprintf_d m -> n = m.
Proof. apply pretty_Z_inj. Qed.

Section QueueAdd.
Context `{Platform}.
Implicit Types (q : queue.Queue) (fs : FS) (a : AddCall)
  (items : list queue.QueuedRequest).

Lemma Add_healthy q a fs items :
  Healthy (queue.path q) fs -> queue.load q fs = inr items -> acceptable a ->
  exists fs',
    queue.Add q (now1 a) (now2 a) (method a) (target a) (body a) fs = (None, fs')
    /\ queue.load q fs' = inr (items ++ [entry_of a])
    /\ Healthy (queue.path q) fs'.
Proof.
  intros Hh Hload [Hbody Htime]. unfold queue.Add. rewrite Hload.
  assert (Hfmt : Forall formattable (items ++ [entry_of a])).
  { apply Forall_app. split; [eapply load_formattable; eassumption |].
    constructor; [exact Htime | constructor]. }
  destruct (save_healthy q _ fs Hh Hfmt) as (fs' & Hsave & Hload' & Hh').
  exists fs'. unfold entry_of in *.
  destruct (body a); [| | congruence]; simpl in *; auto.
Qed.

(** C4, as amended.  On a queue file that can be read and written,
    after any sequence of [Add] calls whose bodies can be marshalled,
    [List] returns the entries that were there followed by the added
    ones in the order of the calls; the identifiers of the added
    entries are pairwise distinct when the nanosecond clock readings
    the calls took for them are. *)
Theorem Add_then_List_is_FIFO q calls fs items :
  Healthy (queue.path q) fs ->
  queue.List q fs = inr items ->
  Forall acceptable calls ->
  exists fs',
    add_all q calls fs = (map (fun _ => None) calls, fs')
    /\ queue.List q fs' = inr (items ++ map entry_of calls)
    /\ (NoDup (map (fun a => UnixNano (now1 a)) calls) ->
        NoDup (map queue.ID (map entry_of calls))).
Proof.
  intros Hh Hlist Hok. revert fs items Hh Hlist.
  induction Hok as [|a calls Ha _ IH]; intros fs items Hh Hlist.
  - exists fs. simpl. rewrite app_nil_r. repeat split; [exact Hlist | constructor].
  - destruct (Add_healthy q a fs items Hh Hlist Ha) as (fs1 & Hadd & Hl1 & Hh1).
    destruct (IH fs1 _ Hh1 Hl1) as (fs' & Hall & Hl' & _).
    exists fs'. simpl. rewrite Hadd, Hall. split; [reflexivity |]. split.
    + now rewrite <- app_assoc in Hl'.
    + intros Hnd. rewrite map_map.
      change (NoDup (map (fun a' => Sprintf_d (UnixNano (now1 a'))) (a :: calls))).
      rewrite <- (map_map (fun a' => UnixNano (now1 a')) Sprintf_d).
      apply NoDup_map_inj; [exact Sprintf_d_inj | exact Hnd].
Qed.

(** [load] takes a missing queue file for an empty queue. *)
Lemma load_missing q fs :
  files fs !! queue.path q = None -> queue.load q fs = inr [].
Proof. intros Hnone. unfold queue.load, ReadFile. now rewrite Hnone. Qed.

(** [load] returns every other read error, and every decoding error. *)
Lemma load_propagates q fs :
  (forall e, ReadFile (queue.path q) fs = inl e ->
             IsNotExist (Some e) = false -> queue.load q fs = inl e)
  /\ (forall d e, ReadFile (queue.path q) fs = inr d ->
                  queue.Unmarshal d = inl e -> queue.load q fs = inl e).
Proof.
  split.
  - intros e Hread Hne. unfold queue.load. now rewrite Hread, Hne.
  - intros d e Hread Hdec. unfold queue.load. now rewrite Hread, Hdec.
Qed.

(** C8, as amended.  When the queue file is there and cannot be read
    or decoded, [List] and [Remove] return the error and leave the
    file alone, while [Add] swallows it: it starts from an empty list
    and saves a queue that holds the new entry only, so that on a file
    that can be read and written the call succeeds and the queue is
    the new entry alone. *)
Theorem Add_swallows_load_errors q fs err a :
  queue.load q fs = inl err ->
  body a <> Unencodable ->
  files fs !! queue.path q <> None
  /\ queue.List q fs = inl err
  /\ (forall id, queue.Remove q id fs = (Some err, fs))
  /\ queue.Add q (now1 a) (now2 a) (method a) (target a) (body a) fs
     = queue.save q [entry_of a] fs
  /\ (Healthy (queue.path q) fs -> is_Some (Time_format (now2 a)) ->
      exists fs',
        queue.Add q (now1 a) (now2 a) (method a) (target a) (body a) fs
        = (None, fs')
        /\ queue.List q fs' = inr [entry_of a]).
Proof.
  intros Hload Hbody.
  assert (Hadd : queue.Add q (now1 a) (now2 a) (method a) (target a) (body a) fs
                 = queue.save q [entry_of a] fs).
  { unfold queue.Add, entry_of. rewrite Hload.
    destruct (body a); [reflexivity | reflexivity | congruence]. }
  split; [| split; [| split; [| split]]].
  - intros Hnone. rewrite (load_missing q fs Hnone) in Hload. discriminate.
  - exact Hload.
  - intros id. unfold queue.Remove. now rewrite Hload.
  - exact Hadd.
  - intros Hh Htime. rewrite Hadd.
    destruct (save_healthy q [entry_of a] fs Hh) as (fs' & Hsave & Hl & _).
    { constructor; [exact Htime | constructor]. }
    exists fs'. split; assumption.
Qed.

End QueueAdd.

(** ** The token store *)

Section TokenStore.
Context `{Platform}.
Implicit Types (s : auth.TokenStore) (fs : FS) (C : auth.TokenData).

(** The document of a credential reads back as the credential. *)
Lemma auth_dec_document C v :
  auth.document (Some C) = Some v ->
  Json.dec_struct auth.set_field v auth.zeroTokenData = Some C.
Proof.
  destruct C as [tok ty t ws ag ep]. unfold auth.document. simpl.
  destruct (Time_format t) as [e|] eqn:Ht; simpl; [| discriminate].
  intros [= <-]. apply Time_parse_format in Ht.
  simpl. unfold auth.set_field. eval_keys. simpl. now rewrite Ht.
Qed.

Lemma auth_Unmarshal_MarshalIndent C d :
  auth.MarshalIndent (Some C) = inr d -> auth.Unmarshal d = inr C.
Proof.
  unfold auth.MarshalIndent, auth.Unmarshal.
  destruct (auth.document (Some C)) as [v|] eqn:Hv; [| discriminate].
  intros [= <-]. rewrite json_parse_render.
  now rewrite (auth_dec_document C v Hv).
Qed.


(** C5, as amended.  [Clear] returns the error of [os.Remove] when no
    token file exists: clearing when absent is not reported as a
    success.  Whenever [Clear] succeeds, or the file was absent
    already, a [Load] after it returns nil. *)
Theorem Clear_then_Load s fs :
  (files fs !! auth.path s = None ->
   auth.Clear s fs = (Some (PathError "remove" (auth.path s) ENOENT), fs))
  /\ (fst (auth.Clear s fs) = None \/ files fs !! auth.path s = None ->
      auth.Load s (snd (auth.Clear s fs)) = None).
Proof.
  unfold auth.Clear, Remove, auth.Load, ReadFile. split.
  - now intros ->.
  - destruct (files fs !! auth.path s) as [f|] eqn:Hf.
    + destruct (dir_writable fs); simpl.
      * intros _. now rewrite lookup_delete_eq.
      * intros [Hnone | Hnone]; discriminate.
    + intros _. simpl. now rewrite Hf.
Qed.

End TokenStore.

(** ** The token endpoints *)

Section TokenEndpoints.
Context `{Platform}.
Implicit Types (b : bytes) (t : api.TokenResponse).

(** The wrapped shape is tried first, the flat one only after its
    error, and the error returned is the first one. *)
Lemma unwrap_order b :
  (forall t, api.Unmarshal_wrapper b = inr t -> api.unwrap b = inr t)
  /\ (forall e t, api.Unmarshal_wrapper b = inl e -> api.Unmarshal_flat b = inr t ->
                  api.unwrap b = inr t)
  /\ (forall e, api.unwrap b = inl e <->
                api.Unmarshal_wrapper b = inl e
                /\ exists e2, api.Unmarshal_flat b = inl e2).
Proof.
  unfold api.unwrap. repeat split.
  - now intros t ->.
  - now intros e t -> ->.
  - destruct (api.Unmarshal_wrapper b) as [e1|t1]; [| discriminate].
    destruct (api.Unmarshal_flat b) as [e2|t2]; [| discriminate]. congruence.
  - destruct (api.Unmarshal_wrapper b) as [e1|t1]; [| discriminate].
    destruct (api.Unmarshal_flat b) as [e2|t2]; [| discriminate]. eauto.
  - intros [-> [e2 ->]]. reflexivity.
Qed.

Lemma api_dec_sent t v :
  sent t = Some v ->
  Json.dec_struct api.set_field v api.zeroTokenResponse = Some t.
Proof.
  destruct t as [tok ty ex ws ag]. unfold sent. simpl.
  destruct (Time_format ex) as [e|] eqn:Ht; simpl; [| discriminate].
  intros [= <-]. apply Time_parse_format in Ht.
  simpl. unfold api.set_field. eval_keys. simpl. now rewrite Ht.
Qed.

(** A credential sent under [data] is returned as sent. *)
Lemma unwrap_wrapped b t v :
  sent t = Some v -> json_parse b = Some (JObj [("data", v)]) ->
  api.unwrap b = inr t.
Proof.
  intros Hv Hb. apply unwrap_order. unfold api.Unmarshal_wrapper.
  rewrite Hb. simpl. unfold api.set_data. eval_keys. simpl.
  now rewrite (api_dec_sent t v Hv).
Qed.

Lemma dec_members_no_data ms t :
  Forall (fun m => Json.key_is (fst m) "data" = false) ms ->
  Json.dec_members api.set_data ms t = Some t.
Proof.
  induction 1 as [|[k v] ms Hk _ IH]; simpl; [reflexivity |].
  simpl in Hk. unfold api.set_data at 1. now rewrite Hk.
Qed.

(** C3, where the code departs from it.  For a response in the flat
    shape, an object with no member [data], the wrapped parse
    succeeds with nothing in it: the flat parse is never tried, and
    [RefreshToken] and [IssueToken] return the zero [TokenResponse]
    with no error, whatever credential the object carries. *)
Theorem flat_response_is_lost b ms :
  json_parse b = Some (JObj ms) ->
  Forall (fun m => Json.key_is (fst m) "data" = false) ms ->
  api.unwrap b = inr api.zeroTokenResponse
  /\ api.RefreshToken (inr (api.mkResponse 200 (inr b))) = inr api.zeroTokenResponse
  /\ api.IssueToken (inr (api.mkResponse 200 (inr b))) = inr api.zeroTokenResponse.
Proof.
  intros Hb Hms.
  assert (Hu : api.unwrap b = inr api.zeroTokenResponse).
  { apply unwrap_order. unfold api.Unmarshal_wrapper. rewrite Hb. simpl.
    now rewrite dec_members_no_data. }
  repeat split; [exact Hu | |]; simpl; exact Hu.
Qed.

End TokenEndpoints.

(** ** The classifiers *)

(** C2, as amended.  The classifier of the command layer classifies an
    error as transient exactly when its message contains, in any casing,
    one of "network error", "connection", "no such host", "timeout",
    "dial", and "validation failed: missing field" is not a network
    error for it.  The flusher consults the classifier of package api,
    which classifies an error as transient exactly when its message
    contains, in the casing written here, one of "network error",
    "connection refused", "no such host", "timeout", "dial"; it stops
    at an entry whose error that classifier takes for transient, and
    drops the entry otherwise. *)
Theorem classifiers_characterised (err : option error) :
  (commands.isNetworkErr err = true <-> spec_transient err)
  /\ commands.isNetworkErr (Some (ErrMsg "validation failed: missing field")) = false
  /\ api.IsNetworkError (Some (ErrMsg "validation failed: missing field")) = false
  /\ (api.IsNetworkError err = true <->
      exists e kw,
        err = Some e
        /\ In kw ["network error"; "connection refused"; "no such host";
                  "timeout"; "dial"]
        /\ Contains (Error e) kw)
  /\ (forall (P : Platform) (Client : Type)
             (Post : Client -> string -> json -> option error * Client)
             (Get : Client -> string -> option error * Client)
             q item rest n fs c e c',
        queue.dispatch Client Post Get c item = Some (Some e, c') ->
        queue.flush_loop Client Post Get q (item :: rest) n fs c
        = if api.IsNetworkError (Some e) then (n, fs, c')
          else queue.flush_loop Client Post Get q rest n
                 (snd (queue.Remove q (queue.ID item) fs)) c').
Proof.
  split; [apply isNetworkErr_spec |].
  split; [vm_compute; reflexivity |].
  split; [vm_compute; reflexivity |].
  split; [apply IsNetworkError_spec |].
  intros P Client Post Get q item rest n fs c e c'.
  apply flush_loop_consults.
Qed.

(** ** The auto-refresh loop *)

Section AutoRefresh.
Context `{Platform}.
Variable refresh : nat -> string -> option auth.TokenData * option error.
Variable elapsed : nat -> Duration.
Hypothesis elapsed_nonneg : forall i, 0 <= elapsed i.
Implicit Types (store : auth.TokenStore) (w : auth.World).

Local Abbreviation tick := (auth.tick elapsed).
Local Abbreviation iteration := (auth.iteration refresh elapsed).
Local Abbreviation run := (auth.run refresh elapsed).

Lemma now_tick extra w :
  auth.w_now (tick extra w) = auth.w_now w + elapsed (auth.w_step w) + extra.
Proof. reflexivity. Qed.

(** A wait that fits in a [Duration] is computed exactly. *)
Lemma Time_Sub_exact (t u : Time) :
  u < t -> t - u <= maxDuration -> Time_Sub t u = t - u.
Proof.
  intros Hlt Hfit. unfold Time_Sub.
  destruct (Z.ltb_spec maxDuration (t - u)); [lia |].
  destruct (Z.ltb_spec (t - u) minDuration); [unfold minDuration in *; lia |].
  reflexivity.
Qed.

Lemma Forall_on_time_app (l k : list auth.Event) :
  Forall on_time l -> Forall on_time k -> Forall on_time (l ++ k).
Proof. intros Hl Hk. apply Forall_app. now split. Qed.

(** One round of the loop invokes the refresh function on time. *)
Lemma iteration_on_time store w :
  Forall fits (fst (iteration store w)) ->
  Forall on_time (fst (iteration store w)).
Proof.
  unfold auth.iteration.
  destruct (auth.Load store (auth.w_fs w)) as [token|];
    [| intros _; repeat constructor].
  set (w1 := tick 0 w). set (now := auth.w_now w1).
  set (refreshAt := Time_Add (auth.ExpiresAt token) (-4 * Hour)).
  assert (Hcalled :
            fits (auth.Evaluated now token) ->
            auth.ExpiresAt token - 4 * Hour
            <= auth.w_now
                 (snd (if Time_Before now refreshAt
                       then ([auth.Slept (Time_Sub refreshAt now)],
                             auth.Sleep elapsed (Time_Sub refreshAt now) (tick 0 w1))
                       else ([], tick 0 w1)))).
  { simpl. intros Hfit. unfold Time_Before, refreshAt, Time_Add in *.
    pose proof (elapsed_nonneg (auth.w_step w)) as H0.
    pose proof (elapsed_nonneg (S (auth.w_step w))) as H1.
    pose proof (elapsed_nonneg (S (S (auth.w_step w)))) as H2.
    assert (Hnow : now = auth.w_now w + elapsed (auth.w_step w) + 0)
      by reflexivity.
    destruct (Z.ltb_spec now (auth.ExpiresAt token + -4 * Hour)) as [Hlt|Hge];
      simpl.
    - rewrite Time_Sub_exact by lia. lia.
    - lia. }
  destruct (if Time_Before now refreshAt then _ else _) as [slept w2] eqn:Hs.
  simpl in Hcalled.
  destruct (refresh (auth.w_step w2) (auth.WorkspaceToken token)) as [newToken err].
  assert (Hslept : Forall on_time slept).
  { destruct (Time_Before now refreshAt); injection Hs as <- _;
      repeat constructor. }
  assert (Hbefore :
            fits (auth.Evaluated now token) ->
            Forall on_time
              (auth.Evaluated now token :: slept ++ [auth.Refreshed (auth.w_now w2) token])).
  { intros Hfit. constructor; [exact I |].
    apply Forall_on_time_app; [exact Hslept |].
    constructor; [exact (Hcalled Hfit) | constructor]. }
  destruct err as [e|].
  - simpl. intros Hfits. apply Forall_cons in Hfits as Hfits'.
    destruct Hfits' as [Hfit _].
    apply (Forall_on_time_app (_ :: _)); [exact (Hbefore Hfit) |].
    repeat constructor.
  - destruct (auth.Save store newToken (auth.w_fs (tick 0 w2))) as [[e|] fs'];
      simpl; intros Hfits; apply Forall_cons in Hfits as Hfits';
      destruct Hfits' as [Hfit _].
    + apply (Forall_on_time_app (_ :: _)); [exact (Hbefore Hfit) |].
      repeat constructor.
    + exact (Hbefore Hfit).
Qed.

Lemma run_on_time n store w :
  Forall fits (fst (run n store w)) -> Forall on_time (fst (run n store w)).
Proof.
  revert w; induction n as [|n IH]; intros w; simpl; [constructor |].
  pose proof (iteration_on_time store w) as Hit.
  destruct (iteration store w) as [evs w'].
  specialize (IH w'). destruct (run n store w') as [evs' w''].
  simpl in *. intros [Hevs Hevs']%Forall_app.
  apply Forall_on_time_app; auto.
Qed.

(** A credential found due is refreshed with no sleep in between. *)
Lemma iteration_due store w token :
  auth.Load store (auth.w_fs w) = Some token ->
  auth.ExpiresAt token - 4 * Hour <= auth.w_now (tick 0 w) ->
  exists rest,
    fst (iteration store w)
    = auth.Evaluated (auth.w_now (tick 0 w)) token
        :: auth.Refreshed (auth.w_now (tick 0 (tick 0 w))) token
        :: rest.
Proof.
  intros Hload Hdue. unfold auth.iteration. rewrite Hload.
  unfold Time_Before, Time_Add.
  destruct (Z.ltb_spec (auth.w_now (tick 0 w)) (auth.ExpiresAt token + -4 * Hour));
    [lia |].
  destruct (refresh _ _) as [newToken [e|]]; simpl; [eauto |].
  destruct (auth.Save store newToken _) as [[e|] fs']; simpl; eauto.
Qed.

(** C9.  In every run of the loop that never waits longer than a
    [Duration] can hold, with a clock that does not run backwards, the
    refresh function is never invoked for a credential before four
    hours ahead of its expiry; and a credential that is evaluated at
    or after that time is refreshed at once, with no sleep between the
    evaluation and the call. *)
Theorem StartAutoRefresh_timing n store w :
  Forall fits (fst (run n store w)) ->
  Forall on_time (fst (run n store w))
  /\ (forall token,
        auth.Load store (auth.w_fs w) = Some token ->
        auth.ExpiresAt token - 4 * Hour <= auth.w_now (tick 0 w) ->
        exists rest,
          fst (iteration store w)
          = auth.Evaluated (auth.w_now (tick 0 w)) token
              :: auth.Refreshed (auth.w_now (tick 0 (tick 0 w))) token
              :: rest).
Proof.
  intros Hfits. split; [now apply run_on_time |].
  intros token. apply iteration_due.
Qed.

End AutoRefresh.

(** * Runs on the simulated platform *)

(** C1: the first entry is delivered, the second finds the service
    offline, the third is not tried. *)
Lemma Flush_stops_at_first_transient_run :
  exists fs',
    queue.Flush Sim.Script Sim.Post Sim.Get Sim_queue
      (Sim_queued [Sim_r1; Sim_r2; Sim_r3]) [None; Some Sim_offline]
    = ((count_delivered [Some None], None), fs', [])
    /\ @queue.List Sim_platform Sim_queue fs' = inr [Sim_r2; Sim_r3]
    /\ (forallb delivered [Some None] = true ->
        count_delivered [Some None] = length [Sim_r1]).
Proof.
  apply (@Flush_stops_at_first_transient Sim_platform Sim.Script Sim.Post Sim.Get
           Sim_queue (Sim_queued [Sim_r1; Sim_r2; Sim_r3]) [None; Some Sim_offline]
           [Sim_r1] Sim_r2 [Sim_r3] [Some None] [Some Sim_offline] Sim_offline []).
  - vm_compute. auto.
  - vm_compute. reflexivity.
  - apply (bool_decide_unpack _). vm_compute. exact I.
  - vm_compute. reflexivity.
  - vm_compute. reflexivity.
  - vm_compute. reflexivity.
  - vm_compute. reflexivity.
Defined.

(** C1 as stated fails: the first entry is rejected with a 404 and the
    second finds the service offline; the second entry is the first to
    fail transiently, yet the count returned is 0 and not 1. *)
Lemma Flush_count_counterexample :
  @queue.List Sim_platform Sim_queue (Sim_queued [Sim_r1; Sim_r2])
  = inr ([Sim_r1] ++ Sim_r2 :: [])
  /\ replay_all Sim.Script Sim.Post Sim.Get [Some Sim_404; Some Sim_offline] [Sim_r1]
     = ([Some (Some Sim_404)], [Some Sim_offline])
  /\ transient (Some (Some Sim_404)) = false
  /\ queue.dispatch Sim.Script Sim.Post Sim.Get [Some Sim_offline] Sim_r2
     = Some (Some Sim_offline, [])
  /\ api.IsNetworkError (Some Sim_offline) = true
  /\ fst (fst (queue.Flush Sim.Script Sim.Post Sim.Get Sim_queue
                 (Sim_queued [Sim_r1; Sim_r2]) [Some Sim_404; Some Sim_offline]))
     = (0%nat, None)
  /\ length [Sim_r1] = 1%nat.
Proof. vm_compute. repeat split. Qed.

(** C7: the first entry is delivered, the second is rejected with a 404
    and dropped, the third is tried next. *)
Lemma Flush_drops_rejected_run :
  exists fs1 remaining1 remaining,
    @queue.List Sim_platform Sim_queue fs1 = inr remaining1
    /\ ~ In (queue.ID Sim_r2) (map queue.ID remaining1)
    /\ queue.Flush Sim.Script Sim.Post Sim.Get Sim_queue
         (Sim_queued [Sim_r1; Sim_r2; Sim_r3]) [None; Some Sim_404; None]
       = (let '(n, fs', c') :=
            queue.flush_loop Sim.Script Sim.Post Sim.Get Sim_queue [Sim_r3]
              (count_delivered [Some None]) fs1 [None] in
          ((n, None), fs', c'))
    /\ @queue.List Sim_platform Sim_queue
         (snd (fst (queue.Flush Sim.Script Sim.Post Sim.Get Sim_queue
                      (Sim_queued [Sim_r1; Sim_r2; Sim_r3])
                      [None; Some Sim_404; None])))
       = inr remaining
    /\ ~ In (queue.ID Sim_r2) (map queue.ID remaining).
Proof.
  apply (@Flush_drops_rejected Sim_platform Sim.Script Sim.Post Sim.Get
           Sim_queue (Sim_queued [Sim_r1; Sim_r2; Sim_r3]) [None; Some Sim_404; None]
           [Sim_r1] Sim_r2 [Sim_r3] [Some None] [Some Sim_404; None] Sim_404 [None]).
  - vm_compute. auto.
  - vm_compute. reflexivity.
  - vm_compute. reflexivity.
  - vm_compute. reflexivity.
  - vm_compute. reflexivity.
  - vm_compute. reflexivity.
Defined.

(** C10: on a read-only queue file, the first entry is delivered and
    cannot be removed. *)
Lemma Flush_counts_what_it_cannot_remove_run :
  queue.Flush Sim.Script Sim.Post Sim.Get Sim_queue
    (Sim_readonly [Sim_r1; Sim_r2]) []
  = (let '(n, fs', c') :=
       queue.flush_loop Sim.Script Sim.Post Sim.Get Sim_queue [Sim_r2]
         (S (count_delivered [])) (Sim_readonly [Sim_r1; Sim_r2]) [] in
     ((n, None), fs', c'))
  /\ @queue.List Sim_platform Sim_queue (Sim_readonly [Sim_r1; Sim_r2])
     = inr ([] ++ Sim_r1 :: [Sim_r2])
  /\ exists n c',
       queue.Flush Sim.Script Sim.Post Sim.Get Sim_queue
         (Sim_readonly [Sim_r1; Sim_r2]) []
       = ((n, None), Sim_readonly [Sim_r1; Sim_r2], c')
       /\ (S (count_delivered []) <= n)%nat.
Proof.
  apply (@Flush_counts_what_it_cannot_remove Sim_platform Sim.Script Sim.Post Sim.Get
           Sim_queue (Sim_readonly [Sim_r1; Sim_r2]) [] [] Sim_r1 [Sim_r2] [] [] []
           (PathError "open" (queue.path Sim_queue) EACCES)
           (Sim_readonly [Sim_r1; Sim_r2])).
  - vm_compute. reflexivity.
  - vm_compute. reflexivity.
  - vm_compute. reflexivity.
  - vm_compute. reflexivity.
  - vm_compute. reflexivity.
Defined.

(** On the read-only queue file a flush delivers both entries, reports
    two, and leaves the file as it was: the next flush delivers them
    again. *)
Lemma Flush_delivers_again :
  queue.Flush Sim.Script Sim.Post Sim.Get Sim_queue
    (Sim_readonly [Sim_r1; Sim_r2]) []
  = ((2%nat, None), Sim_readonly [Sim_r1; Sim_r2], [])
  /\ @queue.List Sim_platform Sim_queue (Sim_readonly [Sim_r1; Sim_r2])
     = inr [Sim_r1; Sim_r2].
Proof. vm_compute. split; reflexivity. Qed.

(** C4: two calls at different clock readings. *)
Lemma Add_then_List_is_FIFO_run :
  exists fs',
    @add_all Sim_platform Sim_queue [Sim_a1; Sim_a3] Sim_empty
    = (map (fun _ => None) [Sim_a1; Sim_a3], fs')
    /\ @queue.List Sim_platform Sim_queue fs'
       = inr ([] ++ map entry_of [Sim_a1; Sim_a3])
    /\ (NoDup (map (fun a => UnixNano (now1 a)) [Sim_a1; Sim_a3]) ->
        NoDup (map queue.ID (map entry_of [Sim_a1; Sim_a3]))).
Proof.
  apply (@Add_then_List_is_FIFO Sim_platform Sim_queue [Sim_a1; Sim_a3] Sim_empty []).
  - vm_compute. auto.
  - vm_compute. reflexivity.
  - repeat constructor; try discriminate; vm_compute; eauto.
Defined.

(** C4 as stated fails: two calls that read the same nanosecond get the
    same identifier. *)
Lemma Add_same_reading_counterexample :
  exists fs' e1 e2,
    @add_all Sim_platform Sim_queue [Sim_a1; Sim_a2] Sim_empty = ([None; None], fs')
    /\ @queue.List Sim_platform Sim_queue fs' = inr [e1; e2]
    /\ queue.ID e1 = queue.ID e2.
Proof.
  eexists _, _, _. vm_compute. repeat split.
Qed.

(** C8: an [Add] on the damaged queue file. *)
Lemma Add_swallows_load_errors_run :
  files Sim_damaged !! queue.path Sim_queue <> None
  /\ @queue.List Sim_platform Sim_queue Sim_damaged = inl (JSONError "cannot unmarshal")
  /\ (forall id, @queue.Remove Sim_platform Sim_queue id Sim_damaged
                 = (Some (JSONError "cannot unmarshal"), Sim_damaged))
  /\ @queue.Add Sim_platform Sim_queue (now1 Sim_a1) (now2 Sim_a1) (method Sim_a1)
       (target Sim_a1) (body Sim_a1) Sim_damaged
     = @queue.save Sim_platform Sim_queue [entry_of Sim_a1] Sim_damaged
  /\ (@Healthy Sim_platform (queue.path Sim_queue) Sim_damaged ->
      is_Some (@Time_format Sim_platform (now2 Sim_a1)) ->
      exists fs',
        @queue.Add Sim_platform Sim_queue (now1 Sim_a1) (now2 Sim_a1) (method Sim_a1)
          (target Sim_a1) (body Sim_a1) Sim_damaged
        = (None, fs')
        /\ @queue.List Sim_platform Sim_queue fs' = inr [entry_of Sim_a1]).
Proof.
  apply (@Add_swallows_load_errors Sim_platform Sim_queue Sim_damaged
           (JSONError "cannot unmarshal") Sim_a1).
  - vm_compute. reflexivity.
  - discriminate.
Defined.

(** C8 as stated fails: the queue file holds an entry and is damaged
    after it; [Add] does not fail, and the queue it leaves holds the new
    entry alone. *)
Lemma Add_on_damaged_file_counterexample :
  @queue.List Sim_platform Sim_queue Sim_damaged = inl (JSONError "cannot unmarshal")
  /\ exists fs',
       @queue.Add Sim_platform Sim_queue 1000 1001 "POST" "/signals" Nil Sim_damaged
       = (None, fs')
       /\ @queue.List Sim_platform Sim_queue fs'
          = inr [queue.mkQueuedRequest "1000" "POST" "/signals" JNull 1001].
Proof.
  split; [vm_compute; reflexivity |].
  eexists. vm_compute. split; reflexivity.
Qed.


(** C5 as stated fails: with no token file, [Clear] returns an error. *)
Lemma Clear_absent_counterexample :
  @auth.Clear Sim_platform Sim_store Sim_empty
  = (Some (PathError "remove" "/home/agent/.dea/tokens.json" ENOENT), Sim_empty).
Proof. vm_compute. reflexivity. Qed.

(** C3: the flat response of a token endpoint. *)
Lemma flat_response_is_lost_run :
  @api.unwrap Sim_platform (Some (JObj Sim_flat)) = inr api.zeroTokenResponse
  /\ @api.RefreshToken Sim_platform
       (inr (@api.mkResponse Sim_platform 200 (inr (Some (JObj Sim_flat)))))
     = inr api.zeroTokenResponse
  /\ @api.IssueToken Sim_platform
       (inr (@api.mkResponse Sim_platform 200 (inr (Some (JObj Sim_flat)))))
     = inr api.zeroTokenResponse.
Proof.
  apply (@flat_response_is_lost Sim_platform (Some (JObj Sim_flat)) Sim_flat).
  - reflexivity.
  - repeat constructor.
Defined.

(** C2 as stated fails: a connection reset, in the casing the runtime
    reports it, is transient in the words of section 4.3 and for the
    command layer, and is not for the classifier the flusher consults,
    which drops the entry. *)
Lemma flusher_classifier_counterexample :
  spec_transient (Some Sim_reset)
  /\ commands.isNetworkErr (Some Sim_reset) = true
  /\ api.IsNetworkError (Some Sim_reset) = false
  /\ exists fs',
       queue.Flush Sim.Script Sim.Post Sim.Get Sim_queue
         (Sim_queued [Sim_r1]) [Some Sim_reset]
       = ((0%nat, None), fs', [])
       /\ @queue.List Sim_platform Sim_queue fs' = inr [].
Proof.
  split; [apply isNetworkErr_spec; vm_compute; reflexivity |].
  split; [vm_compute; reflexivity |].
  split; [vm_compute; reflexivity |].
  eexists. vm_compute. split; reflexivity.
Qed.

(** C9: two rounds of the loop from a credential that expires in 24
    hours. *)
Lemma StartAutoRefresh_timing_run :
  Forall on_time
    (fst (@auth.run Sim_platform Sim_refresh Sim_elapsed 2 Sim_store Sim_world))
  /\ (forall token,
        @auth.Load Sim_platform Sim_store (auth.w_fs Sim_world) = Some token ->
        auth.ExpiresAt token - 4 * Hour
        <= auth.w_now (@auth.tick Sim_platform Sim_elapsed 0 Sim_world) ->
        exists rest,
          fst (@auth.iteration Sim_platform Sim_refresh Sim_elapsed Sim_store Sim_world)
          = auth.Evaluated
              (auth.w_now (@auth.tick Sim_platform Sim_elapsed 0 Sim_world)) token
              :: auth.Refreshed
                   (auth.w_now
                      (@auth.tick Sim_platform Sim_elapsed 0
                         (@auth.tick Sim_platform Sim_elapsed 0 Sim_world)))
                   token
              :: rest).
Proof.
  apply (@StartAutoRefresh_timing Sim_platform Sim_refresh Sim_elapsed).
  - intros i. unfold Sim_elapsed. lia.
  - let l := eval vm_compute in
              (fst (@auth.run Sim_platform Sim_refresh Sim_elapsed 2 Sim_store Sim_world)) in
    change (Forall fits l).
    repeat constructor; unfold fits, auth.ExpiresAt, maxDuration, Hour, Minute; lia.
Defined.

(** * More of the code *)

(** ** The queue file: [Remove], [Clear], [Len] *)

Section QueueMore.
Context `{Platform}.
Implicit Types (q : queue.Queue) (fs : FS) (a : AddCall)
  (items : list queue.QueuedRequest).

Lemma filter_other_ids id items :
  ~ In id (map queue.ID items) ->
  List.filter (fun item => negb (String.eqb (queue.ID item) id)) items = items.
Proof.
  induction items as [|r items IH]; intros Hnot; [reflexivity |].
  simpl in *. destruct (String.eqb_spec (queue.ID r) id) as [Heq|Hne].
  - destruct Hnot. now left.
  - simpl. f_equal. apply IH. tauto.
Qed.

(** X1.  [Remove] of an identifier that is not in the queue reports no error
    and leaves the list as it is. *)
Theorem Remove_absent_changes_nothing q id fs items :
  Healthy (queue.path q) fs ->
  queue.List q fs = inr items ->
  ~ In id (map queue.ID items) ->
  exists fs', queue.Remove q id fs = (None, fs')
              /\ queue.List q fs' = inr items.
Proof.
  intros Hh Hlist Hnot.
  destruct (Remove_healthy q id fs items Hh Hlist) as (fs' & Hrm & Hl & _).
  exists fs'. split; [exact Hrm |].
  unfold queue.List. rewrite Hl, without_cons, without_nil.
  now rewrite filter_other_ids.
Qed.

(** X2.  [Remove] takes out every entry that has the identifier, leaves the
    others in their order, and after it no entry has the identifier. *)
Theorem Remove_takes_out_every_match q id fs items :
  Healthy (queue.path q) fs ->
  queue.List q fs = inr items ->
  exists fs' rest,
    queue.Remove q id fs = (None, fs')
    /\ queue.List q fs' = inr rest
    /\ rest = List.filter (fun item => negb (String.eqb (queue.ID item) id)) items
    /\ ~ In id (map queue.ID rest).
Proof.
  intros Hh Hlist.
  destruct (Remove_healthy q id fs items Hh Hlist) as (fs' & Hrm & Hl & _).
  rewrite without_cons, without_nil in Hl.
  eexists fs', _. repeat split; [exact Hrm | exact Hl |].
  intros (r & Hid & Hr)%in_map_iff. apply filter_In in Hr as [_ Hr].
  rewrite Hid, String.eqb_refl in Hr. discriminate.
Qed.

(** X3.  [Clear] does not read the queue file: whatever the file held, also
    something that is no queue, afterwards the list is empty. *)
Theorem Clear_empties_the_queue q fs :
  Healthy (queue.path q) fs ->
  exists fs', queue.Clear q fs = (None, fs')
              /\ queue.List q fs' = inr []
              /\ queue.Len q fs' = 0%nat.
Proof.
  intros Hh. destruct (save_healthy q [] fs Hh) as (fs' & Hsave & Hl & _);
    [constructor |].
  exists fs'. unfold queue.Clear, queue.List, queue.Len. now rewrite Hl.
Qed.

(** X4.  [Add], [Remove] and [Clear] change the queue file only when they
    succeed: a call that returns an error leaves the file system as it
    was. *)
Theorem failed_write_changes_nothing q fs :
  (forall t1 t2 m p b e fs',
      queue.Add q t1 t2 m p b fs = (Some e, fs') -> fs' = fs)
  /\ (forall id e fs', queue.Remove q id fs = (Some e, fs') -> fs' = fs)
  /\ (forall e fs', queue.Clear q fs = (Some e, fs') -> fs' = fs).
Proof.
  repeat split.
  - intros t1 t2 m p b e fs'. unfold queue.Add.
    destruct b; simpl; try apply save_error. now intros [= _ <-].
  - intros id e fs'. apply Remove_error.
  - intros e fs'. unfold queue.Clear. apply save_error.
Qed.

(** X5.  Removing the entry an [Add] has just appended, by its identifier,
    gives the list back as it was, when no older entry has that
    identifier. *)
Theorem Add_then_Remove_restores q a fs items :
  Healthy (queue.path q) fs ->
  queue.List q fs = inr items ->
  acceptable a ->
  ~ In (queue.ID (entry_of a)) (map queue.ID items) ->
  exists fs1 fs2,
    queue.Add q (now1 a) (now2 a) (method a) (target a) (body a) fs = (None, fs1)
    /\ queue.Remove q (queue.ID (entry_of a)) fs1 = (None, fs2)
    /\ queue.List q fs2 = inr items.
Proof.
  intros Hh Hlist Ha Hfresh.
  destruct (Add_healthy q a fs items Hh Hlist Ha) as (fs1 & Hadd & Hl1 & Hh1).
  destruct (Remove_healthy q (queue.ID (entry_of a)) fs1 _ Hh1 Hl1)
    as (fs2 & Hrm & Hl2 & _).
  exists fs1, fs2. repeat split; [exact Hadd | exact Hrm |].
  unfold queue.List. rewrite Hl2, without_cons, without_nil, List.filter_app.
  rewrite filter_other_ids by exact Hfresh. simpl.
  now rewrite String.eqb_refl, app_nil_r.
Qed.

End QueueMore.

(** ** The flusher: what it counts and what it leaves *)

Section FlushMore.
Context `{Platform}.
Variable Client : Type.
Variable Post : Client -> string -> json -> option error * Client.
Variable Get : Client -> string -> option error * Client.
Implicit Types (q : queue.Queue) (fs : FS) (c : Client)
  (items : list queue.QueuedRequest).

Local Abbreviation floop := (queue.flush_loop Client Post Get).
Local Abbreviation Flush := (queue.Flush Client Post Get).
Local Abbreviation replays := (replay_all Client Post Get).

Lemma flush_loop_at_most q items n fs c :
  (fst (fst (floop q items n fs c)) <= n + length items)%nat.
Proof.
  revert n fs c; induction items as [|item items IH]; intros n fs c; simpl;
    [lia |].
  destruct (queue.dispatch Client Post Get c item) as [[[e|] c']|].
  - destruct (api.IsNetworkError (Some e)); [simpl; lia |].
    destruct (queue.Remove q (queue.ID item) fs) as [err fs'].
    specialize (IH n fs' c'). lia.
  - destruct (queue.Remove q (queue.ID item) fs) as [err fs'].
    specialize (IH (S n) fs' c'). lia.
  - destruct (queue.Remove q (queue.ID item) fs) as [err fs'].
    specialize (IH n fs' c). lia.
Qed.

(** X6.  [Flush] never reports more than the queue held, whatever the file
    system and the transport do; when the queue cannot be loaded it
    reports 0 with the error and calls neither of them. *)
Theorem Flush_count_is_bounded q fs c :
  (forall items, queue.List q fs = inr items ->
                 (fst (fst (fst (Flush q fs c))) <= length items)%nat)
  /\ (forall err, queue.List q fs = inl err ->
                  Flush q fs c
                  = ((0%nat, Some (ErrMsg ("failed to load queue: " ++ Error err))),
                     fs, c)).
Proof.
  split.
  - intros items Hlist. unfold queue.Flush. rewrite Hlist.
    destruct items as [|item items]; [simpl; lia |].
    pose proof (flush_loop_at_most q (item :: items) 0 fs c) as Hle.
    cbn [length Nat.eqb]. destruct (floop q (item :: items) 0 fs c) as [[n fs'] c'].
    simpl in *. lia.
  - intros err Hlist. unfold queue.Flush. now rewrite Hlist.
Qed.

(** X7.  On a queue file that can be read and written, what [Flush] leaves
    is what was there without the entries of some identifiers: nothing
    is added and the entries that stay keep their order. *)
Theorem Flush_only_removes q fs c items :
  Healthy (queue.path q) fs ->
  queue.List q fs = inr items ->
  exists ids,
    queue.List q (snd (fst (Flush q fs c))) = inr (without ids items).
Proof.
  intros Hh Hlist. unfold queue.Flush. rewrite Hlist.
  destruct items as [|item items].
  - exists []. simpl. exact Hlist.
  - destruct (flush_loop_healthy Client Post Get q (item :: items) 0 fs c _ Hh Hlist)
      as (ids & Hl & _).
    exists ids. cbn [length Nat.eqb].
    destruct (floop q (item :: items) 0 fs c) as [[n fs'] c']. exact Hl.
Qed.

(** The loop goes through the whole list when nothing fails
    transiently. *)
Lemma flush_loop_whole q items n fs c outs c' :
  Healthy (queue.path q) fs ->
  queue.load q fs = inr items ->
  replays c items = (outs, c') ->
  none_transient outs = true ->
  floop q items n fs c
  = ((n + count_delivered outs)%nat, removes q (map queue.ID items) fs, c')
  /\ queue.load q (removes q (map queue.ID items) fs) = inr [].
Proof.
  intros Hh Hload Hrep Hnt. split.
  - pose proof (flush_loop_app Client Post Get q items [] n fs c outs c'
                  Hrep Hnt) as Hloop.
    rewrite app_nil_r in Hloop. exact Hloop.
  - destruct (removes_healthy q (map queue.ID items) fs _ Hh Hload) as [Hl _].
    rewrite Hl. f_equal. apply without_all. intros r Hr. now apply in_map.
Qed.

(** X8.  When no replay fails transiently, [Flush] goes through the whole
    queue: it returns the number of entries delivered, and the queue is
    empty afterwards, the rejected entries and those of an unsupported
    method gone with the delivered ones. *)
Theorem Flush_without_transient_empties q fs c items outs c' :
  Healthy (queue.path q) fs ->
  queue.List q fs = inr items ->
  replays c items = (outs, c') ->
  none_transient outs = true ->
  exists fs',
    Flush q fs c = ((count_delivered outs, None), fs', c')
    /\ queue.List q fs' = inr [].
Proof.
  intros Hh Hlist Hrep Hnt. destruct items as [|item items].
  - exists fs. unfold queue.Flush. rewrite Hlist. simpl in *.
    injection Hrep as <- <-. split; reflexivity.
  - destruct (flush_loop_whole q (item :: items) 0 fs c outs c' Hh Hlist Hrep Hnt)
      as [Hloop Hl].
    exists (removes q (map queue.ID (item :: items)) fs).
    rewrite (Flush_loaded Client Post Get q fs c _ Hlist) by discriminate.
    rewrite Hloop. split; [reflexivity | exact Hl].
Qed.

End FlushMore.

(** ** The authenticated calls *)

Lemma EqFold_refl (s : string) : EqFold s s.
Proof. induction s; constructor; [now left | assumption]. Qed.

Lemma Contains_ContainsFold (s sub : string) : Contains s sub -> ContainsFold s sub.
Proof.
  intros (pre & post & ->). exists pre, sub, post.
  split; [reflexivity | apply EqFold_refl].
Qed.

Lemma Contains_prefix (s kw rest : string) :
  Contains s (kw ++ rest)%string -> Contains s kw.
Proof.
  intros (pre & post & ->). exists pre, (rest ++ post)%string.
  now rewrite append_assoc.
Qed.

(** A keyword of package api that occurs in a text has a keyword of the
    commands occurring there. *)
Lemma api_keyword_covered (kw s : string) :
  In kw api.keywords -> Contains s kw ->
  exists kw', In kw' spec_keywords /\ ContainsFold s kw'.
Proof.
  intros Hin Hc.
  assert (Hkw : exists kw', In kw' spec_keywords /\ Contains s kw').
  { simpl in Hin. destruct Hin as [<-|[<-|[<-|[<-|[<-|[]]]]]].
    - exists "network error"%string. split; [simpl; tauto | exact Hc].
    - exists "connection"%string. split; [simpl; tauto |].
      now apply (Contains_prefix _ "connection" " refused").
    - exists "no such host"%string. split; [simpl; tauto | exact Hc].
    - exists "timeout"%string. split; [simpl; tauto | exact Hc].
    - exists "dial"%string. split; [simpl; tauto | exact Hc]. }
  destruct Hkw as (kw' & Hin' & Hc'). exists kw'.
  split; [exact Hin' | now apply Contains_ContainsFold].
Qed.

(** What [do] wraps in [ErrNetwork] is a network error for both
    classifiers. *)
Lemma wrapped_ErrNetwork_is_transient (cause : string) :
  api.IsNetworkError (Some (ErrMsg ("network error: " ++ cause)%string)) = true
  /\ commands.isNetworkErr (Some (ErrMsg ("network error: " ++ cause)%string)) = true.
Proof.
  assert (Hc : Contains ("network error: " ++ cause)%string "network error")
    by (exists ""%string, (": " ++ cause)%string; reflexivity).
  split.
  - apply IsNetworkError_spec. exists (ErrMsg ("network error: " ++ cause)%string),
      "network error"%string.
    repeat split; [now left | exact Hc].
  - apply isNetworkErr_spec. exists "network error"%string.
    split; [now left | now apply Contains_ContainsFold].
Qed.

Section ClientFacts.
Context `{Platform}.
Variable Net : Type.
Variable NewRequest : string -> string -> option error.
Variable Do : Net -> client.Request -> (error + api.Response) * Net.
Implicit Types (c : client.Client) (fs : FS) (net : Net).

Local Abbreviation do := (client.do Net NewRequest Do).
Local Abbreviation Get := (client.Get Net NewRequest Do).
Local Abbreviation Post := (client.Post Net NewRequest Do).

Lemma do_without_token c method path body fs net :
  client.tokens c fs = ""%string ->
  do c method path body fs net = (inl not_authenticated, net).
Proof. intros Htok. unfold client.do. now rewrite Htok. Qed.

(** A call with a credential hands [request_of] to the transport. *)
Lemma do_sends c method path body fs net :
  client.tokens c fs <> ""%string ->
  NewRequest method (client.baseURL c ++ path)%string = None ->
  do c method path body fs net
  = match Do net (request_of c method path body fs) with
    | (inl err, net') => (inl (ErrMsg ("network error: " ++ Error err)), net')
    | (inr resp, net') =>
        match api.ReadAll resp with
        | inl err => (inl (ErrMsg ("failed to read response: " ++ Error err)), net')
        | inr respBody =>
            let code := api.StatusCode resp in
            if code =? 401 then (inl client.ErrUnauthorized, net')
            else if code =? 429 then (inl client.ErrRateLimited, net')
            else if (code =? 200) || (code =? 201) || (code =? 202) || (code =? 204)
            then (inr respBody, net')
            else (inl (ErrMsg ("API error " ++ Sprintf_d code ++ ": "
                               ++ text respBody)), net')
        end
    end.
Proof.
  intros Htok Hreq. unfold client.do, request_of.
  destruct (String.eqb_spec (client.tokens c fs) "") as [Heq|_]; [congruence |].
  now rewrite Hreq.
Qed.

Lemma do_offline c method path body fs net cause net' :
  client.tokens c fs <> ""%string ->
  NewRequest method (client.baseURL c ++ path)%string = None ->
  Do net (request_of c method path body fs) = (inl cause, net') ->
  do c method path body fs net
  = (inl (ErrMsg ("network error: " ++ Error cause)), net').
Proof. intros Htok Hreq Hdown. now rewrite do_sends, Hdown. Qed.

Lemma do_answered_200 c method path body fs net resp net' respBody :
  client.tokens c fs <> ""%string ->
  NewRequest method (client.baseURL c ++ path)%string = None ->
  Do net (request_of c method path body fs) = (inr resp, net') ->
  api.ReadAll resp = inr respBody ->
  api.StatusCode resp = 200 ->
  do c method path body fs net = (inr respBody, net').
Proof.
  intros Htok Hreq Hup Hread Hcode. now rewrite do_sends, Hup, Hread, Hcode.
Qed.

(** X9.  With no credential in the token store, [Get] and [Post] fail with
    "not authenticated" and send nothing; the error is no network error
    for either classifier, so no caller queues the request. *)
Theorem call_without_token_sends_nothing
    (store : auth.TokenStore) baseURL timeout path body fs net :
  auth.Load store fs = None ->
  body <> Unencodable ->
  Get (client.NewClient baseURL timeout (auth.GetToken store)) path fs net
  = (inl not_authenticated, net)
  /\ Post (client.NewClient baseURL timeout (auth.GetToken store)) path body fs net
     = (inl not_authenticated, net)
  /\ api.IsNetworkError (Some not_authenticated) = false
  /\ commands.isNetworkErr (Some not_authenticated) = false.
Proof.
  intros Hload Hbody.
  assert (Htok : client.tokens
                   (client.NewClient baseURL timeout (auth.GetToken store)) fs
                 = ""%string)
    by (simpl; unfold auth.GetToken; now rewrite Hload).
  split; [now apply do_without_token |].
  split; [| split; vm_compute; reflexivity].
  unfold client.Post. destruct body; simpl; try congruence;
    now apply do_without_token.
Qed.

(** X10.  A call that reaches the network and finds it failing returns an
    error that both classifiers take for a network error.  What it
    handed to the transport is the method and the URL of the call, the
    credential as a bearer token, and the body, marked as JSON when
    there is one. *)
Theorem transport_failure_is_network_error
    c method path body fs net cause net' :
  client.tokens c fs <> ""%string ->
  NewRequest method (client.baseURL c ++ path)%string = None ->
  Do net (client.mkRequest method (client.baseURL c ++ path)
            (Some ("Bearer " ++ client.tokens c fs)%string)
            (match body with Some _ => Some "application/json"%string | None => None end)
            body)
  = (inl cause, net') ->
  exists e,
    do c method path body fs net = (inl e, net')
    /\ api.IsNetworkError (Some e) = true
    /\ commands.isNetworkErr (Some e) = true.
Proof.
  intros Htok Hreq Hdown. eexists. split.
  - exact (do_offline c method path body fs net cause net' Htok Hreq Hdown).
  - apply wrapped_ErrNetwork_is_transient.
Qed.

(** X11.  A call whose response was read succeeds exactly on the statuses 200,
    201, 202 and 204, and then returns the body as it was read. *)
Theorem call_succeeds_exactly_on_2xx
    c method path body fs net resp net' respBody :
  client.tokens c fs <> ""%string ->
  NewRequest method (client.baseURL c ++ path)%string = None ->
  (forall req, Do net req = (inr resp, net')) ->
  api.ReadAll resp = inr respBody ->
  ((exists b, fst (do c method path body fs net) = inr b)
   <-> In (api.StatusCode resp) [200; 201; 202; 204])
  /\ (forall b, fst (do c method path body fs net) = inr b -> b = respBody).
Proof.
  intros Htok Hreq Hup Hread. rewrite do_sends, Hup, Hread by assumption.
  cbv zeta.
  destruct (Z.eqb_spec (api.StatusCode resp) 401) as [E401|N401];
    [rewrite E401; simpl; split;
     [split; [intros [b [=]] | intros Hin; repeat destruct Hin as [Hin|Hin]; lia]
     | intros b [=]] |].
  destruct (Z.eqb_spec (api.StatusCode resp) 429) as [E429|N429];
    [rewrite E429; simpl; split;
     [split; [intros [b [=]] | intros Hin; repeat destruct Hin as [Hin|Hin]; lia]
     | intros b [=]] |].
  destruct (Z.eqb_spec (api.StatusCode resp) 200) as [E200|N200];
    [simpl; split; [split; [intros _; left; lia | eauto] | now intros b [= <-]] |].
  destruct (Z.eqb_spec (api.StatusCode resp) 201) as [E201|N201];
    [simpl; split; [split; [intros _; right; left; lia | eauto] | now intros b [= <-]] |].
  destruct (Z.eqb_spec (api.StatusCode resp) 202) as [E202|N202];
    [simpl; split;
     [split; [intros _; right; right; left; lia | eauto] | now intros b [= <-]] |].
  destruct (Z.eqb_spec (api.StatusCode resp) 204) as [E204|N204];
    [simpl; split;
     [split; [intros _; right; right; right; left; lia | eauto] | now intros b [= <-]] |].
  simpl. split; [| intros b [=]].
  split; [intros [b [=]] |]. intros Hin. simpl in Hin. lia.
Qed.

(** X12.  An answer of the service that [do] turns into "API error" carries
    the text of the response: when that text has one of the keywords
    of the classifiers in it, the answer is taken for a network error,
    by both of them. *)
Theorem server_error_can_look_offline
    c method path body fs net resp net' respBody kw :
  client.tokens c fs <> ""%string ->
  NewRequest method (client.baseURL c ++ path)%string = None ->
  Do net (request_of c method path body fs) = (inr resp, net') ->
  api.ReadAll resp = inr respBody ->
  ~ In (api.StatusCode resp) [401; 429; 200; 201; 202; 204] ->
  In kw api.keywords ->
  Contains (text respBody) kw ->
  exists e,
    do c method path body fs net = (inl e, net')
    /\ api.IsNetworkError (Some e) = true
    /\ commands.isNetworkErr (Some e) = true.
Proof.
  intros Htok Hreq Hup Hread Hcode Hkw (pre & post & Htext).
  rewrite do_sends, Hup, Hread by assumption. cbv zeta.
  destruct (Z.eqb_spec (api.StatusCode resp) 401); [exfalso; apply Hcode; simpl; lia |].
  destruct (Z.eqb_spec (api.StatusCode resp) 429); [exfalso; apply Hcode; simpl; lia |].
  destruct (Z.eqb_spec (api.StatusCode resp) 200); [exfalso; apply Hcode; simpl; lia |].
  destruct (Z.eqb_spec (api.StatusCode resp) 201); [exfalso; apply Hcode; simpl; lia |].
  destruct (Z.eqb_spec (api.StatusCode resp) 202); [exfalso; apply Hcode; simpl; lia |].
  destruct (Z.eqb_spec (api.StatusCode resp) 204); [exfalso; apply Hcode; simpl; lia |].
  exists (ErrMsg ("API error " ++ Sprintf_d (api.StatusCode resp)
                  ++ ": " ++ text respBody)%string).
  split; [reflexivity |].
  assert (Hapi : api.IsNetworkError
                   (Some (ErrMsg ("API error " ++ Sprintf_d (api.StatusCode resp)
                                  ++ ": " ++ text respBody)%string)) = true).
  { apply IsNetworkError_spec. eexists _, kw. split; [reflexivity |].
    split; [exact Hkw |]. simpl. rewrite Htext.
    exists ("API error " ++ Sprintf_d (api.StatusCode resp) ++ ": " ++ pre)%string,
      post.
    now rewrite !append_assoc. }
  split; [exact Hapi |]. apply isNetworkErr_spec. simpl. rewrite Htext.
  apply (api_keyword_covered kw); [exact Hkw |].
  exists ("API error " ++ Sprintf_d (api.StatusCode resp) ++ ": " ++ pre)%string,
    post.
  now rewrite !append_assoc.
Qed.

End ClientFacts.

(** ** The two files of [~/.dea] *)

Lemma append_inj_l (s a b : string) : (s ++ a = s ++ b)%string -> a = b.
Proof. induction s as [|c s IH]; simpl; [auto | intros [= Heq]; auto]. Qed.

Section TwoFiles.
Context `{Platform}.
Implicit Types (q : queue.Queue) (s : auth.TokenStore) (fs : FS).

Lemma paths_differ : auth.path auth.NewTokenStore <> queue.path queue.New.
Proof.
  unfold auth.NewTokenStore, queue.New, config.TokensPath, config.QueuePath,
    config.Join. simpl. intros Heq. apply append_inj_l in Heq. discriminate.
Qed.

Lemma WriteFile_other name name' d fs :
  name' <> name ->
  ReadFile name' (snd (WriteFile name d fs)) = ReadFile name' fs.
Proof.
  intros Hne. unfold WriteFile, ReadFile.
  destruct (files fs !! name) as [f|].
  - destruct (writable f); simpl; [| reflexivity].
    now rewrite lookup_insert_ne by congruence.
  - destruct (dir_writable fs); simpl; [| reflexivity].
    now rewrite lookup_insert_ne by congruence.
Qed.

Lemma Remove_other name name' fs :
  name' <> name ->
  ReadFile name' (snd (Remove name fs)) = ReadFile name' fs.
Proof.
  intros Hne. unfold Remove, ReadFile.
  destruct (files fs !! name) as [f|]; [| reflexivity].
  destruct (dir_writable fs); simpl; [| reflexivity].
  now rewrite lookup_delete_ne by congruence.
Qed.

Lemma queue_save_other q items name fs :
  name <> queue.path q ->
  ReadFile name (snd (queue.save q items fs)) = ReadFile name fs.
Proof.
  intros Hne. unfold queue.save, MkdirAll.
  destruct (mkdir_ok fs); [| reflexivity].
  destruct (queue.MarshalIndent items); [reflexivity |].
  now apply WriteFile_other.
Qed.

Lemma queue_Remove_other q id name fs :
  name <> queue.path q ->
  ReadFile name (snd (queue.Remove q id fs)) = ReadFile name fs.
Proof.
  intros Hne. unfold queue.Remove.
  destruct (queue.load q fs); [reflexivity |]. now apply queue_save_other.
Qed.

Lemma queue_Add_other q t1 t2 m p b name fs :
  name <> queue.path q ->
  ReadFile name (snd (queue.Add q t1 t2 m p b fs)) = ReadFile name fs.
Proof.
  intros Hne. unfold queue.Add.
  destruct b; simpl; try reflexivity; now apply queue_save_other.
Qed.

Lemma auth_Save_other s tok name fs :
  name <> auth.path s ->
  ReadFile name (snd (auth.Save s tok fs)) = ReadFile name fs.
Proof.
  intros Hne. unfold auth.Save, MkdirAll.
  destruct (mkdir_ok fs); [| reflexivity].
  destruct (auth.MarshalIndent tok); [reflexivity |].
  now apply WriteFile_other.
Qed.

Lemma Load_reads s fs fs' :
  ReadFile (auth.path s) fs' = ReadFile (auth.path s) fs ->
  auth.Load s fs' = auth.Load s fs.
Proof. unfold auth.Load. now intros ->. Qed.

Lemma List_reads q fs fs' :
  ReadFile (queue.path q) fs' = ReadFile (queue.path q) fs ->
  queue.List q fs' = queue.List q fs.
Proof. unfold queue.List, queue.load. now intros ->. Qed.

(** X13.  The queue and the token store of a run keep to their own files:
    no operation of the queue changes what [Load] returns, changing or
    removing the credential changes nothing in the queue, and this
    holds also for the calls that fail. *)
Theorem queue_and_token_store_are_separate fs :
  (forall t1 t2 m p b,
      auth.Load auth.NewTokenStore (snd (queue.Add queue.New t1 t2 m p b fs))
      = auth.Load auth.NewTokenStore fs)
  /\ (forall id,
         auth.Load auth.NewTokenStore (snd (queue.Remove queue.New id fs))
         = auth.Load auth.NewTokenStore fs)
  /\ auth.Load auth.NewTokenStore (snd (queue.Clear queue.New fs))
     = auth.Load auth.NewTokenStore fs
  /\ (forall tok,
         queue.List queue.New (snd (auth.Save auth.NewTokenStore tok fs))
         = queue.List queue.New fs)
  /\ queue.List queue.New (snd (auth.Clear auth.NewTokenStore fs))
     = queue.List queue.New fs.
Proof.
  pose proof paths_differ as Hne.
  repeat split; intros.
  - apply Load_reads. now apply queue_Add_other.
  - apply Load_reads. now apply queue_Remove_other.
  - apply Load_reads. unfold queue.Clear. now apply queue_save_other.
  - apply List_reads. apply auth_Save_other. congruence.
  - apply List_reads. unfold auth.Clear. apply Remove_other. congruence.
Qed.

End TwoFiles.

(** ** The flusher on the client of client.go *)

Section FlushClient.
Context `{Platform}.
Variable Net : Type.
Variable NewRequest : string -> string -> option error.
Variable Do : Net -> client.Request -> (error + api.Response) * Net.
Implicit Types (c : client.Client) (q : queue.Queue) (fs : FS) (net : Net)
  (items : list queue.QueuedRequest) (store : auth.TokenStore).

Local Abbreviation fPost := (client.flush_Post Net NewRequest Do).
Local Abbreviation fGet := (client.flush_Get Net NewRequest Do).
Local Abbreviation cloop := (client.flush_loop Net NewRequest Do).
Local Abbreviation cFlush := (client.Flush Net NewRequest Do).

(** The calls of the flusher read the file system for the credential
    only. *)
Lemma flush_calls_read_token c fs fs0 :
  client.tokens c fs = client.tokens c fs0 ->
  fPost c fs = fPost c fs0 /\ fGet c fs = fGet c fs0.
Proof.
  intros Htok.
  unfold client.flush_Post, client.flush_Get, client.Post, client.Get, client.do.
  now rewrite Htok.
Qed.

(** When the removals leave the credential alone, the loop on the
    client is the loop of [queue.flush_loop] on the transport that
    reads the credential once. *)
Lemma client_flush_loop_agrees c q items n fs fs0 net :
  (forall id fs', client.tokens c (snd (queue.Remove q id fs')) = client.tokens c fs') ->
  client.tokens c fs = client.tokens c fs0 ->
  cloop c q items n fs net
  = queue.flush_loop Net (fPost c fs0) (fGet c fs0) q items n fs net.
Proof.
  intros Hframe. revert n fs net.
  induction items as [|item items IH]; intros n fs net Htok; [reflexivity |].
  simpl. destruct (flush_calls_read_token c fs fs0 Htok) as [-> ->].
  assert (Hnext : forall fs', fs' = snd (queue.Remove q (queue.ID item) fs) ->
                              client.tokens c fs' = client.tokens c fs0)
    by (intros fs' ->; now rewrite Hframe).
  destruct (queue.dispatch Net (fPost c fs0) (fGet c fs0) net item)
    as [[[e|] net']|].
  - destruct (api.IsNetworkError (Some e)); [reflexivity |].
    destruct (queue.Remove q (queue.ID item) fs) as [err fs'] eqn:Hrm.
    apply IH, Hnext. first [now rewrite Hrm | reflexivity].
  - destruct (queue.Remove q (queue.ID item) fs) as [err fs'] eqn:Hrm.
    apply IH, Hnext. first [now rewrite Hrm | reflexivity].
  - destruct (queue.Remove q (queue.ID item) fs) as [err fs'] eqn:Hrm.
    apply IH, Hnext. first [now rewrite Hrm | reflexivity].
Qed.

Lemma client_Flush_agrees c q fs net :
  (forall id fs', client.tokens c (snd (queue.Remove q id fs')) = client.tokens c fs') ->
  cFlush c q fs net = queue.Flush Net (fPost c fs) (fGet c fs) q fs net.
Proof.
  intros Hframe. unfold client.Flush, queue.Flush.
  destruct (queue.List q fs) as [err|items]; [reflexivity |].
  destruct (length items =? 0)%nat; [reflexivity |].
  now rewrite (client_flush_loop_agrees c q items 0 fs fs net Hframe eq_refl).
Qed.

(** The client built on a token store in a file of its own. *)
Lemma GetToken_frame store q id fs :
  auth.path store <> queue.path q ->
  auth.GetToken store (snd (queue.Remove q id fs)) = auth.GetToken store fs.
Proof.
  intros Hne. unfold auth.GetToken.
  now rewrite (Load_reads store fs _ (queue_Remove_other q id _ fs Hne)).
Qed.

(** Replays that are all refused for a reason that is no network
    error: none is transient and none is delivered. *)
Lemma replay_all_refused (P : Net -> string -> json -> option error * Net)
    (G : Net -> string -> option error * Net) (I : Net -> Prop) net items :
  (forall n path body, I n ->
     exists e n', P n path body = (Some e, n') /\ I n'
                  /\ api.IsNetworkError (Some e) = false) ->
  (forall n path, I n ->
     exists e n', G n path = (Some e, n') /\ I n'
                  /\ api.IsNetworkError (Some e) = false) ->
  I net ->
  exists outs net',
    replay_all Net P G net items = (outs, net') /\ I net'
    /\ none_transient outs = true /\ count_delivered outs = 0%nat.
Proof.
  intros HP HG. revert net.
  induction items as [|item items IH]; intros net HI.
  - exists [], net. now repeat split.
  - simpl. unfold queue.dispatch.
    destruct (String.eqb (queue.Method item) "POST").
    + destruct (HP net (queue.Path item) (queue.Body item) HI)
        as (e & n' & -> & HI' & He).
      destruct (IH n' HI') as (outs & net' & -> & HI'' & Hnt & Hcnt).
      exists (Some (Some e) :: outs), net'.
      repeat split; [exact HI'' | simpl; now rewrite He | exact Hcnt].
    + destruct (String.eqb (queue.Method item) "GET").
      * destruct (HG net (queue.Path item) HI) as (e & n' & -> & HI' & He).
        destruct (IH n' HI') as (outs & net' & -> & HI'' & Hnt & Hcnt).
        exists (Some (Some e) :: outs), net'.
        repeat split; [exact HI'' | simpl; now rewrite He | exact Hcnt].
      * destruct (IH net HI) as (outs & net' & -> & HI'' & Hnt & Hcnt).
        exists (None :: outs), net'. now repeat split.
Qed.

(** [Flush] on the client goes through the whole queue when no replay
    fails transiently. *)
Lemma client_Flush_whole c q fs net items outs net' :
  (forall id fs', client.tokens c (snd (queue.Remove q id fs')) = client.tokens c fs') ->
  Healthy (queue.path q) fs ->
  queue.List q fs = inr items ->
  replay_all Net (fPost c fs) (fGet c fs) net items = (outs, net') ->
  none_transient outs = true ->
  exists fs',
    cFlush c q fs net = ((count_delivered outs, None), fs', net')
    /\ queue.List q fs' = inr [].
Proof.
  intros Hframe Hh Hlist Hrep Hnt. unfold client.Flush. rewrite Hlist.
  destruct items as [|item items].
  - exists fs. simpl in *. injection Hrep as <- <-. split; [reflexivity | exact Hlist].
  - cbn [length Nat.eqb].
    rewrite (client_flush_loop_agrees c q (item :: items) 0 fs fs net Hframe eq_refl).
    destruct (flush_loop_whole Net (fPost c fs) (fGet c fs) q (item :: items) 0 fs net
                outs net' Hh Hlist Hrep Hnt) as [-> Hl].
    eexists. split; [reflexivity | exact Hl].
Qed.

(** X14.  With no credential in the token store, [Flush] sends nothing and
    still goes through the whole queue: every entry is refused with
    "not authenticated", which is no network error, and removed.  It
    returns 0 and no error, and the queue is empty afterwards. *)
Theorem Flush_logged_out_discards_queue store q baseURL timeout fs net items :
  auth.path store <> queue.path q ->
  Healthy (queue.path q) fs ->
  queue.List q fs = inr items ->
  auth.Load store fs = None ->
  exists fs',
    cFlush (client.NewClient baseURL timeout (auth.GetToken store)) q fs net
    = ((0%nat, None), fs', net)
    /\ queue.List q fs' = inr [].
Proof.
  intros Hne Hh Hlist Hload.
  set (c := client.NewClient baseURL timeout (auth.GetToken store)).
  assert (Htok : client.tokens c fs = ""%string)
    by (simpl; unfold auth.GetToken; now rewrite Hload).
  assert (Hframe : forall id fs', client.tokens c (snd (queue.Remove q id fs'))
                                  = client.tokens c fs')
    by (intros id fs'; simpl; now apply GetToken_frame).
  destruct (replay_all_refused (fPost c fs) (fGet c fs) (fun n => n = net) net items)
    as (outs & net' & Hrep & -> & Hnt & Hcnt); [| | reflexivity |].
  - intros n path body ->. exists not_authenticated, net.
    unfold client.flush_Post, client.Post. simpl Marshal. cbv iota.
    rewrite (do_without_token Net NewRequest Do c _ _ _ fs net Htok).
    now repeat split.
  - intros n path ->. exists not_authenticated, net.
    unfold client.flush_Get, client.Get.
    rewrite (do_without_token Net NewRequest Do c _ _ _ fs net Htok).
    now repeat split.
  - destruct (client_Flush_whole c q fs net items outs net Hframe Hh Hlist Hrep Hnt)
      as (fs' & HF & Hl).
    exists fs'. now rewrite HF, Hcnt.
Qed.

(** X15.  A service that answers every request with 401 or 429 empties the
    queue as well: "token expired" and "rate limited" are no network
    errors, so [Flush] removes each entry it was refused, returns 0 and
    no error, and nothing is left to retry. *)
Theorem Flush_refused_discards_queue
    store q baseURL timeout fs net items token :
  auth.path store <> queue.path q ->
  Healthy (queue.path q) fs ->
  queue.List q fs = inr items ->
  auth.Load store fs = Some token ->
  auth.WorkspaceToken token <> ""%string ->
  (forall method url, NewRequest method url = None) ->
  (forall n req, exists resp n' b,
      Do n req = (inr resp, n') /\ api.ReadAll resp = inr b
      /\ (api.StatusCode resp = 401 \/ api.StatusCode resp = 429)) ->
  exists fs' net',
    cFlush (client.NewClient baseURL timeout (auth.GetToken store)) q fs net
    = ((0%nat, None), fs', net')
    /\ queue.List q fs' = inr [].
Proof.
  intros Hne Hh Hlist Hload Htoken Hreq Hdo.
  set (c := client.NewClient baseURL timeout (auth.GetToken store)).
  assert (Htok : client.tokens c fs = auth.WorkspaceToken token)
    by (simpl; unfold auth.GetToken; now rewrite Hload).
  assert (Hcall : forall method path body n,
            exists e n', client.do Net NewRequest Do c method path body fs n
                         = (inl e, n')
                         /\ api.IsNetworkError (Some e) = false).
  { intros method path body n. unfold client.do. rewrite Htok.
    destruct (String.eqb_spec (auth.WorkspaceToken token) "") as [|_];
      [contradiction |].
    rewrite Hreq.
    match goal with |- context [Do n ?r] =>
      destruct (Hdo n r) as (resp & n' & b & -> & -> & [-> | ->]) end; simpl.
    - exists client.ErrUnauthorized, n'.
      split; [reflexivity | vm_compute; reflexivity].
    - exists client.ErrRateLimited, n'.
      split; [reflexivity | vm_compute; reflexivity]. }
  assert (Hframe : forall id fs', client.tokens c (snd (queue.Remove q id fs'))
                                  = client.tokens c fs')
    by (intros id fs'; simpl; now apply GetToken_frame).
  destruct (replay_all_refused (fPost c fs) (fGet c fs) (fun _ => True) net items)
    as (outs & net' & Hrep & _ & Hnt & Hcnt); [| | exact I |].
  - intros n path body _. unfold client.flush_Post, client.Post.
    simpl Marshal. cbv iota.
    destruct (Hcall "POST"%string path (Some body) n) as (e & n' & -> & He).
    exists e, n'. now repeat split.
  - intros n path _. unfold client.flush_Get, client.Get.
    destruct (Hcall "GET"%string path None n) as (e & n' & -> & He).
    exists e, n'. now repeat split.
  - destruct (client_Flush_whole c q fs net items outs net' Hframe Hh Hlist Hrep Hnt)
      as (fs' & HF & Hl).
    exists fs', net'. now rewrite HF, Hcnt.
Qed.

End FlushClient.

(** ** The two classifiers side by side *)

(** X16.  Whatever the classifier of package api takes for a network error,
    the classifier of the commands does too: a request that [Flush]
    would keep for a retry is one the commands would queue. *)
Theorem api_classifier_is_the_narrower (err : option error) :
  api.IsNetworkError err = true -> commands.isNetworkErr err = true.
Proof.
  intros (e & kw & -> & Hin & Hc)%IsNetworkError_spec.
  apply isNetworkErr_spec. simpl. now apply (api_keyword_covered kw).
Qed.

(** ** The token store: what a write leaves *)

Section TokenStoreMore.
Context `{Platform}.
Implicit Types (s : auth.TokenStore) (fs : FS) (C : auth.TokenData).

Lemma auth_write_healthy s (tok : option auth.TokenData) d fs :
  Healthy (auth.path s) fs ->
  auth.MarshalIndent tok = inr d ->
  exists fs', auth.Save s tok fs = (None, fs')
              /\ ReadFile (auth.path s) fs' = inr d
              /\ Healthy (auth.path s) fs'.
Proof.
  intros [Hdir Hfile] Hd. unfold auth.Save, MkdirAll. rewrite Hdir, Hd.
  unfold WriteFile. destruct (files fs !! auth.path s) as [f|] eqn:Hf.
  - destruct Hfile as [Hr Hw]. rewrite Hw. eexists. split; [reflexivity |].
    unfold ReadFile, Healthy. simpl. rewrite lookup_insert_eq. simpl.
    rewrite Hr. auto.
  - rewrite Hfile. eexists. split; [reflexivity |].
    unfold ReadFile, Healthy. simpl. rewrite lookup_insert_eq. simpl. auto.
Qed.

(** On a token file that can be read and written, [Save] of a
    credential whose expiry can be written succeeds and [Load] reads
    the credential back. *)
Lemma Save_healthy s C fs :
  Healthy (auth.path s) fs ->
  is_Some (Time_format (auth.ExpiresAt C)) ->
  exists fs', auth.Save s (Some C) fs = (None, fs')
              /\ auth.Load s fs' = Some C
              /\ Healthy (auth.path s) fs'.
Proof.
  intros Hh [e He].
  assert (Hd : exists d, auth.MarshalIndent (Some C) = inr d).
  { unfold auth.MarshalIndent, auth.document. rewrite He. simpl. eauto. }
  destruct Hd as [d Hd].
  destruct (auth_write_healthy s (Some C) d fs Hh Hd) as (fs' & Hsave & Hread & Hh').
  exists fs'. repeat split; [exact Hsave | | apply Hh' | apply Hh'].
  unfold auth.Load. rewrite Hread.
  now rewrite (auth_Unmarshal_MarshalIndent C d Hd).
Qed.

(** X17.  [Save] of a nil credential writes [null], and what [Load] then
    returns is not nil: it is the credential with every field empty,
    for which [GetToken] gives the empty string. *)
Theorem Save_nil_then_Load s fs :
  Healthy (auth.path s) fs ->
  exists fs', auth.Save s None fs = (None, fs')
              /\ auth.Load s fs' = Some auth.zeroTokenData
              /\ auth.GetToken s fs' = ""%string.
Proof.
  intros Hh.
  destruct (auth_write_healthy s None (json_render JNull) fs Hh eq_refl)
    as (fs' & Hsave & Hread & _).
  assert (Hload : auth.Load s fs' = Some auth.zeroTokenData).
  { unfold auth.Load, auth.Unmarshal. now rewrite Hread, json_parse_render. }
  exists fs'. unfold auth.GetToken. now rewrite Hload.
Qed.

(** A [Save] that fails leaves the token file as it was. *)
Lemma auth_Save_error s tok fs e fs' :
  auth.Save s tok fs = (Some e, fs') -> fs' = fs.
Proof.
  unfold auth.Save, MkdirAll. destruct (mkdir_ok fs); [| now intros [=]].
  destruct (auth.MarshalIndent tok); [now intros [=] |].
  apply WriteFile_error.
Qed.

End TokenStoreMore.

(** ** The commands *)

Lemma isGovernanceRejection_spec (msg : string) :
  root.isGovernanceRejection msg = true
  <-> exists kw, In kw governance_keywords /\ ContainsFold msg kw.
Proof.
  unfold root.isGovernanceRejection, governance_keywords.
  rewrite existsb_exists. split.
  - intros (kw & Hin & Hc). exists kw. split; [exact Hin |].
    now apply containsIgnoreCase_spec.
  - intros (kw & Hin & Hc). exists kw. split; [exact Hin |].
    now apply containsIgnoreCase_spec.
Qed.

Lemma isValidSignalType_spec (t : string) :
  root.isValidSignalType t = true <-> In t root.validSignalTypes.
Proof.
  unfold root.isValidSignalType. rewrite existsb_exists. split.
  - intros (v & Hin & Heq). apply String.eqb_eq in Heq. now subst.
  - intros Hin. exists t. split; [exact Hin | apply String.eqb_refl].
Qed.

Section Commands.
Context `{Platform}.
Variable Net : Type.
Variable NewRequest : string -> string -> option error.
Variable Do : Net -> client.Request -> (error + api.Response) * Net.
Variable Quote : string -> string.
Variable len : bytes -> nat.
Variable FormatUTC : Time -> string.
Implicit Types (g : root.Globals) (fs : FS) (net : Net)
  (items : list queue.QueuedRequest) (tok : auth.TokenData).

Local Abbreviation Post := (client.Post Net NewRequest Do).
Local Abbreviation apiPost := (root.apiPost Net NewRequest Do).
Local Abbreviation signal := (root.signal Net NewRequest Do Quote).
Local Abbreviation transition := (root.transition Net NewRequest Do Quote len).
Local Abbreviation auth_refresh := (root.auth_refresh Net NewRequest Do FormatUTC).
Local Abbreviation cFlush := (client.Flush Net NewRequest Do).

(** X18.  [apiPost] returns the error of the call as it is.  It queues the
    request when, and only when, the classifier of package api takes
    the error for a network error: then the request is the last entry
    of the queue, as a POST to the same path with the same body; for
    any other error the queue file is not touched. *)
Theorem apiPost_queues_network_errors g t1 t2 path body fs net items e net' :
  Healthy (queue.path (root.offQueue g)) fs ->
  queue.List (root.offQueue g) fs = inr items ->
  is_Some (Time_format t2) ->
  Post (root.apiClient g) path body fs net = (inl e, net') ->
  (api.IsNetworkError (Some e) = true ->
   exists fs',
     apiPost g t1 t2 path body fs net
     = (inl e, [Stdout root.queued_offline], fs', net')
     /\ queue.List (root.offQueue g) fs'
        = inr (items ++ [entry_of (mkAddCall t1 t2 "POST" path body)]))
  /\ (api.IsNetworkError (Some e) = false ->
      apiPost g t1 t2 path body fs net = (inl e, [], fs, net')).
Proof.
  intros Hh Hlist Ht2 Hpost. unfold root.apiPost. rewrite Hpost. split.
  - intros Hnet. rewrite Hnet.
    assert (Hacc : acceptable (mkAddCall t1 t2 "POST" path body)).
    { split; [| exact Ht2]. simpl. intros ->.
      unfold client.Post in Hpost. simpl in Hpost. injection Hpost as <- _.
      vm_compute in Hnet. discriminate. }
    destruct (Add_healthy _ _ fs items Hh Hlist Hacc) as (fs' & Hadd & Hl & _).
    simpl in Hadd. rewrite Hadd. exists fs'. split; [reflexivity | exact Hl].
  - intros Hnet. now rewrite Hnet.
Qed.

(** X19.  The [signal] command checks its flags before it calls the service:
    with an empty card, an empty content or a type that is none of the
    four valid ones it returns an error, sends nothing and queues
    nothing. *)
Theorem signal_validates_before_sending g t1 t2 cardID signalType content fs net tok :
  auth.Load (root.tokenStore g) fs = Some tok ->
  cardID = ""%string \/ content = ""%string
  \/ ~ In signalType root.validSignalTypes ->
  exists e,
    signal g t1 t2 cardID signalType content fs net
    = (Return (Some e), [], fs, net).
Proof.
  intros Hload Hbad. unfold root.signal. rewrite Hload.
  destruct (String.eqb cardID "") eqn:Hcard; [eauto |].
  destruct (String.eqb signalType "") eqn:Htype; [eauto |].
  destruct (String.eqb content "") eqn:Hcontent; [eauto |].
  destruct (root.isValidSignalType signalType) eqn:Hvalid; [| simpl; eauto].
  exfalso. destruct Hbad as [-> | [-> | Hnot]]; try discriminate.
  now apply Hnot, isValidSignalType_spec.
Qed.

(** A signal that passes the checks reaches [Post]. *)
Lemma signal_sends g t1 t2 cardID signalType content fs net tok :
  auth.Load (root.tokenStore g) fs = Some tok ->
  cardID <> ""%string -> content <> ""%string ->
  In signalType root.validSignalTypes ->
  signal g t1 t2 cardID signalType content fs net
  = match Post (root.apiClient g) root.PathSignals
            (Encodable (root.signal_body cardID signalType content)) fs net with
    | (inl err, net') =>
        if commands.isNetworkErr (Some err) then
          match queue.Add (root.offQueue g) t1 t2 "POST" root.PathSignals
                  (Encodable (root.signal_body cardID signalType content)) fs with
          | (None, fs') => (Return None, [Stdout root.queued_offline], fs', net')
          | (Some _, fs') => (Return None, [], fs', net')
          end
        else
          (Return (Some (ErrMsg ("failed to emit signal: " ++ Error err)%string)),
           [], fs, net')
    | (inr _, net') =>
        (Return None,
         [Stdout ("Signal emitted: [" ++ signalType ++ "] on card " ++ cardID)%string],
         fs, net')
    end.
Proof.
  intros Hload Hcard Hcontent Hin. unfold root.signal. rewrite Hload.
  destruct (String.eqb_spec cardID "") as [|_]; [contradiction |].
  destruct (String.eqb_spec content "") as [|_]; [contradiction |].
  apply isValidSignalType_spec in Hin as Hvalid. rewrite Hvalid.
  destruct (String.eqb_spec signalType "") as [->|_]; [discriminate |].
  reflexivity.
Qed.

(** What the [signal] command does when the network is down. *)
Lemma signal_offline endpoint timeout t1 t2 cardID signalType content
    fs net tok cause net' :
  auth.Load auth.NewTokenStore fs = Some tok ->
  auth.WorkspaceToken tok <> ""%string ->
  cardID <> ""%string -> content <> ""%string ->
  In signalType root.validSignalTypes ->
  NewRequest "POST" (endpoint ++ root.PathSignals)%string = None ->
  Do net (client.mkRequest "POST" (endpoint ++ root.PathSignals)
            (Some ("Bearer " ++ auth.WorkspaceToken tok)%string)
            (Some "application/json"%string)
            (Some (root.signal_body cardID signalType content)))
  = (inl cause, net') ->
  signal (root.initGlobals endpoint timeout) t1 t2 cardID signalType content fs net
  = match queue.Add queue.New t1 t2 "POST" root.PathSignals
            (Encodable (root.signal_body cardID signalType content)) fs with
    | (None, fs') => (Return None, [Stdout root.queued_offline], fs', net')
    | (Some _, fs') => (Return None, [], fs', net')
    end.
Proof.
  intros Hload Htoken Hcard Hcontent Hin Hreq Hdown.
  rewrite (signal_sends _ t1 t2 cardID signalType content fs net tok)
    by assumption.
  assert (Htok : client.tokens (root.apiClient (root.initGlobals endpoint timeout)) fs
                 = auth.WorkspaceToken tok)
    by (simpl; unfold auth.GetToken; now rewrite Hload).
  unfold client.Post. simpl Marshal. cbv iota.
  rewrite (do_offline Net NewRequest Do _ "POST" root.PathSignals
             (Some (root.signal_body cardID signalType content)) fs net cause net').
  - destruct (wrapped_ErrNetwork_is_transient (Error cause)) as [_ ->].
    reflexivity.
  - now rewrite Htok.
  - exact Hreq.
  - unfold request_of. rewrite Htok. exact Hdown.
Qed.

(** X20.  With the network down, the [signal] command queues the signal and
    reports success: it returns nil, says that the request was queued,
    and the queue ends with a POST of the signal to the signals path. *)
Theorem signal_offline_is_queued endpoint timeout t1 t2 cardID signalType content
    fs net tok items cause net' :
  auth.Load auth.NewTokenStore fs = Some tok ->
  auth.WorkspaceToken tok <> ""%string ->
  cardID <> ""%string -> content <> ""%string ->
  In signalType root.validSignalTypes ->
  Healthy (queue.path queue.New) fs ->
  queue.List queue.New fs = inr items ->
  is_Some (Time_format t2) ->
  NewRequest "POST" (endpoint ++ root.PathSignals)%string = None ->
  Do net (client.mkRequest "POST" (endpoint ++ root.PathSignals)
            (Some ("Bearer " ++ auth.WorkspaceToken tok)%string)
            (Some "application/json"%string)
            (Some (root.signal_body cardID signalType content)))
  = (inl cause, net') ->
  exists fs',
    signal (root.initGlobals endpoint timeout) t1 t2 cardID signalType content fs net
    = (Return None, [Stdout root.queued_offline], fs', net')
    /\ queue.List queue.New fs'
       = inr (items
              ++ [queue.mkQueuedRequest (Sprintf_d (UnixNano t1)) "POST"
                    root.PathSignals
                    (root.signal_body cardID signalType content) t2]).
Proof.
  intros Hload Htoken Hcard Hcontent Hin Hh Hlist Ht2 Hreq Hdown.
  rewrite (signal_offline endpoint timeout t1 t2 cardID signalType content
             fs net tok cause net') by assumption.
  destruct (Add_healthy queue.New
              (mkAddCall t1 t2 "POST" root.PathSignals
                 (Encodable (root.signal_body cardID signalType content)))
              fs items Hh Hlist) as (fs' & Hadd & Hl & _).
  { split; [discriminate | exact Ht2]. }
  simpl in Hadd. rewrite Hadd. exists fs'. split; [reflexivity | exact Hl].
Qed.


(** X22.  A signal emitted while the network was down is delivered by a later
    [Flush]: the request it replays is the one the command had tried,
    the same path, bearer token and body; [Flush] reports one request
    flushed and the queue is empty again. *)
Theorem queued_signal_is_replayed endpoint timeout t1 t2 cardID signalType content
    fs net tok cause net1 net2 resp net3 b :
  auth.Load auth.NewTokenStore fs = Some tok ->
  auth.WorkspaceToken tok <> ""%string ->
  cardID <> ""%string -> content <> ""%string ->
  In signalType root.validSignalTypes ->
  Healthy (queue.path queue.New) fs ->
  queue.List queue.New fs = inr [] ->
  is_Some (Time_format t2) ->
  NewRequest "POST" (endpoint ++ root.PathSignals)%string = None ->
  Do net (client.mkRequest "POST" (endpoint ++ root.PathSignals)
            (Some ("Bearer " ++ auth.WorkspaceToken tok)%string)
            (Some "application/json"%string)
            (Some (root.signal_body cardID signalType content)))
  = (inl cause, net1) ->
  Do net2 (client.mkRequest "POST" (endpoint ++ root.PathSignals)
             (Some ("Bearer " ++ auth.WorkspaceToken tok)%string)
             (Some "application/json"%string)
             (Some (root.signal_body cardID signalType content)))
  = (inr resp, net3) ->
  api.ReadAll resp = inr b ->
  api.StatusCode resp = 200 ->
  exists fs1 fs2,
    signal (root.initGlobals endpoint timeout) t1 t2 cardID signalType content fs net
    = (Return None, [Stdout root.queued_offline], fs1, net1)
    /\ cFlush (root.apiClient (root.initGlobals endpoint timeout))
         (root.offQueue (root.initGlobals endpoint timeout)) fs1 net2
       = ((1%nat, None), fs2, net3)
    /\ queue.List queue.New fs2 = inr [].
Proof.
  intros Hload Htoken Hcard Hcontent Hin Hh Hlist Ht2 Hreq Hdown Hup Hread Hcode.
  rewrite (signal_offline endpoint timeout t1 t2 cardID signalType content
             fs net tok cause net1) by assumption.
  set (doc := root.signal_body cardID signalType content) in *.
  destruct (Add_healthy queue.New
              (mkAddCall t1 t2 "POST" root.PathSignals (Encodable doc))
              fs [] Hh Hlist) as (fs1 & Hadd & Hl1 & Hh1).
  { split; [discriminate | exact Ht2]. }
  simpl in Hadd, Hl1. rewrite Hadd.
  set (c := root.apiClient (root.initGlobals endpoint timeout)).
  assert (Htok : client.tokens c fs1 = auth.WorkspaceToken tok).
  { simpl. unfold auth.GetToken.
    rewrite (Load_reads auth.NewTokenStore fs fs1), Hload; [reflexivity |].
    replace fs1 with (snd (queue.Add queue.New t1 t2 "POST" root.PathSignals
                             (Encodable doc) fs)) by now rewrite Hadd.
    apply queue_Add_other, paths_differ. }
  assert (Hpost : client.flush_Post Net NewRequest Do c fs1 net2
                    root.PathSignals doc = (None, net3)).
  { unfold client.flush_Post, client.Post. simpl Marshal. cbv iota.
    rewrite (do_answered_200 Net NewRequest Do c "POST" root.PathSignals
               (Some doc) fs1 net2 resp net3 b); [reflexivity | | | | |].
    - now rewrite Htok.
    - exact Hreq.
    - unfold request_of. rewrite Htok. exact Hup.
    - exact Hread.
    - exact Hcode. }
  destruct (Remove_healthy queue.New (Sprintf_d (UnixNano t1)) fs1 _ Hh1 Hl1)
    as (fs2 & Hrm & Hl2 & _).
  exists fs1, fs2. split; [reflexivity |]. split.
  - unfold client.Flush, queue.List. simpl root.offQueue. rewrite Hl1.
    cbn [length Nat.eqb client.flush_loop]. unfold queue.dispatch.
    cbn [queue.Method queue.Path queue.Body queue.ID entry_of method target
         body now1 now2 Marshal].
    change (String.eqb "POST" "POST") with true. cbv iota.
    rewrite Hpost, Hrm. reflexivity.
  - unfold queue.List. rewrite Hl2. unfold without. simpl.
    now rewrite String.eqb_refl.
Qed.

(** X23.  When the call of the [transition] command fails, an error that the
    commands take for a network error is returned as it is, first of
    all; otherwise an error that mentions governance, rejected,
    forbidden, not allowed or policy, in any casing, makes the command
    print the rejection and return nil; any other error is returned
    wrapped. *)
Theorem transition_error_precedence g cardID stage fs net tok e net' :
  auth.Load (root.tokenStore g) fs = Some tok ->
  Post (root.apiClient g) (root.CardTransitionPath cardID)
    (Encodable (root.transition_body stage)) fs net = (inl e, net') ->
  (spec_transient (Some e) ->
   transition g cardID stage fs net = (Return (Some e), [], net'))
  /\ (~ spec_transient (Some e) ->
      (exists kw, In kw governance_keywords /\ ContainsFold (Error e) kw) ->
      transition g cardID stage fs net
      = (Return None,
         [Stdout ("Governance rejection: transition to " ++ Quote stage
                  ++ " denied for card " ++ cardID ++ ".")%string;
          Stdout ("Reason: " ++ Error e)%string],
         net'))
  /\ (~ spec_transient (Some e) ->
      ~ (exists kw, In kw governance_keywords /\ ContainsFold (Error e) kw) ->
      transition g cardID stage fs net
      = (Return (Some (ErrMsg ("failed to transition card " ++ cardID
                               ++ ": " ++ Error e)%string)), [], net')).
Proof.
  intros Hload Hpost. unfold root.transition. rewrite Hload, Hpost.
  pose proof (isNetworkErr_spec (Some e)) as Hnet.
  pose proof (isGovernanceRejection_spec (Error e)) as Hgov.
  destruct (commands.isNetworkErr (Some e)).
  - split; [reflexivity |].
    split; intros Hnot; exfalso; apply Hnot, Hnet; reflexivity.
  - split; [intros Ht; apply Hnet in Ht; discriminate |].
    destruct (root.isGovernanceRejection (Error e)).
    + split; [reflexivity |]. intros _ Hnot. exfalso. now apply Hnot, Hgov.
    + split; [| reflexivity]. intros _ Hg. apply Hgov in Hg. discriminate.
Qed.

(** X24.  [auth refresh] stores what the service sent under [data], with the
    endpoint of the credential it replaces: after it [Load] returns
    that credential. *)
Theorem auth_refresh_stores_the_new_credential
    endpoint timeout fs net old t v resp net' b :
  auth.Load auth.NewTokenStore fs = Some old ->
  Healthy (auth.path auth.NewTokenStore) fs ->
  NewRequest "POST" (endpoint ++ "/token-service/refresh")%string = None ->
  Do net (client.mkRequest "POST" (endpoint ++ "/token-service/refresh")
            (Some ("Bearer " ++ auth.WorkspaceToken old)%string)
            (Some "application/json"%string)
            (Some (JObj [("token"%string, JStr (auth.WorkspaceToken old))])))
  = (inr resp, net') ->
  api.StatusCode resp = 200 ->
  api.ReadAll resp = inr b ->
  json_parse b = Some (JObj [("data"%string, v)]) ->
  sent t = Some v ->
  exists fs',
    auth_refresh (root.initGlobals endpoint timeout) fs net
    = (None,
       [Stdout ("Token refreshed. New expiry: "
                ++ FormatUTC (api.ExpiresAt t))%string],
       fs', net')
    /\ auth.Load auth.NewTokenStore fs' = Some (refreshed old t).
Proof.
  intros Hload Hh Hreq Hup Hcode Hread Hb Hv.
  unfold root.auth_refresh. simpl root.tokenStore. rewrite Hload.
  unfold client.RefreshToken. simpl root.apiClient. simpl client.baseURL.
  rewrite Hreq, Hup. unfold api.RefreshToken. rewrite Hcode, Hread. simpl negb.
  cbv iota. rewrite (unwrap_wrapped b t v Hv Hb).
  destruct (Save_healthy auth.NewTokenStore (refreshed old t) fs Hh)
    as (fs' & Hsave & Hload' & _).
  { simpl. unfold sent in Hv. destruct (Time_format (api.ExpiresAt t)); [eauto |].
    discriminate. }
  unfold refreshed in Hsave. rewrite Hsave. exists fs'. split; [reflexivity |].
  exact Hload'.
Qed.

(** X25.  [auth refresh] on a response in the flat shape: the command reports
    a refreshed token, and what it has stored is a credential with an
    empty token, so that [GetToken] returns the empty string and every
    call after it fails as not authenticated. *)
Theorem auth_refresh_on_flat_response_logs_out
    endpoint timeout fs net old ms resp net' b :
  auth.Load auth.NewTokenStore fs = Some old ->
  Healthy (auth.path auth.NewTokenStore) fs ->
  NewRequest "POST" (endpoint ++ "/token-service/refresh")%string = None ->
  Do net (client.mkRequest "POST" (endpoint ++ "/token-service/refresh")
            (Some ("Bearer " ++ auth.WorkspaceToken old)%string)
            (Some "application/json"%string)
            (Some (JObj [("token"%string, JStr (auth.WorkspaceToken old))])))
  = (inr resp, net') ->
  api.StatusCode resp = 200 ->
  api.ReadAll resp = inr b ->
  json_parse b = Some (JObj ms) ->
  Forall (fun m => Json.key_is (fst m) "data" = false) ms ->
  exists fs',
    auth_refresh (root.initGlobals endpoint timeout) fs net
    = (None,
       [Stdout ("Token refreshed. New expiry: " ++ FormatUTC zeroTime)%string],
       fs', net')
    /\ auth.GetToken auth.NewTokenStore fs' = ""%string.
Proof.
  intros Hload Hh Hreq Hup Hcode Hread Hb Hms.
  assert (Hu : api.unwrap b = inr api.zeroTokenResponse).
  { apply unwrap_order. unfold api.Unmarshal_wrapper. rewrite Hb. simpl.
    now rewrite dec_members_no_data. }
  unfold root.auth_refresh. simpl root.tokenStore. rewrite Hload.
  unfold client.RefreshToken. simpl root.apiClient. simpl client.baseURL.
  rewrite Hreq, Hup. unfold api.RefreshToken. rewrite Hcode, Hread. simpl negb.
  cbv iota. rewrite Hu.
  destruct (Save_healthy auth.NewTokenStore (refreshed old api.zeroTokenResponse)
              fs Hh) as (fs' & Hsave & Hload' & _).
  { simpl. apply Time_format_zero. }
  unfold refreshed in Hsave. simpl in Hsave. simpl. rewrite Hsave.
  exists fs'. split; [reflexivity |].
  unfold auth.GetToken. unfold refreshed in Hload'. simpl in Hload'.
  now rewrite Hload'.
Qed.

(** X26.  [auth refresh] that returns an error has left the token file as it
    was, and has printed nothing. *)
Theorem auth_refresh_failure_keeps_the_credential g fs net e lines fs' net' :
  auth_refresh g fs net = (Some e, lines, fs', net') ->
  fs' = fs /\ lines = [].
Proof.
  unfold root.auth_refresh.
  destruct (auth.Load (root.tokenStore g) fs) as [token|]; [| intros [=]; subst; auto].
  destruct (client.RefreshToken Net NewRequest Do (root.apiClient g)
              (auth.WorkspaceToken token) net) as [[err|resp] net1];
    [intros [=]; subst; auto |].
  destruct (auth.Save (root.tokenStore g) _ fs) as [[err|] fs1] eqn:Hsave;
    [| discriminate].
  apply auth_Save_error in Hsave. intros [=]; subst; auto.
Qed.

End Commands.

(** ** The auto-refresh loop and the token file *)

Section AutoRefreshMore.
Context `{Platform}.
Variable refresh : nat -> string -> option auth.TokenData * option error.
Variable elapsed : nat -> Duration.
Implicit Types (store : auth.TokenStore) (w : auth.World).

Local Abbreviation iteration := (auth.iteration refresh elapsed).
Local Abbreviation run := (auth.run refresh elapsed).

Lemma iteration_idle store w :
  auth.Load store (auth.w_fs w) = None ->
  fst (iteration store w) = [auth.Slept (5 * Minute)]
  /\ auth.w_fs (snd (iteration store w)) = auth.w_fs w.
Proof. intros Hload. unfold auth.iteration. now rewrite Hload. Qed.

(** What one round leaves in the file system: what [Save] of the new
    credential leaves when the refresh function returned no error, and
    else what was there. *)
Lemma iteration_fs store w token :
  auth.Load store (auth.w_fs w) = Some token ->
  exists i,
    auth.w_fs (snd (iteration store w))
    = match refresh i (auth.WorkspaceToken token) with
      | (newToken, None) => snd (auth.Save store newToken (auth.w_fs w))
      | (_, Some _) => auth.w_fs w
      end.
Proof.
  intros Hload. unfold auth.iteration. rewrite Hload.
  set (w1 := auth.tick elapsed 0 w). set (now := auth.w_now w1).
  set (refreshAt := Time_Add (auth.ExpiresAt token) (-4 * Hour)).
  destruct (if Time_Before now refreshAt then _ else _) as [slept w2] eqn:Hs.
  assert (Hfs : auth.w_fs w2 = auth.w_fs w)
    by (destruct (Time_Before now refreshAt); injection Hs as _ <-; reflexivity).
  exists (auth.w_step w2).
  destruct (refresh (auth.w_step w2) (auth.WorkspaceToken token))
    as [newToken [e|]]; simpl; [exact Hfs |].
  rewrite Hfs.
  destruct (auth.Save store newToken (auth.w_fs w)) as [[e|] fs']; reflexivity.
Qed.

(** X27.  Without a credential the loop only waits: every round is one sleep
    of five minutes, the refresh function is not called, and the file
    system stays as it is. *)
Theorem scheduler_idle_without_credential n store w :
  auth.Load store (auth.w_fs w) = None ->
  fst (run n store w) = repeat (auth.Slept (5 * Minute)) n
  /\ auth.w_fs (snd (run n store w)) = auth.w_fs w.
Proof.
  revert w; induction n as [|n IH]; intros w Hload; [now split |].
  destruct (iteration_idle store w Hload) as [Hevs Hfs]. simpl.
  destruct (iteration store w) as [evs w']. simpl in Hevs, Hfs. subst evs.
  rewrite <- Hfs in Hload. destruct (IH w' Hload) as [Hevs' Hfs'].
  destruct (run n store w') as [evs' w'']. simpl in *. subst evs'.
  split; [reflexivity | congruence].
Qed.

(** X28.  While the refresh function fails, whatever it fails with, the loop
    never writes: after any number of rounds the file system, and so
    the stored credential, is as it was. *)
Theorem failing_refresh_keeps_the_credential n store w :
  (forall i tok, exists newToken e, refresh i tok = (newToken, Some e)) ->
  auth.w_fs (snd (run n store w)) = auth.w_fs w.
Proof.
  intros Hfail. revert w; induction n as [|n IH]; intros w; [reflexivity |].
  assert (Hfs : auth.w_fs (snd (iteration store w)) = auth.w_fs w).
  { destruct (auth.Load store (auth.w_fs w)) as [token|] eqn:Hload.
    - destruct (iteration_fs store w token Hload) as [i Hi].
      destruct (Hfail i (auth.WorkspaceToken token)) as (nt & e & Hr).
      now rewrite Hr in Hi.
    - now apply iteration_idle. }
  simpl. destruct (iteration store w) as [evs w']. specialize (IH w').
  destruct (run n store w') as [evs' w'']. simpl in *. congruence.
Qed.

(** X29.  A round whose refresh succeeds stores the credential the refresh
    function returned: [Load] returns it afterwards, and the next round
    works with it. *)
Theorem scheduler_stores_the_refreshed_credential store w token newToken :
  auth.Load store (auth.w_fs w) = Some token ->
  Healthy (auth.path store) (auth.w_fs w) ->
  (forall i, refresh i (auth.WorkspaceToken token) = (Some newToken, None)) ->
  is_Some (Time_format (auth.ExpiresAt newToken)) ->
  auth.Load store (auth.w_fs (snd (iteration store w))) = Some newToken.
Proof.
  intros Hload Hh Hrefresh Hfmt.
  destruct (iteration_fs store w token Hload) as [i Hi].
  rewrite Hrefresh in Hi. rewrite Hi.
  destruct (Save_healthy store newToken (auth.w_fs w) Hh Hfmt)
    as (fs' & -> & Hload' & _).
  exact Hload'.
Qed.

(** X30.  The loop writes the token file and nothing else: any other file
    reads the same after any number of rounds. *)
Theorem scheduler_writes_only_the_token_file n store w name :
  name <> auth.path store ->
  ReadFile name (auth.w_fs (snd (run n store w))) = ReadFile name (auth.w_fs w).
Proof.
  intros Hne. revert w; induction n as [|n IH]; intros w; [reflexivity |].
  assert (Hfs : ReadFile name (auth.w_fs (snd (iteration store w)))
                = ReadFile name (auth.w_fs w)).
  { destruct (auth.Load store (auth.w_fs w)) as [token|] eqn:Hload.
    - destruct (iteration_fs store w token Hload) as [i ->].
      destruct (refresh i (auth.WorkspaceToken token)) as [nt [e|]];
        [reflexivity |].
      now apply auth_Save_other.
    - destruct (iteration_idle store w Hload) as [_ ->]. reflexivity. }
  simpl. destruct (iteration store w) as [evs w']. specialize (IH w').
  destruct (run n store w') as [evs' w'']. simpl in *. congruence.
Qed.

End AutoRefreshMore.

(** * Runs of the further facts *)

(** An identifier that no entry has. *)
Lemma Remove_absent_changes_nothing_run :
  exists fs',
    @queue.Remove Sim_platform Sim_queue "9" (Sim_queued [Sim_r1; Sim_r2])
    = (None, fs')
    /\ @queue.List Sim_platform Sim_queue fs' = inr [Sim_r1; Sim_r2].
Proof.
  apply (@Remove_absent_changes_nothing Sim_platform Sim_queue "9"
           (Sim_queued [Sim_r1; Sim_r2]) [Sim_r1; Sim_r2]).
  - vm_compute. auto.
  - vm_compute. reflexivity.
  - simpl. intros [Heq|[Heq|[]]]; discriminate.
Defined.

(** An identifier that two entries have. *)
Lemma Remove_takes_out_every_match_run :
  exists fs' rest,
    @queue.Remove Sim_platform Sim_queue "1" (Sim_queued [Sim_r1; Sim_r2; Sim_r1])
    = (None, fs')
    /\ @queue.List Sim_platform Sim_queue fs' = inr rest
    /\ rest = List.filter (fun item => negb (String.eqb (queue.ID item) "1"))
                [Sim_r1; Sim_r2; Sim_r1]
    /\ ~ In "1"%string (map queue.ID rest).
Proof.
  apply (@Remove_takes_out_every_match Sim_platform Sim_queue "1"
           (Sim_queued [Sim_r1; Sim_r2; Sim_r1]) [Sim_r1; Sim_r2; Sim_r1]).
  - vm_compute. auto.
  - vm_compute. reflexivity.
Defined.

(** [Clear] on the damaged queue file. *)
Lemma Clear_empties_the_queue_run :
  exists fs',
    @queue.Clear Sim_platform Sim_queue Sim_damaged = (None, fs')
    /\ @queue.List Sim_platform Sim_queue fs' = inr []
    /\ @queue.Len Sim_platform Sim_queue fs' = 0%nat.
Proof.
  apply (@Clear_empties_the_queue Sim_platform Sim_queue Sim_damaged).
  vm_compute. auto.
Defined.

(** An [Add] and the [Remove] of what it added. *)
Lemma Add_then_Remove_restores_run :
  exists fs1 fs2,
    @queue.Add Sim_platform Sim_queue (now1 Sim_a1) (now2 Sim_a1) (method Sim_a1)
      (target Sim_a1) (body Sim_a1) (Sim_queued [Sim_r1]) = (None, fs1)
    /\ @queue.Remove Sim_platform Sim_queue (queue.ID (entry_of Sim_a1)) fs1
       = (None, fs2)
    /\ @queue.List Sim_platform Sim_queue fs2 = inr [Sim_r1].
Proof.
  apply (@Add_then_Remove_restores Sim_platform Sim_queue Sim_a1
           (Sim_queued [Sim_r1]) [Sim_r1]).
  - vm_compute. auto.
  - vm_compute. reflexivity.
  - split; [discriminate | vm_compute; eauto].
  - vm_compute. intros [Heq|[]]. discriminate.
Defined.

(** A flush with a delivery, a rejection and a delivery. *)
Lemma Flush_only_removes_run :
  exists ids,
    @queue.List Sim_platform Sim_queue
      (snd (fst (queue.Flush Sim.Script Sim.Post Sim.Get Sim_queue
                   (Sim_queued [Sim_r1; Sim_r2; Sim_r3]) [None; Some Sim_404; None])))
    = inr (without ids [Sim_r1; Sim_r2; Sim_r3]).
Proof.
  apply (@Flush_only_removes Sim_platform Sim.Script Sim.Post Sim.Get Sim_queue
           (Sim_queued [Sim_r1; Sim_r2; Sim_r3]) [None; Some Sim_404; None]
           [Sim_r1; Sim_r2; Sim_r3]).
  - vm_compute. auto.
  - vm_compute. reflexivity.
Defined.

Lemma Flush_without_transient_empties_run :
  exists fs',
    queue.Flush Sim.Script Sim.Post Sim.Get Sim_queue
      (Sim_queued [Sim_r1; Sim_r2; Sim_r3]) [None; Some Sim_404; None]
    = ((count_delivered [Some None; Some (Some Sim_404); Some None], None), fs', [])
    /\ @queue.List Sim_platform Sim_queue fs' = inr [].
Proof.
  apply (@Flush_without_transient_empties Sim_platform Sim.Script Sim.Post Sim.Get
           Sim_queue (Sim_queued [Sim_r1; Sim_r2; Sim_r3]) [None; Some Sim_404; None]
           [Sim_r1; Sim_r2; Sim_r3]).
  - vm_compute. auto.
  - vm_compute. reflexivity.
  - vm_compute. reflexivity.
  - vm_compute. reflexivity.
Defined.

(** A call with no token file. *)
Lemma call_without_token_sends_nothing_run :
  client.Get Sim_Net Sim_NewRequest Sim_Do
    (@client.NewClient Sim_platform Sim_endpoint 30
       (@auth.GetToken Sim_platform Sim_store))
    "/workspace-api/api/cards" Sim_empty []
  = (inl not_authenticated, [])
  /\ client.Post Sim_Net Sim_NewRequest Sim_Do
       (@client.NewClient Sim_platform Sim_endpoint 30
          (@auth.GetToken Sim_platform Sim_store))
       "/workspace-api/api/cards" Nil Sim_empty []
     = (inl not_authenticated, [])
  /\ api.IsNetworkError (Some not_authenticated) = false
  /\ commands.isNetworkErr (Some not_authenticated) = false.
Proof.
  apply (@call_without_token_sends_nothing Sim_platform Sim_Net Sim_NewRequest Sim_Do
           Sim_store Sim_endpoint 30). 
  - vm_compute. reflexivity.
  - discriminate.
Defined.

(** A call with the credential and the network down. *)
Lemma transport_failure_is_network_error_run :
  exists e,
    client.do Sim_Net Sim_NewRequest Sim_Do Sim_client "GET"
      "/workspace-api/api/cards" None Sim_logged_in []
    = (inl e, [])
    /\ api.IsNetworkError (Some e) = true
    /\ commands.isNetworkErr (Some e) = true.
Proof.
  apply (@transport_failure_is_network_error Sim_platform Sim_Net Sim_NewRequest
           Sim_Do Sim_client "GET" "/workspace-api/api/cards" None Sim_logged_in []
           Sim_refused []).
  - vm_compute. discriminate.
  - reflexivity.
  - reflexivity.
Defined.

(** A call answered with 201. *)
Lemma call_succeeds_exactly_on_2xx_run :
  ((exists b,
       fst (client.do Sim_Net Sim_NewRequest Sim_Do Sim_client "POST"
              "/workspace-api/api/artifacts" (Some JNull) Sim_logged_in
              [Sim_answer 201 (JStr "created")]) = inr b)
   <-> In (@api.StatusCode Sim_platform
             (@api.mkResponse Sim_platform 201 (inr (Some (JStr "created")))))
          [200; 201; 202; 204])
  /\ (forall b,
         fst (client.do Sim_Net Sim_NewRequest Sim_Do Sim_client "POST"
                "/workspace-api/api/artifacts" (Some JNull) Sim_logged_in
                [Sim_answer 201 (JStr "created")]) = inr b ->
         b = Some (JStr "created")).
Proof.
  apply (@call_succeeds_exactly_on_2xx Sim_platform Sim_Net Sim_NewRequest Sim_Do
           Sim_client "POST" "/workspace-api/api/artifacts" (Some JNull)
           Sim_logged_in [Sim_answer 201 (JStr "created")]
           (@api.mkResponse Sim_platform 201 (inr (Some (JStr "created")))) []).
  - vm_compute. discriminate.
  - reflexivity.
  - intros req. reflexivity.
  - reflexivity.
Defined.

(** A gateway that answers 504 with a text that has "timeout" in it. *)
Lemma server_error_can_look_offline_run :
  exists e,
    client.do Sim_text_Net Sim_NewRequest Sim_text_Do
      (@client.mkClient Sim_text_platform Sim_endpoint 30000000000
         (fun _ => "jwt-1"))
      "POST" "/workspace-api/api/signals" (Some JNull) Sim_text_logged_in
      [inr (@api.mkResponse Sim_text_platform 504
              (inr (Some (JStr "upstream request timeout"))))]
    = (inl e, [])
    /\ api.IsNetworkError (Some e) = true
    /\ commands.isNetworkErr (Some e) = true.
Proof.
  apply (@server_error_can_look_offline Sim_text_platform Sim_text_Net
           Sim_NewRequest Sim_text_Do
           (@client.mkClient Sim_text_platform Sim_endpoint 30000000000
              (fun _ => "jwt-1"))
           "POST" "/workspace-api/api/signals" (Some JNull) Sim_text_logged_in
           [inr (@api.mkResponse Sim_text_platform 504
                   (inr (Some (JStr "upstream request timeout"))))]
           (@api.mkResponse Sim_text_platform 504
              (inr (Some (JStr "upstream request timeout")))) []
           (Some (JStr "upstream request timeout")) "timeout").
  - discriminate.
  - reflexivity.
  - reflexivity.
  - reflexivity.
  - simpl. lia.
  - simpl. tauto.
  - exists "upstream request "%string, ""%string. reflexivity.
Defined.

(** A flush of three entries with no token file. *)
Lemma Flush_logged_out_discards_queue_run :
  exists fs',
    client.Flush Sim_Net Sim_NewRequest Sim_Do
      (@client.NewClient Sim_platform Sim_endpoint 30
         (@auth.GetToken Sim_platform Sim_store))
      Sim_queue (Sim_queued [Sim_r1; Sim_r2; Sim_r3]) []
    = ((0%nat, None), fs', [])
    /\ @queue.List Sim_platform Sim_queue fs' = inr [].
Proof.
  apply (@Flush_logged_out_discards_queue Sim_platform Sim_Net Sim_NewRequest Sim_Do
           Sim_store Sim_queue Sim_endpoint 30
           (Sim_queued [Sim_r1; Sim_r2; Sim_r3]) [] [Sim_r1; Sim_r2; Sim_r3]).
  - vm_compute. discriminate.
  - vm_compute. auto.
  - vm_compute. reflexivity.
  - vm_compute. reflexivity.
Defined.

(** A flush of three entries against a service that answers 429. *)
Lemma Flush_refused_discards_queue_run :
  exists fs' net',
    client.Flush Sim_Net Sim_NewRequest Sim_Do_limited
      (@client.NewClient Sim_platform Sim_endpoint 30
         (@auth.GetToken Sim_platform Sim_store))
      Sim_queue (Sim_logged_in_queued [Sim_r1; Sim_r2; Sim_r3]) []
    = ((0%nat, None), fs', net')
    /\ @queue.List Sim_platform Sim_queue fs' = inr [].
Proof.
  apply (@Flush_refused_discards_queue Sim_platform Sim_Net Sim_NewRequest
           Sim_Do_limited Sim_store Sim_queue Sim_endpoint 30
           (Sim_logged_in_queued [Sim_r1; Sim_r2; Sim_r3]) []
           [Sim_r1; Sim_r2; Sim_r3] Sim_token).
  - vm_compute. discriminate.
  - vm_compute. auto.
  - vm_compute. reflexivity.
  - vm_compute. reflexivity.
  - discriminate.
  - reflexivity.
  - intros n req. eexists _, _, _. split; [reflexivity |]. split; [reflexivity |].
    right. reflexivity.
Defined.

Lemma api_classifier_is_the_narrower_run :
  commands.isNetworkErr (Some Sim_offline) = true.
Proof.
  apply (api_classifier_is_the_narrower (Some Sim_offline)).
  vm_compute. reflexivity.
Defined.

(** [Save] of nil over the stored credential. *)
Lemma Save_nil_then_Load_run :
  exists fs',
    @auth.Save Sim_platform Sim_store None Sim_logged_in = (None, fs')
    /\ @auth.Load Sim_platform Sim_store fs' = Some auth.zeroTokenData
    /\ @auth.GetToken Sim_platform Sim_store fs' = ""%string.
Proof.
  apply (@Save_nil_then_Load Sim_platform Sim_store Sim_logged_in).
  vm_compute. auto.
Defined.

(** [apiPost] with the network down. *)
Lemma apiPost_queues_network_errors_run :
  (api.IsNetworkError
     (Some (ErrMsg ("network error: " ++ Error Sim_refused)%string)) = true ->
   exists fs',
     root.apiPost Sim_Net Sim_NewRequest Sim_Do Sim_globals 1000 1001
       "/workspace-api/api/artifacts" (Encodable (JObj [("card_id", JStr "DEA-7")]))
       Sim_logged_in []
     = (inl (ErrMsg ("network error: " ++ Error Sim_refused)%string),
        [Stdout root.queued_offline], fs', [])
     /\ @queue.List Sim_platform (root.offQueue Sim_globals) fs'
        = inr ([] ++ [entry_of
                        (mkAddCall 1000 1001 "POST" "/workspace-api/api/artifacts"
                           (Encodable (JObj [("card_id", JStr "DEA-7")])))]))
  /\ (api.IsNetworkError
        (Some (ErrMsg ("network error: " ++ Error Sim_refused)%string)) = false ->
      root.apiPost Sim_Net Sim_NewRequest Sim_Do Sim_globals 1000 1001
        "/workspace-api/api/artifacts" (Encodable (JObj [("card_id", JStr "DEA-7")]))
        Sim_logged_in []
      = (inl (ErrMsg ("network error: " ++ Error Sim_refused)%string),
         [], Sim_logged_in, [])).
Proof.
  apply (@apiPost_queues_network_errors Sim_platform Sim_Net Sim_NewRequest Sim_Do
           Sim_globals 1000 1001 "/workspace-api/api/artifacts"
           (Encodable (JObj [("card_id", JStr "DEA-7")])) Sim_logged_in [] []).
  - vm_compute. auto.
  - vm_compute. reflexivity.
  - vm_compute. eauto.
  - reflexivity.
Defined.

(** A signal of a type that is none of the four. *)
Lemma signal_validates_before_sending_run :
  exists e,
    root.signal Sim_Net Sim_NewRequest Sim_Do Sim_Quote Sim_globals 1000 1001
      "DEA-7" "praise" "well done" Sim_logged_in []
    = (Return (Some e), [], Sim_logged_in, []).
Proof.
  apply (@signal_validates_before_sending Sim_platform Sim_Net Sim_NewRequest Sim_Do
           Sim_Quote Sim_globals 1000 1001 "DEA-7" "praise" "well done"
           Sim_logged_in [] Sim_token).
  - vm_compute. reflexivity.
  - right. right. simpl. intros [Heq|[Heq|[Heq|[Heq|[]]]]]; discriminate.
Defined.

(** A signal with the network down. *)
Lemma signal_offline_is_queued_run :
  exists fs',
    root.signal Sim_Net Sim_NewRequest Sim_Do Sim_Quote
      (@root.initGlobals Sim_platform Sim_endpoint 30) 1000 1001
      "DEA-7" "friction" "flaky test" Sim_logged_in []
    = (Return None, [Stdout root.queued_offline], fs', [])
    /\ @queue.List Sim_platform (@queue.New Sim_platform) fs'
       = inr ([] ++ [queue.mkQueuedRequest (Sprintf_d (UnixNano 1000)) "POST"
                       root.PathSignals
                       (root.signal_body "DEA-7" "friction" "flaky test") 1001]).
Proof.
  apply (@signal_offline_is_queued Sim_platform Sim_Net Sim_NewRequest Sim_Do
           Sim_Quote Sim_endpoint 30 1000 1001 "DEA-7" "friction" "flaky test"
           Sim_logged_in [] Sim_token [] Sim_refused []).
  - vm_compute. reflexivity.
  - discriminate.
  - discriminate.
  - discriminate.
  - simpl. tauto.
  - vm_compute. auto.
  - vm_compute. reflexivity.
  - vm_compute. eauto.
  - reflexivity.
  - reflexivity.
Defined.


(** A signal with the network down, and a flush with it up again. *)
Lemma queued_signal_is_replayed_run :
  exists fs1 fs2,
    root.signal Sim_Net Sim_NewRequest Sim_Do Sim_Quote
      (@root.initGlobals Sim_platform Sim_endpoint 30) 1000 1001
      "DEA-7" "friction" "flaky test" Sim_logged_in []
    = (Return None, [Stdout root.queued_offline], fs1, [])
    /\ client.Flush Sim_Net Sim_NewRequest Sim_Do
         (root.apiClient (@root.initGlobals Sim_platform Sim_endpoint 30))
         (root.offQueue (@root.initGlobals Sim_platform Sim_endpoint 30))
         fs1 [Sim_answer 200 JNull]
       = ((1%nat, None), fs2, [])
    /\ @queue.List Sim_platform (@queue.New Sim_platform) fs2 = inr [].
Proof.
  apply (@queued_signal_is_replayed Sim_platform Sim_Net Sim_NewRequest Sim_Do
           Sim_Quote Sim_endpoint 30 1000 1001 "DEA-7" "friction" "flaky test"
           Sim_logged_in [] Sim_token Sim_refused [] [Sim_answer 200 JNull]
           (@api.mkResponse Sim_platform 200 (inr (Some JNull))) [] (Some JNull)).
  - vm_compute. reflexivity.
  - discriminate.
  - discriminate.
  - discriminate.
  - simpl. tauto.
  - vm_compute. auto.
  - vm_compute. reflexivity.
  - vm_compute. eauto.
  - reflexivity.
  - reflexivity.
  - reflexivity.
  - reflexivity.
  - reflexivity.
Defined.

(** A transition the service answers with 403 and the text
    "Forbidden by lane policy". *)
Lemma transition_error_precedence_run :
  (spec_transient (Some (ErrMsg "API error 403: Forbidden by lane policy")) ->
   root.transition Sim_text_Net Sim_NewRequest Sim_text_Do Sim_Quote Sim_len
     (@root.initGlobals Sim_text_platform Sim_endpoint 30) "DEA-7" "done"
     Sim_text_logged_in
     [inr (@api.mkResponse Sim_text_platform 403
             (inr (Some (JStr "Forbidden by lane policy"))))]
   = (Return (Some (ErrMsg "API error 403: Forbidden by lane policy")), [], []))
  /\ (~ spec_transient (Some (ErrMsg "API error 403: Forbidden by lane policy")) ->
      (exists kw, In kw governance_keywords
                  /\ ContainsFold
                       (Error (ErrMsg "API error 403: Forbidden by lane policy")) kw) ->
      root.transition Sim_text_Net Sim_NewRequest Sim_text_Do Sim_Quote Sim_len
        (@root.initGlobals Sim_text_platform Sim_endpoint 30) "DEA-7" "done"
        Sim_text_logged_in
        [inr (@api.mkResponse Sim_text_platform 403
                (inr (Some (JStr "Forbidden by lane policy"))))]
      = (Return None,
         [Stdout ("Governance rejection: transition to " ++ Sim_Quote "done"
                  ++ " denied for card " ++ "DEA-7" ++ ".")%string;
          Stdout ("Reason: "
                  ++ Error (ErrMsg "API error 403: Forbidden by lane policy"))%string],
         []))
  /\ (~ spec_transient (Some (ErrMsg "API error 403: Forbidden by lane policy")) ->
      ~ (exists kw, In kw governance_keywords
                    /\ ContainsFold
                         (Error (ErrMsg "API error 403: Forbidden by lane policy")) kw) ->
      root.transition Sim_text_Net Sim_NewRequest Sim_text_Do Sim_Quote Sim_len
        (@root.initGlobals Sim_text_platform Sim_endpoint 30) "DEA-7" "done"
        Sim_text_logged_in
        [inr (@api.mkResponse Sim_text_platform 403
                (inr (Some (JStr "Forbidden by lane policy"))))]
      = (Return (Some (ErrMsg ("failed to transition card " ++ "DEA-7" ++ ": "
                               ++ Error (ErrMsg "API error 403: Forbidden by lane policy"))%string)),
         [], [])).
Proof.
  apply (@transition_error_precedence Sim_text_platform Sim_text_Net Sim_NewRequest
           Sim_text_Do Sim_Quote Sim_len
           (@root.initGlobals Sim_text_platform Sim_endpoint 30) "DEA-7" "done"
           Sim_text_logged_in
           [inr (@api.mkResponse Sim_text_platform 403
                   (inr (Some (JStr "Forbidden by lane policy"))))]
           Sim_token).
  - vm_compute. reflexivity.
  - vm_compute. reflexivity.
Defined.

(** The rejected transition, run: the command returns nil. *)
Lemma transition_rejection_returns_nil :
  fst (fst (root.transition Sim_text_Net Sim_NewRequest Sim_text_Do Sim_Quote Sim_len
              (@root.initGlobals Sim_text_platform Sim_endpoint 30) "DEA-7" "done"
              Sim_text_logged_in
              [inr (@api.mkResponse Sim_text_platform 403
                      (inr (Some (JStr "Forbidden by lane policy"))))]))
  = Return None.
Proof. vm_compute. reflexivity. Qed.

(** [auth refresh] answered with a credential under [data]. *)
Lemma auth_refresh_stores_the_new_credential_run :
  exists fs',
    root.auth_refresh Sim_Net Sim_NewRequest Sim_Do Sim_FormatUTC
      (@root.initGlobals Sim_platform Sim_endpoint 30) Sim_logged_in
      [Sim_answer 200 (JObj [("data", Sim_fresh_doc)])]
    = (None,
       [Stdout ("Token refreshed. New expiry: "
                ++ Sim_FormatUTC (api.ExpiresAt Sim_fresh))%string],
       fs', [])
    /\ @auth.Load Sim_platform (@auth.NewTokenStore Sim_platform) fs'
       = Some (refreshed Sim_token Sim_fresh).
Proof.
  apply (@auth_refresh_stores_the_new_credential Sim_platform Sim_Net Sim_NewRequest
           Sim_Do Sim_FormatUTC Sim_endpoint 30 Sim_logged_in
           [Sim_answer 200 (JObj [("data", Sim_fresh_doc)])] Sim_token Sim_fresh
           Sim_fresh_doc
           (@api.mkResponse Sim_platform 200
              (inr (Some (JObj [("data", Sim_fresh_doc)])))) []
           (Some (JObj [("data", Sim_fresh_doc)]))).
  - vm_compute. reflexivity.
  - vm_compute. auto.
  - reflexivity.
  - reflexivity.
  - reflexivity.
  - reflexivity.
  - reflexivity.
  - vm_compute. reflexivity.
Defined.

(** [auth refresh] answered with the credential in the flat shape. *)
Lemma auth_refresh_on_flat_response_logs_out_run :
  exists fs',
    root.auth_refresh Sim_Net Sim_NewRequest Sim_Do Sim_FormatUTC
      (@root.initGlobals Sim_platform Sim_endpoint 30) Sim_logged_in
      [Sim_answer 200 (JObj Sim_flat)]
    = (None,
       [Stdout ("Token refreshed. New expiry: " ++ Sim_FormatUTC zeroTime)%string],
       fs', [])
    /\ @auth.GetToken Sim_platform (@auth.NewTokenStore Sim_platform) fs'
       = ""%string.
Proof.
  apply (@auth_refresh_on_flat_response_logs_out Sim_platform Sim_Net Sim_NewRequest
           Sim_Do Sim_FormatUTC Sim_endpoint 30 Sim_logged_in
           [Sim_answer 200 (JObj Sim_flat)] Sim_token Sim_flat
           (@api.mkResponse Sim_platform 200 (inr (Some (JObj Sim_flat)))) []
           (Some (JObj Sim_flat))).
  - vm_compute. reflexivity.
  - vm_compute. auto.
  - reflexivity.
  - reflexivity.
  - reflexivity.
  - reflexivity.
  - reflexivity.
  - repeat constructor.
Defined.

(** [auth refresh] with the network down. *)
Lemma auth_refresh_failure_keeps_the_credential_run :
  root.auth_refresh Sim_Net Sim_NewRequest Sim_Do Sim_FormatUTC Sim_globals
    Sim_logged_in []
  = (Some (ErrMsg ("refresh failed: " ++ Error Sim_refused)%string), [],
     Sim_logged_in, [])
  /\ (Sim_logged_in = Sim_logged_in /\ @nil Line = []).
Proof.
  split; [vm_compute; reflexivity |].
  apply (@auth_refresh_failure_keeps_the_credential Sim_platform Sim_Net
           Sim_NewRequest Sim_Do Sim_FormatUTC Sim_globals Sim_logged_in []
           (ErrMsg ("refresh failed: " ++ Error Sim_refused)%string) []
           Sim_logged_in []).
  vm_compute. reflexivity.
Defined.

(** Three rounds with no token file. *)
Lemma scheduler_idle_without_credential_run :
  fst (@auth.run Sim_platform Sim_refresh Sim_elapsed 3 Sim_store
         (@auth.mkWorld Sim_platform Sim_empty 0 0))
  = repeat (auth.Slept (5 * Minute)) 3
  /\ auth.w_fs (snd (@auth.run Sim_platform Sim_refresh Sim_elapsed 3 Sim_store
                       (@auth.mkWorld Sim_platform Sim_empty 0 0)))
     = auth.w_fs (@auth.mkWorld Sim_platform Sim_empty 0 0).
Proof.
  apply (@scheduler_idle_without_credential Sim_platform Sim_refresh Sim_elapsed 3
           Sim_store (@auth.mkWorld Sim_platform Sim_empty 0 0)).
  vm_compute. reflexivity.
Defined.

(** Three rounds with the service offline. *)
Lemma failing_refresh_keeps_the_credential_run :
  auth.w_fs (snd (@auth.run Sim_platform Sim_refresh_down Sim_elapsed 3 Sim_store
                    Sim_world))
  = auth.w_fs Sim_world.
Proof.
  apply (@failing_refresh_keeps_the_credential Sim_platform Sim_refresh_down
           Sim_elapsed 3 Sim_store Sim_world).
  intros i tok. exists None, Sim_offline. reflexivity.
Defined.

(** A round that refreshes [Sim_token]. *)
Lemma scheduler_stores_the_refreshed_credential_run :
  @auth.Load Sim_platform Sim_store
    (auth.w_fs (snd (@auth.iteration Sim_platform Sim_refresh Sim_elapsed Sim_store
                       Sim_world)))
  = Some (auth.mkTokenData "jwt-1+" "bearer" (48 * Hour) "ws-1" "agent-1"
            "https://example.test/functions/v1").
Proof.
  apply (@scheduler_stores_the_refreshed_credential Sim_platform Sim_refresh
           Sim_elapsed Sim_store Sim_world Sim_token).
  - vm_compute. reflexivity.
  - vm_compute. auto.
  - intros i. reflexivity.
  - vm_compute. eauto.
Defined.

(** Two rounds beside a queue of one entry. *)
Lemma scheduler_writes_only_the_token_file_run :
  ReadFile (queue.path Sim_queue)
    (auth.w_fs (snd (@auth.run Sim_platform Sim_refresh Sim_elapsed 2 Sim_store
                       (@auth.mkWorld Sim_platform
                          (Sim_logged_in_queued [Sim_r1]) 0 0))))
  = ReadFile (queue.path Sim_queue)
      (auth.w_fs (@auth.mkWorld Sim_platform (Sim_logged_in_queued [Sim_r1]) 0 0)).
Proof.
  apply (@scheduler_writes_only_the_token_file Sim_platform Sim_refresh Sim_elapsed
           2 Sim_store (@auth.mkWorld Sim_platform (Sim_logged_in_queued [Sim_r1]) 0 0)
           (queue.path Sim_queue)).
  vm_compute. discriminate.
Defined.
